(** * SharkScope front end: ingestion, connection store, arc aggregation,
      selection and curve geometry

    A shallow embedding of the JavaScript of [frontend/src/App.jsx],
    [frontend/src/components/WorldMap.jsx],
    [frontend/src/components/Globe.jsx],
    [frontend/src/components/ConnectionsTable.jsx],
    [frontend/src/components/Header.jsx] and
    [frontend/src/components/StatsBar.jsx].

    Conventions of the embedding.
    - JavaScript numbers that count things ([bytes], [packets], ports, pids)
      are [N]; clock readings ([Date.now()]) are [Z]; coordinates and screen
      geometry are real numbers [R] (the doubles of the program, idealised:
      no rounding, no NaN; an absent coordinate is [None]).
    - A property that may be [null]/[undefined] is an [option]; objects are
      always truthy, the empty string is falsy.
    - React state updates queued by one callback are applied in the order
      they were queued, so a callback is a function from state to state.
    - [Date.now()] and [Math.random()] are inputs of the callbacks. *)

From Stdlib Require Import ZArith NArith Reals Lra Lia String List Permutation Sorted DecimalString.
From stdpp Require Import base gmap list strings sorting.

Local Open Scope string_scope.
Local Open Scope list_scope.

(** ** Constants ([App.jsx], lines 10-13) *)

Definition MAX_CONNECTIONS : nat := 1000.
Definition MAX_PACKET_EVENTS : nat := 300.
Definition BATCH_INTERVAL_MS : Z := 50.
Definition PACKET_EVENT_TTL_MS : Z := 2000.

(** ** Data model *)

Record GeoPoint := mkGeo {
  lat : option R;
  lon : option R;
  city : option string;
  country : option string;
  org : option string;
  unknown : bool;
  isHome : bool;
  pending : bool
}.

Record Connection := mkConn {
  conn_id : string;
  src_ip : string;
  dst_ip : string;
  src_port : option N;
  dst_port : option N;
  src_geo : option GeoPoint;
  dst_geo : option GeoPoint;
  protocol : option string;
  process : option string;
  pid : option N;
  bytes : N;
  packets : N;
  timestamp : option Z;
  lastActive : Z
}.

Record PacketEvent := mkPacketEvent {
  pe_id : string;
  pe_connKey : string;
  pe_src_ip : string;
  pe_dst_ip : string;
  pe_src_geo : option GeoPoint;
  pe_dst_geo : option GeoPoint;
  pe_timestamp : Z;
  pe_size : N
}.

(** The value stored per pairing key in [pendingConnectionUpdatesRef]. *)
Record Update := mkUpdate {
  u_bytes : N;
  u_packets : N;
  u_lastActive : Z
}.

Record Stats := mkStats {
  st_packets : N;
  st_flows : N;
  st_bytes : N
}.

(** The fields of a [packet] message ([data.*] in [ws.onmessage]). *)
Record PacketData := mkPacketData {
  d_src_ip : string;
  d_dst_ip : string;
  d_src_port : option N;
  d_dst_port : option N;
  d_src_geo : option GeoPoint;
  d_dst_geo : option GeoPoint;
  d_protocol : option string;
  d_process : option string;
  d_pid : option N;
  d_length : option N;
  d_new_flow : bool;
  d_timestamp : option Z
}.

Inductive RecordingStatus := RecRecording | RecStopped | RecOtherStatus.

(** A parsed message, by its [type] field. *)
Inductive Message :=
  | MsgError
  | MsgSession
  | MsgRecordingStatus (status : RecordingStatus) (has_error : bool)
  | MsgGeoUpdate (ip : string) (geo : option GeoPoint)
  | MsgProcessUpdate (m_src_ip m_dst_ip : string) (m_process : option string) (m_pid : option N)
  | MsgPacket (d : PacketData)
  | MsgOther.

(** What [JSON.parse(event.data)] does with the text of a message: it throws
    a [SyntaxError], or it returns [null], or it returns a value whose
    [type] is read next. *)
Inductive Payload :=
  | NotJSON
  | JSONNull
  | JSONData (m : Message).

Inductive JsError := SyntaxError | TypeError.

Inductive Outcome (A : Type) :=
  | Returned (a : A)
  | Thrown (e : JsError).
Arguments Returned {A} a.
Arguments Thrown {A} e.

Inductive GroupMode := LocationMode | AppMode.

(** The state of [App]: React state first, then the batching refs. *)
Record State := mkState {
  connections : list Connection;
  packetEvents : list PacketEvent;
  stats : Stats;
  selectedConnectionId : option string;
  selectedArcGroupKey : option string;
  capturing : bool;
  isRecording : bool;
  homeLocation : option GeoPoint;
  groupMode : GroupMode;
  pendingPacketEventsRef : list PacketEvent;
  pendingNewConnectionsRef : list Connection;
  pendingConnectionUpdatesRef : gmap string Update;
  pendingStatsRef : Stats
}.

Definition zeroStats : Stats := mkStats 0 0 0.

Definition initialState : State :=
  mkState [] [] zeroStats None None false false None LocationMode
          [] [] ∅ zeroStats.

(** ** JavaScript helpers *)

(** [a || b] on values that are objects or absent. *)
Definition orElse {A} (a b : option A) : option A :=
  match a with Some _ => a | None => b end.

(** Truthiness of an object-or-absent value. *)
Definition present {A} (a : option A) : bool :=
  match a with Some _ => true | None => false end.

(** [s || null] on a string: the empty string is falsy. *)
Definition nonEmpty (s : string) : option string :=
  if decide (s = "") then None else Some s.

(** [data.length || 0]. *)
Definition lengthOr0 (l : option N) : N := default 0%N l.

(** Decimal rendering of an integer, as in a template literal. *)
Definition showZ (z : Z) : string := NilZero.string_of_int (Z.to_int z).

(** [[a, b].sort().join('-')]: the default sort compares strings by code
    unit and leaves equal elements in place. *)
Definition pairKey (a b : string) : string :=
  if String.ltb b a then b +:+ "-" +:+ a else a +:+ "-" +:+ b.

Definition connKeyOf (c : Connection) : string := pairKey (src_ip c) (dst_ip c).

(** [array.slice(-n)]: the last [n] elements. *)
Definition lastn {A} (n : nat) (l : list A) : list A := drop (length l - n) l.

(** ** The connection store *)

(** [{ ...conn, bytes: conn.bytes + update.bytes,
       packets: conn.packets + update.packets, lastActive: update.lastActive }] *)
Definition bump (u : Update) (c : Connection) : Connection :=
  mkConn (conn_id c) (src_ip c) (dst_ip c) (src_port c) (dst_port c)
         (src_geo c) (dst_geo c) (protocol c) (process c) (pid c)
         (bytes c + u_bytes u) (packets c + u_packets u)
         (timestamp c) (u_lastActive u).

Definition set_dst_geo (g : GeoPoint) (c : Connection) : Connection :=
  mkConn (conn_id c) (src_ip c) (dst_ip c) (src_port c) (dst_port c)
         (src_geo c) (Some g) (protocol c) (process c) (pid c)
         (bytes c) (packets c) (timestamp c) (lastActive c).

Definition set_src_geo (g : GeoPoint) (c : Connection) : Connection :=
  mkConn (conn_id c) (src_ip c) (dst_ip c) (src_port c) (dst_port c)
         (Some g) (dst_geo c) (protocol c) (process c) (pid c)
         (bytes c) (packets c) (timestamp c) (lastActive c).

Definition set_process (p : option string) (i : option N) (c : Connection) : Connection :=
  mkConn (conn_id c) (src_ip c) (dst_ip c) (src_port c) (dst_port c)
         (src_geo c) (dst_geo c) (protocol c) p i
         (bytes c) (packets c) (timestamp c) (lastActive c).

(** [geo?.unknown] *)
Definition isUnknown (g : option GeoPoint) : bool :=
  match g with Some g => unknown g | None => false end.

(** [!conn.process] *)
Definition noProcess (c : Connection) : bool :=
  match process c with
  | None => true
  | Some s => bool_decide (s = "")
  end.

(** [updated.sort((a, b) => (b.lastActive || 0) - (a.lastActive || 0))]:
    a stable sort, most recently active first.  ([x || 0] is [x] on a
    number.)  [placeByActivity] moves a record past the records that are
    strictly more recent and no further, which keeps equal records in their
    order. *)
Fixpoint placeByActivity (c : Connection) (l : list Connection) : list Connection :=
  match l with
  | [] => [c]
  | d :: l' =>
      if (lastActive c <? lastActive d)%Z then d :: placeByActivity c l'
      else c :: d :: l'
  end.

Definition sortByActivity (l : list Connection) : list Connection :=
  foldr placeByActivity [] l.

(** [insert]: the first updater queued by a flush
    ([[...newConnections, ...prev].slice(0, MAX_CONNECTIONS)]). *)
Definition insertConnections (newConnections prev : list Connection) : list Connection :=
  take MAX_CONNECTIONS (newConnections ++ prev).

(** [applyDelta]: the second updater queued by a flush. *)
Definition applyUpdate (connectionUpdates : gmap string Update) (conn : Connection) : Connection :=
  match connectionUpdates !! connKeyOf conn with
  | Some update => bump update conn
  | None => conn
  end.

Definition applyConnectionUpdates (connectionUpdates : gmap string Update)
    (prev : list Connection) : list Connection :=
  sortByActivity (map (applyUpdate connectionUpdates) prev).

(** [patchGeo]: the updater of a [geo_update] message. *)
Definition patchGeo (ip : string) (geo : GeoPoint) (conn : Connection) : Connection :=
  let updated :=
    if bool_decide (dst_ip conn = ip) && isUnknown (dst_geo conn)
    then set_dst_geo geo conn else conn in
  if bool_decide (src_ip conn = ip) && isUnknown (src_geo conn)
  then set_src_geo geo updated else updated.

(** The updater of [lookupIP]: at most one end is replaced. *)
Definition patchLookup (ip : string) (data : GeoPoint) (conn : Connection) : Connection :=
  if bool_decide (dst_ip conn = ip) && isUnknown (dst_geo conn)
  then set_dst_geo data conn
  else if bool_decide (src_ip conn = ip) && isUnknown (src_geo conn)
  then set_src_geo data conn
  else conn.

(** [patchProcess]: the updater of a [process_update] message. *)
Definition patchProcess (src dst : string) (p : option string) (i : option N)
    (conn : Connection) : Connection :=
  if (bool_decide (src_ip conn = src) && bool_decide (dst_ip conn = dst))
     || (bool_decide (src_ip conn = dst) && bool_decide (dst_ip conn = src))
  then (if noProcess conn then set_process p i conn else conn)
  else conn.

(** ** Arc groups (the record built by [arcGroups] and [appGroups]) *)

Record ArcGroup := mkArcGroup {
  key : string;
  srcGeo : option GeoPoint;
  dstGeo : option GeoPoint;
  groupProcess : option string;
  groupConnections : list Connection;
  totalBytes : N;
  totalPackets : N
}.

(** ** State updates *)

Definition setConnections (f : list Connection → list Connection) (s : State) : State :=
  mkState (f (connections s)) (packetEvents s) (stats s)
          (selectedConnectionId s) (selectedArcGroupKey s) (capturing s) (isRecording s)
          (homeLocation s) (groupMode s)
          (pendingPacketEventsRef s) (pendingNewConnectionsRef s)
          (pendingConnectionUpdatesRef s) (pendingStatsRef s).

Definition setPacketEvents (f : list PacketEvent → list PacketEvent) (s : State) : State :=
  mkState (connections s) (f (packetEvents s)) (stats s)
          (selectedConnectionId s) (selectedArcGroupKey s) (capturing s) (isRecording s)
          (homeLocation s) (groupMode s)
          (pendingPacketEventsRef s) (pendingNewConnectionsRef s)
          (pendingConnectionUpdatesRef s) (pendingStatsRef s).

Definition setStats (f : Stats → Stats) (s : State) : State :=
  mkState (connections s) (packetEvents s) (f (stats s))
          (selectedConnectionId s) (selectedArcGroupKey s) (capturing s) (isRecording s)
          (homeLocation s) (groupMode s)
          (pendingPacketEventsRef s) (pendingNewConnectionsRef s)
          (pendingConnectionUpdatesRef s) (pendingStatsRef s).

Definition setSelectedConnectionId (i : option string) (s : State) : State :=
  mkState (connections s) (packetEvents s) (stats s)
          i (selectedArcGroupKey s) (capturing s) (isRecording s)
          (homeLocation s) (groupMode s)
          (pendingPacketEventsRef s) (pendingNewConnectionsRef s)
          (pendingConnectionUpdatesRef s) (pendingStatsRef s).

Definition setSelectedArcGroupKey (k : option string) (s : State) : State :=
  mkState (connections s) (packetEvents s) (stats s)
          (selectedConnectionId s) k (capturing s) (isRecording s)
          (homeLocation s) (groupMode s)
          (pendingPacketEventsRef s) (pendingNewConnectionsRef s)
          (pendingConnectionUpdatesRef s) (pendingStatsRef s).

Definition setCapturing (b : bool) (s : State) : State :=
  mkState (connections s) (packetEvents s) (stats s)
          (selectedConnectionId s) (selectedArcGroupKey s) b (isRecording s)
          (homeLocation s) (groupMode s)
          (pendingPacketEventsRef s) (pendingNewConnectionsRef s)
          (pendingConnectionUpdatesRef s) (pendingStatsRef s).

Definition setIsRecording (b : bool) (s : State) : State :=
  mkState (connections s) (packetEvents s) (stats s)
          (selectedConnectionId s) (selectedArcGroupKey s) (capturing s) b
          (homeLocation s) (groupMode s)
          (pendingPacketEventsRef s) (pendingNewConnectionsRef s)
          (pendingConnectionUpdatesRef s) (pendingStatsRef s).

Definition setHomeLocation (h : option GeoPoint) (s : State) : State :=
  mkState (connections s) (packetEvents s) (stats s)
          (selectedConnectionId s) (selectedArcGroupKey s) (capturing s) (isRecording s)
          h (groupMode s)
          (pendingPacketEventsRef s) (pendingNewConnectionsRef s)
          (pendingConnectionUpdatesRef s) (pendingStatsRef s).

Definition setGroupMode (m : GroupMode) (s : State) : State :=
  mkState (connections s) (packetEvents s) (stats s)
          (selectedConnectionId s) (selectedArcGroupKey s) (capturing s) (isRecording s)
          (homeLocation s) m
          (pendingPacketEventsRef s) (pendingNewConnectionsRef s)
          (pendingConnectionUpdatesRef s) (pendingStatsRef s).

(** Assignment to the four batching refs at once. *)
Definition setPending (pe : list PacketEvent) (nc : list Connection)
    (cu : gmap string Update) (ps : Stats) (s : State) : State :=
  mkState (connections s) (packetEvents s) (stats s)
          (selectedConnectionId s) (selectedArcGroupKey s) (capturing s) (isRecording s)
          (homeLocation s) (groupMode s) pe nc cu ps.

(** ** Ingestion: [ws.onmessage] ([App.jsx], lines 350-474) *)

Definition hasGeo (data : PacketData) : bool :=
  present (d_src_geo data) || present (d_dst_geo data).

Definition addStats (a b : Stats) : Stats :=
  mkStats (st_packets a + st_packets b) (st_flows a + st_flows b) (st_bytes a + st_bytes b).

(** The increment of [pendingStatsRef] for one packet. *)
Definition packetStats (data : PacketData) : Stats :=
  mkStats 1 (if d_new_flow data then 1 else 0) (lengthOr0 (d_length data)).

(** The object pushed on [pendingPacketEventsRef]; [rnd] is the rendering of
    [Math.random()]. *)
Definition packetEventOf (now : Z) (rnd : string) (data : PacketData) : PacketEvent :=
  let connKey := pairKey (d_src_ip data) (d_dst_ip data) in
  mkPacketEvent (connKey +:+ "-" +:+ showZ now +:+ "-" +:+ rnd) connKey
                (d_src_ip data) (d_dst_ip data) (d_src_geo data) (d_dst_geo data)
                now (lengthOr0 (d_length data)).

(** The object pushed on [pendingNewConnectionsRef]. *)
Definition connectionOf (now : Z) (data : PacketData) : Connection :=
  mkConn (d_src_ip data +:+ "-" +:+ d_dst_ip data +:+ "-" +:+ showZ now)
         (d_src_ip data) (d_dst_ip data) (d_src_port data) (d_dst_port data)
         (d_src_geo data) (d_dst_geo data) (d_protocol data)
         (d_process data) (d_pid data)
         (lengthOr0 (d_length data)) 1 (d_timestamp data) now.

(** Coalescing into [pendingConnectionUpdatesRef] (lines 459-471). *)
Definition accumulate (now : Z) (data : PacketData) (m : gmap string Update)
    : gmap string Update :=
  let k := pairKey (d_src_ip data) (d_dst_ip data) in
  match m !! k with
  | Some existing =>
      <[k := mkUpdate (u_bytes existing + lengthOr0 (d_length data))
                      (u_packets existing + 1) now]> m
  | None => <[k := mkUpdate (lengthOr0 (d_length data)) 1 now]> m
  end.

(** The [packet] branch. *)
Definition onPacket (now : Z) (rnd : string) (data : PacketData) (s : State) : State :=
  let ps := addStats (pendingStatsRef s) (packetStats data) in
  let pe := if hasGeo data
            then pendingPacketEventsRef s ++ [packetEventOf now rnd data]
            else pendingPacketEventsRef s in
  if d_new_flow data && hasGeo data
  then setPending pe (pendingNewConnectionsRef s ++ [connectionOf now data])
                  (pendingConnectionUpdatesRef s) ps s
  else if hasGeo data
  then setPending pe (pendingNewConnectionsRef s)
                  (accumulate now data (pendingConnectionUpdatesRef s)) ps s
  else setPending pe (pendingNewConnectionsRef s) (pendingConnectionUpdatesRef s) ps s.

(** The whole handler.  [JSON.parse] is not guarded, [data.type] is read
    from whatever it returns, and the [geo_update] branch reads [geo.city]
    before it queues its update. *)
Definition onmessage (now : Z) (rnd : string) (p : Payload) (s : State) : Outcome State :=
  match p with
  | NotJSON => Thrown SyntaxError
  | JSONNull => Thrown TypeError
  | JSONData MsgError => Returned (setCapturing false s)
  | JSONData MsgSession => Returned s
  | JSONData (MsgRecordingStatus RecRecording _) => Returned (setIsRecording true s)
  | JSONData (MsgRecordingStatus RecStopped _) => Returned (setIsRecording false s)
  | JSONData (MsgRecordingStatus RecOtherStatus has_error) =>
      Returned (if has_error then setIsRecording false s else s)
  | JSONData (MsgGeoUpdate ip None) => Thrown TypeError
  | JSONData (MsgGeoUpdate ip (Some geo)) =>
      Returned (setConnections (map (patchGeo ip geo)) s)
  | JSONData (MsgProcessUpdate src dst p i) =>
      Returned (setConnections (map (patchProcess src dst p i)) s)
  | JSONData (MsgPacket data) => Returned (onPacket now rnd data s)
  | JSONData MsgOther => Returned s
  end.

(** [Payload] and [PacketData] give every field the type that the capture
    service writes.  [JSON.parse] also returns objects with fields of other
    types, and one kind of them makes the [packet] branch throw: a packet
    one of whose addresses is an object that cannot be converted to a
    string, as [src_ip] in
    [{"type":"packet","src_ip":{"toString":1},"src_geo":{},"length":60}].
    Of such a packet the handler reads [new_flow] and [length] (lines
    420-422) and whether it has a geo (line 425) before
    [[data.src_ip, data.dst_ip].sort()] throws a [TypeError] (line 426). *)
Record OddPacket := mkOddPacket {
  odd_new_flow : bool;
  odd_length : option N;
  odd_has_geo : bool
}.

(** What the socket delivers. *)
Inductive Delivery :=
  | Delivered (p : Payload)
  | DeliveredOdd (o : OddPacket).

(** The handler with the state that it leaves behind, also when it throws.
    The refs are changed in place, so what was done to them before a throw
    stays done. *)
Definition handleMessage (now : Z) (rnd : string) (x : Delivery) (s : State)
    : State * option JsError :=
  match x with
  | Delivered p =>
      match onmessage now rnd p s with
      | Returned s' => (s', None)
      | Thrown e => (s, Some e)
      end
  | DeliveredOdd o =>
      let counted :=
        setPending (pendingPacketEventsRef s) (pendingNewConnectionsRef s)
                   (pendingConnectionUpdatesRef s)
                   (addStats (pendingStatsRef s)
                             (mkStats 1 (if odd_new_flow o then 1 else 0)
                                      (lengthOr0 (odd_length o))))
                   s in
      if odd_has_geo o then (counted, Some TypeError) else (counted, None)
  end.

(** ** The periodic flush: [flushBatchedUpdates] ([App.jsx], lines 255-321) *)

Definition fresh (cutoff : Z) (e : PacketEvent) : bool := (cutoff <? pe_timestamp e)%Z.

Definition flushPacketEvents (cutoff : Z) (newPacketEvents prev : list PacketEvent)
    : list PacketEvent :=
  let filtered := List.filter (fresh cutoff) prev in
  if (0 <? length newPacketEvents)%nat
  then lastn MAX_PACKET_EVENTS (filtered ++ newPacketEvents)
  else if negb (length filtered =? length prev)%nat then filtered else prev.

Definition flushConnections (newConnections : list Connection)
    (connectionUpdates : gmap string Update) (prev : list Connection) : list Connection :=
  let inserted :=
    if (0 <? length newConnections)%nat
    then insertConnections newConnections prev else prev in
  if (0 <? size connectionUpdates)%nat
  then applyConnectionUpdates connectionUpdates inserted else inserted.

Definition anyStats (u : Stats) : bool :=
  (0 <? st_packets u)%N || (0 <? st_flows u)%N || (0 <? st_bytes u)%N.

Definition flushStats (statsUpdate prev : Stats) : Stats :=
  if anyStats statsUpdate then addStats prev statsUpdate else prev.

Definition flushBatchedUpdates (now : Z) (s : State) : State :=
  let cutoff := (now - PACKET_EVENT_TTL_MS)%Z in
  let newPacketEvents := pendingPacketEventsRef s in
  let newConnections := pendingNewConnectionsRef s in
  let connectionUpdates := pendingConnectionUpdatesRef s in
  let statsUpdate := pendingStatsRef s in
  let cleared :=
    setPending (if (0 <? length newPacketEvents)%nat then [] else newPacketEvents)
               (if (0 <? length newConnections)%nat then [] else newConnections)
               (if (0 <? size connectionUpdates)%nat then ∅ else connectionUpdates)
               (if anyStats statsUpdate then zeroStats else statsUpdate) s in
  setStats (flushStats statsUpdate)
    (setConnections (flushConnections newConnections connectionUpdates)
      (setPacketEvents (flushPacketEvents cutoff newPacketEvents) cleared)).

(** ** Selection and the remaining callbacks of [App] *)

(** [conn?.id || null] *)
Definition handleSelectConnection (conn : option Connection) (s : State) : State :=
  setSelectedConnectionId (conn ≫= λ c, nonEmpty (conn_id c)) s.

(** [group?.key || null], then the connection selection is cleared. *)
Definition handleSelectArcGroup (group : option ArcGroup) (s : State) : State :=
  setSelectedConnectionId None
    (setSelectedArcGroupKey (group ≫= λ g, nonEmpty (key g)) s).

Definition clearArcFilter (s : State) : State := setSelectedArcGroupKey None s.

(** [onSetGroupMode] of the connections table. *)
Definition onSetGroupMode (m : GroupMode) (s : State) : State :=
  setSelectedArcGroupKey None (setGroupMode m s).

Definition clearConnections (s : State) : State :=
  setSelectedArcGroupKey None
    (setSelectedConnectionId None
      (setStats (λ _, zeroStats) (setConnections (λ _, []) s))).

(** The state reset of [startCapture]; the batching refs are not touched. *)
Definition startCapture (s : State) : State :=
  setSelectedArcGroupKey None
    (setSelectedConnectionId None
      (setStats (λ _, zeroStats)
        (setPacketEvents (λ _, []) (setConnections (λ _, []) s)))).

Definition stopCapture (s : State) : State := setIsRecording false (setCapturing false s).

(** A number is truthy when it is present and not zero. *)
Definition truthyNum (x : option R) : bool :=
  match x with
  | Some r => if Req_dec_T r 0 then false else true
  | None => false
  end.

(** The state update of [lookupIP] once the lookup has answered [data]. *)
Definition lookupIP (ip : string) (data : GeoPoint) (has_error : bool) (s : State) : State :=
  if truthyNum (lat data) && truthyNum (lon data) && negb has_error
  then setConnections (map (patchLookup ip data)) s
  else s.

(** ** The callbacks as one transition system *)

Inductive Action :=
  | Receive (now : Z) (rnd : string) (p : Payload)
  | Flush (now : Z)
  | SelectConnection (conn : option Connection)
  | SelectArcGroup (group : option ArcGroup)
  | ClearArcFilter
  | SetGroupMode (m : GroupMode)
  | ClearConnections
  | StartCapture
  | StopCapture
  | LookupAnswered (ip : string) (data : GeoPoint) (has_error : bool)
  | SetHomeLocation (h : option GeoPoint).

(** A handler that throws has queued no update at the point where it throws,
    so the state is the one before the message. *)
Definition step (a : Action) (s : State) : State :=
  match a with
  | Receive now rnd p =>
      match onmessage now rnd p s with
      | Returned s' => s'
      | Thrown _ => s
      end
  | Flush now => flushBatchedUpdates now s
  | SelectConnection conn => handleSelectConnection conn s
  | SelectArcGroup group => handleSelectArcGroup group s
  | ClearArcFilter => clearArcFilter s
  | SetGroupMode m => onSetGroupMode m s
  | ClearConnections => clearConnections s
  | StartCapture => startCapture s
  | StopCapture => stopCapture s
  | LookupAnswered ip data e => lookupIP ip data e s
  | SetHomeLocation h => setHomeLocation h s
  end.

(** Actions are applied left to right. *)
Definition run (tr : list Action) (s : State) : State :=
  fold_left (λ s a, step a s) tr s.

Inductive reachable : State → Prop :=
  | reach_init : reachable initialState
  | reach_step a s : reachable s → reachable (step a s).

(** ** Arc aggregation: [arcGroups] and [appGroups] ([App.jsx], lines 59-134) *)

(** Sequencing of computations that may throw. *)
#[global] Instance outcome_bind : MBind Outcome := λ A B f m,
  match m with
  | Returned a => f a
  | Thrown e => Thrown e
  end.

#[global] Instance outcome_fmap : FMap Outcome := λ A B f m,
  match m with
  | Returned a => Returned (f a)
  | Thrown e => Thrown e
  end.

Section Aggregation.

(** [x.toFixed(1)], the platform's rendering of a number with one
    decimal. *)
Variable toFixed : R → string.

(** [`${geo.lat.toFixed(1)},${geo.lon.toFixed(1)}`]: calling [toFixed] on
    an absent coordinate is a [TypeError]. *)
Definition coordKey (geo : GeoPoint) : Outcome string :=
  match lat geo with
  | None => Thrown TypeError
  | Some la =>
      match lon geo with
      | None => Thrown TypeError
      | Some lo => Returned (toFixed la +:+ "," +:+ toFixed lo)
      end
  end.

(** The [Map] of groups keeps its entries in the order in which their keys
    were first set, and [Array.from(groups.values())] returns them in that
    order: a list of groups with distinct keys. *)
Definition hasGroup (k : string) (groups : list ArcGroup) : bool :=
  existsb (λ g, bool_decide (key g = k)) groups.

(** [group.connections.push(conn); group.totalBytes += conn.bytes;
     group.totalPackets += conn.packets] *)
Definition addMember (conn : Connection) (g : ArcGroup) : ArcGroup :=
  mkArcGroup (key g) (srcGeo g) (dstGeo g) (groupProcess g)
             (groupConnections g ++ [conn])
             (totalBytes g + bytes conn) (totalPackets g + packets conn).

(** [groups.get(key)] followed by the three updates of the entry. *)
Fixpoint addToGroup (k : string) (conn : Connection) (groups : list ArcGroup)
    : list ArcGroup :=
  match groups with
  | [] => []
  | g :: gs =>
      if bool_decide (key g = k) then addMember conn g :: gs
      else g :: addToGroup k conn gs
  end.

(** [if (!groups.has(key)) groups.set(key, fresh)], then the update. *)
Definition record (freshGroup : ArcGroup) (conn : Connection)
    (groups : list ArcGroup) : list ArcGroup :=
  addToGroup (key freshGroup) conn
    (if hasGroup (key freshGroup) groups then groups else groups ++ [freshGroup]).

(** The three early returns of the callback (lines 66-68), on the
    effective geo of both ends. *)
Definition skipped (srcGeo dstGeo : option GeoPoint) : bool :=
  match srcGeo, dstGeo with
  | Some s, Some d =>
      (pending s || pending d) || (negb (present (lat s)) || negb (present (lat d)))
  | _, _ => true
  end.

(** One iteration of the [forEach] of [arcGroups]. *)
Definition arcGroupsStep (homeLocation : option GeoPoint)
    (groups : list ArcGroup) (conn : Connection) : Outcome (list ArcGroup) :=
  let srcGeo := orElse (src_geo conn) homeLocation in
  let dstGeo := orElse (dst_geo conn) homeLocation in
  match srcGeo, dstGeo with
  | Some s, Some d =>
      if skipped srcGeo dstGeo then Returned groups
      else
        srcKey ← coordKey s ;
        dstKey ← coordKey d ;
        let k := pairKey srcKey dstKey in
        Returned (record (mkArcGroup k srcGeo dstGeo None [] 0 0) conn groups)
  | _, _ => Returned groups
  end.

(** [conn.process || 'Unknown'] *)
Definition processNameOf (conn : Connection) : string :=
  match process conn with
  | Some p => if decide (p = "") then "Unknown" else p
  | None => "Unknown"
  end.

(** One iteration of the [forEach] of [appGroups]. *)
Definition appGroupsStep (homeLocation : option GeoPoint)
    (groups : list ArcGroup) (conn : Connection) : Outcome (list ArcGroup) :=
  let srcGeo := orElse (src_geo conn) homeLocation in
  let dstGeo := orElse (dst_geo conn) homeLocation in
  match srcGeo, dstGeo with
  | Some s, Some d =>
      if skipped srcGeo dstGeo then Returned groups
      else
        let processName := processNameOf conn in
        dstKey ← coordKey d ;
        let k := processName +:+ "-" +:+ dstKey in
        Returned (record (mkArcGroup k srcGeo dstGeo (Some processName) [] 0 0)
                         conn groups)
  | _, _ => Returned groups
  end.

(** [forEach] with a callback that may throw. *)
Fixpoint forEach {A S} (f : S → A → Outcome S) (l : list A) (acc : S) : Outcome S :=
  match l with
  | [] => Returned acc
  | a :: l' => acc' ← f acc a ; forEach f l' acc'
  end.

Definition arcGroups (connections : list Connection) (homeLocation : option GeoPoint)
    : Outcome (list ArcGroup) :=
  forEach (arcGroupsStep homeLocation) connections [].

Definition appGroups (connections : list Connection) (homeLocation : option GeoPoint)
    : Outcome (list ArcGroup) :=
  forEach (appGroupsStep homeLocation) connections [].

Definition activeArcGroups (mode : GroupMode) (connections : list Connection)
    (homeLocation : option GeoPoint) : Outcome (list ArcGroup) :=
  match mode with
  | LocationMode => arcGroups connections homeLocation
  | AppMode => appGroups connections homeLocation
  end.

End Aggregation.

(** The connection with its two ends exchanged. *)
Definition swapEnds (c : Connection) : Connection :=
  mkConn (conn_id c) (dst_ip c) (src_ip c) (src_port c) (dst_port c)
         (dst_geo c) (src_geo c) (protocol c) (process c) (pid c)
         (bytes c) (packets c) (timestamp c) (lastActive c).

(** What the symmetry of the aggregation is about: key, sums and size. *)
Definition summary (g : ArcGroup) : string * N * N * nat :=
  (key g, totalBytes g, totalPackets g, length (groupConnections g)).

(** The geo that the derivations use for an end: its own, or the home
    location. *)
Definition effectiveSrc (home : option GeoPoint) (c : Connection) : option GeoPoint :=
  orElse (src_geo c) home.

Definition effectiveDst (home : option GeoPoint) (c : Connection) : option GeoPoint :=
  orElse (dst_geo c) home.

(** ** Planar projection and hit-testing ([WorldMap.jsx]) *)

Local Open Scope R_scope.

Record Point := mkPoint { px : R; py : R }.

Definition ltR (a b : R) : bool := if Rlt_dec a b then true else false.
Definition leR (a b : R) : bool := if Rle_dec a b then true else false.

(** [toXY] (lines 145-153). *)
Definition toXY (lat lon w h z : R) (p : Point) : Point :=
  let baseX := (lon + 180) / 360 * w in
  let baseY := (90 - lat) / 180 * h in
  let centerX := w / 2 in
  let centerY := h / 2 in
  mkPoint ((baseX - centerX) * z + centerX + px p)
          ((baseY - centerY) * z + centerY + py p).

(** [toXY(geo.lat, geo.lon, ...)]: with an absent coordinate the position
    is NaN, and every comparison of a distance to it is false; [None] stands
    for such a position. *)
Definition toXYgeo (geo : GeoPoint) (w h z : R) (p : Point) : option Point :=
  match lat geo, lon geo with
  | Some la, Some lo => Some (toXY la lo w h z p)
  | _, _ => None
  end.

(** [Math.sqrt((mouseX - q.x) ** 2 + (mouseY - q.y) ** 2)] *)
Definition distTo (mouseX mouseY : R) (q : Point) : R :=
  sqrt ((mouseX - px q) ^ 2 + (mouseY - py q) ^ 2).

Definition baseHitRadius : R := 18.
Definition hitRadius (currentZoom : R) : R := baseHitRadius * Rmax 1 (currentZoom * 0.5).
Definition nodeHitRadius (currentZoom : R) : R := 24 * Rmax 1 (currentZoom * 0.5).

(** [Math.min(100, Math.max(20, Math.floor(screenDist / 10)))] *)
Definition numSamples (screenDist : R) : nat :=
  Z.to_nat (Z.min 100 (Z.max 20 (Int_part (screenDist / 10)))).

(** The values of [t] visited by [for (let t = 0; t <= 1; t += step)].
    The step is at least 1/100, so 102 rounds of fuel are never used up
    ([loopParams_fuel] below). *)
Fixpoint loopParams (fuel : nat) (t step : R) : list R :=
  match fuel with
  | O => []
  | S fuel' => if Rle_dec t 1 then t :: loopParams fuel' (t + step) step else []
  end.

(** The point of the quadratic curve at [t] (lines 191-193). *)
Definition arcPoint (src dst : Point) (midX midY t : R) : Point :=
  let mt := 1 - t in
  mkPoint (mt * mt * px src + 2 * mt * t * midX + t * t * px dst)
          (mt * mt * py src + 2 * mt * t * midY + t * t * py dst).

(** The sampled points of the arc between two render positions
    (lines 182-193). *)
Definition arcSamples (src dst : Point) : list Point :=
  let midX := (px src + px dst) / 2 in
  let screenDist := sqrt ((px dst - px src) ^ 2 + (py dst - py src) ^ 2) in
  let midY := Rmin (py src) (py dst) - screenDist * 0.15 - 15 in
  let step := 1 / INR (numSamples screenDist) in
  map (arcPoint src dst midX midY) (loopParams 102 0 step).

Definition nodeHit (mouseX mouseY currentZoom : R) (q : option Point) : bool :=
  match q with
  | Some q => ltR (distTo mouseX mouseY q) (nodeHitRadius currentZoom)
  | None => false
  end.

Definition arcHit (mouseX mouseY currentZoom : R) (src dst : option Point) : bool :=
  match src, dst with
  | Some s, Some d =>
      existsb (λ q, ltR (distTo mouseX mouseY q) (hitRadius currentZoom)) (arcSamples s d)
  | _, _ => false
  end.

(** The body of the loop over the groups: does this group answer the
    pointer? *)
Definition groupHit (mouseX mouseY w h currentZoom : R) (currentPan : Point)
    (group : ArcGroup) : bool :=
  match srcGeo group, dstGeo group with
  | Some sg, Some dg =>
      let src := toXYgeo sg w h currentZoom currentPan in
      let dst := toXYgeo dg w h currentZoom currentPan in
      (nodeHit mouseX mouseY currentZoom src || nodeHit mouseX mouseY currentZoom dst)
      || arcHit mouseX mouseY currentZoom src dst
  | _, _ => false
  end.

(** [hitTest] (lines 162-199): the first group that answers, or [null]. *)
Definition hitTest (mouseX mouseY w h currentZoom : R) (currentPan : Point)
    (currentArcGroups : list ArcGroup) : option ArcGroup :=
  List.find (groupHit mouseX mouseY w h currentZoom currentPan) currentArcGroups.

(** [handleClick] repeats the search of [hitTest] and hands its result to
    [onSelectArcGroup], unless the pointer was dragged. *)
Definition handleClick (dragDist clickX clickY w h currentZoom : R) (currentPan : Point)
    (currentArcGroups : list ArcGroup) (s : State) : State :=
  if ltR 5 dragDist then s
  else handleSelectArcGroup
         (hitTest clickX clickY w h currentZoom currentPan currentArcGroups) s.

(** ** Curves on the sphere ([Globe.jsx], lines 5-57) *)

Record Vector3 := mkVector3 { vx : R; vy : R; vz : R }.

Definition multiplyScalar (k : R) (v : Vector3) : Vector3 :=
  mkVector3 (vx v * k) (vy v * k) (vz v * k).

Definition dot (a b : Vector3) : R := vx a * vx b + vy a * vy b + vz a * vz b.
Definition lengthSq (v : Vector3) : R := dot v v.
Definition vlength (v : Vector3) : R := sqrt (lengthSq v).

(** three.js: [divideScalar(this.length() || 1)]. *)
Definition normalize (v : Vector3) : Vector3 :=
  let l := vlength v in
  multiplyScalar (1 / (if Req_dec_T l 0 then 1 else l)) v.

Definition clamp (x lo hi : R) : R := Rmax lo (Rmin hi x).

(** three.js: the angle is [Math.PI / 2] when a vector has length zero, and
    the arc cosine of the clamped quotient otherwise. *)
Definition angleTo (a b : Vector3) : R :=
  let denominator := sqrt (lengthSq a * lengthSq b) in
  if Req_dec_T denominator 0 then PI / 2
  else acos (clamp (dot a b / denominator) (-1) 1).

Definition latLonToVector3 (lat lon radius : R) : Vector3 :=
  let phi := (90 - lat) * (PI / 180) in
  let theta := (lon + 180) * (PI / 180) in
  mkVector3 (- radius * sin phi * cos theta)
            (radius * cos phi)
            (radius * sin phi * sin theta).

Inductive Curve :=
  | QuadraticBezierCurve3 (v0 v1 v2 : Vector3)
  | CatmullRomCurve3 (points : list Vector3).

Definition segments : nat := 32.

(** The point pushed in round [i] of the loop (lines 37-54). *)
Definition slerpPoint (start end_ : Vector3) (angle arcHeight : R) (i : nat) : Vector3 :=
  let t := INR i / INR segments in
  let sinAngle := sin angle in
  let a := sin ((1 - t) * angle) / sinAngle in
  let b := sin (t * angle) / sinAngle in
  let point := mkVector3 (a * vx start + b * vx end_)
                         (a * vy start + b * vy end_)
                         (a * vz start + b * vz end_) in
  let lift := 4 * t * (1 - t) * arcHeight in
  multiplyScalar (1.01 + lift) (normalize point).

(** The angle between the two ends, as [createArcCurve] computes it. *)
Definition arcAngle (startLat startLon endLat endLon : R) : R :=
  angleTo (normalize (latLonToVector3 startLat startLon 1))
          (normalize (latLonToVector3 endLat endLon 1)).

Definition createArcCurve (startLat startLon endLat endLon : R) : Curve :=
  let start := normalize (latLonToVector3 startLat startLon 1) in
  let end_ := normalize (latLonToVector3 endLat endLon 1) in
  let angle := angleTo start end_ in
  let arcHeight := 0.1 + (angle / PI) * 0.3 in
  if Rlt_dec angle 0.01 then
    QuadraticBezierCurve3 (multiplyScalar 1.01 start)
                          (multiplyScalar (1.01 + arcHeight) start)
                          (multiplyScalar 1.01 end_)
  else
    CatmullRomCurve3 (map (slerpPoint start end_ angle arcHeight) (seq 0 (S segments))).

Local Close Scope R_scope.

(** ** Derived selection and the table's rows ([App.jsx], lines 50-53 and 136-149) *)

(** [selectedConnection]: nothing without an id, else the first record with
    that id. *)
Definition selectedConnection (s : State) : option Connection :=
  match selectedConnectionId s with
  | None => None
  | Some i =>
      if decide (i = "") then None
      else List.find (λ c, bool_decide (conn_id c = i)) (connections s)
  end.

(** [selectedArcGroup], given the active groups. *)
Definition selectedArcGroup (groups : list ArcGroup) (s : State) : option ArcGroup :=
  match selectedArcGroupKey s with
  | None => None
  | Some k =>
      if decide (k = "") then None
      else List.find (λ g, bool_decide (key g = k)) groups
  end.

(** [filteredConnections]: the rows handed to the table. *)
Definition filteredConnections (groups : list ArcGroup) (s : State) : list Connection :=
  match selectedArcGroup groups s with
  | None => connections s
  | Some g => groupConnections g
  end.

(** ** The planar viewport ([WorldMap.jsx], lines 36-108 and 497-558) *)

Local Open Scope R_scope.

Record Viewport := mkViewport { zoom : R; pan : Point }.

Definition initialViewport : Viewport := mkViewport 1 (mkPoint 0 0).

(** [constrainPan] (lines 53-60). *)
Definition constrainPan (newPan : Point) (z w h : R) : Point :=
  let maxPanX := Rmax 0 ((w * z - w) / 2) in
  let maxPanY := Rmax 0 ((h * z - h) / 2) in
  mkPoint (Rmax (- maxPanX) (Rmin maxPanX (px newPan)))
          (Rmax (- maxPanY) (Rmin maxPanY (py newPan))).

(** The pan that [goHome] asks for at zoom [newZoom], before it is
    constrained (lines 74-83). *)
Definition homePan (lat lon w h newZoom : R) : Point :=
  let baseX := (lon + 180) / 360 * w in
  let baseY := (90 - lat) / 180 * h in
  let centerX := w / 2 in
  let centerY := h / 2 in
  mkPoint (centerX - (baseX - centerX) * newZoom - centerX)
          (centerY - (baseY - centerY) * newZoom - centerY).

(** [goHome] (lines 63-92); [home] is the home location with its
    coordinates, the canvas is mounted with width [w] and height [h]. *)
Definition goHome (home : option (R * R)) (w h : R) (v : Viewport) : Viewport :=
  match home with
  | Some (lat, lon) =>
      let newZoom := 3 in
      mkViewport newZoom (constrainPan (homePan lat lon w h newZoom) newZoom w h)
  | None => mkViewport 1 (mkPoint 0 0)
  end.

(** [zoomIn] and [zoomOut] (lines 95-108). *)
Definition zoomIn (v : Viewport) : Viewport :=
  mkViewport (Rmin 8 (zoom v * 1.5)) (pan v).

Definition zoomOut (w h : R) (v : Viewport) : Viewport :=
  let newZ := Rmax 1 (zoom v / 1.5) in
  mkViewport newZ (constrainPan (pan v) newZ w h).

(** The pan that [handleWheel] asks for, before it is constrained
    (lines 549-554). *)
Definition wheelPan (mouseX mouseY w h zoomRatio : R) (p : Point) : Point :=
  let centerX := w / 2 in
  let centerY := h / 2 in
  mkPoint ((mouseX - centerX) * (1 - zoomRatio) + px p * zoomRatio)
          ((mouseY - centerY) * (1 - zoomRatio) + py p * zoomRatio).

(** The zoom that [handleWheel] moves to (lines 546-547). *)
Definition wheelZoom (deltaY z : R) : R :=
  let delta := if Rlt_dec 0 deltaY then 0.85 else 1.15 in
  Rmax 1 (Rmin 8 (z * delta)).

(** [handleWheel] (lines 537-558). *)
Definition handleWheel (mouseX mouseY deltaY w h : R) (v : Viewport) : Viewport :=
  let newZoom := wheelZoom deltaY (zoom v) in
  let zoomRatio := newZoom / zoom v in
  mkViewport newZoom
             (constrainPan (wheelPan mouseX mouseY w h zoomRatio (pan v)) newZoom w h).

(** The pan update of [handleMouseMove] while dragging (line 519). *)
Definition dragPan (dx dy w h : R) (v : Viewport) : Viewport :=
  mkViewport (zoom v) (constrainPan (mkPoint (px (pan v) + dx) (py (pan v) + dy)) (zoom v) w h).

(** The rectangle in which [draw] paints the map image (lines 251-255):
    left, top, width, height. *)
Definition mapRect (w h : R) (v : Viewport) : R * R * R * R :=
  let mapW := w * zoom v in
  let mapH := h * zoom v in
  ((w - mapW) / 2 + px (pan v), (h - mapH) / 2 + py (pan v), mapW, mapH).

(** The moves of the viewport on a canvas of fixed size. *)
Inductive ViewportAction :=
  | GoHome (home : option (R * R))
  | ZoomIn
  | ZoomOut
  | Wheel (mouseX mouseY deltaY : R)
  | Drag (dx dy : R).

Definition viewportStep (w h : R) (a : ViewportAction) (v : Viewport) : Viewport :=
  match a with
  | GoHome home => goHome home w h v
  | ZoomIn => zoomIn v
  | ZoomOut => zoomOut w h v
  | Wheel mouseX mouseY deltaY => handleWheel mouseX mouseY deltaY w h v
  | Drag dx dy => dragPan dx dy w h v
  end.

Inductive reachableViewport (w h : R) : Viewport → Prop :=
  | reach_initialViewport : reachableViewport w h initialViewport
  | reach_viewportStep a v :
      reachableViewport w h v → reachableViewport w h (viewportStep w h a v).

(** ** Live packet markers on the map ([WorldMap.jsx], lines 155-159 and 413-485) *)

(** [bezierPoint] (lines 156-159). *)
Definition bezierPoint (t p0 p1 p2 : R) : R :=
  let mt := 1 - t in
  mt * mt * p0 + 2 * mt * t * p1 + t * t * p2.

Definition PACKET_DURATION : Z := 800.

(** The geo that a marker uses for one end of its event: the event's own
    when it has both coordinates, else the coordinates of the home location
    (lines 420-429), as a pair of coordinates of which either may be
    absent. *)
Definition markerGeo (raw home : option GeoPoint) : option (option R * option R) :=
  let homeGeo := (λ h, (lat h, lon h)) <$> home in
  match raw with
  | Some g =>
      match lat g, lon g with
      | Some _, Some _ => Some (lat g, lon g)
      | _, _ => homeGeo
      end
  | None => homeGeo
  end.

(** The render position of such an end; [None] stands for a NaN position,
    at which the canvas paints nothing. *)
Definition markerXY (c : option R * option R) (w h z : R) (p : Point) : option Point :=
  match c with
  | (Some la, Some lo) => Some (toXY la lo w h z p)
  | _ => None
  end.

Record Marker := mkMarker {
  markerAt : Point;
  markerOpacity : R;
  markerSize : R
}.

(** The eased parameter of a marker (line 451) and its opacity (line 457). *)
Definition easeOut (progress : R) : R := 1 - (1 - progress) ^ 2.

Definition fadeOut (progress : R) : R :=
  if Rlt_dec progress 0.8 then 1 else 1 - (progress - 0.8) / 0.2.

(** [Math.min(8, Math.max(3, Math.log2(event.size + 1)))] *)
Definition markerBaseSize (size : N) : R :=
  Rmin 8 (Rmax 3 (ln (IZR (Z.of_N size) + 1) / ln 2)).

(** The marker drawn at [src] and [dst] for a given progress
    (lines 445-460). *)
Definition markerOn (src dst : Point) (progress : R) (size : N) : Marker :=
  let midX := (px src + px dst) / 2 in
  let dist := sqrt ((px dst - px src) ^ 2 + (py dst - py src) ^ 2) in
  let midY := Rmin (py src) (py dst) - dist * 0.15 - 15 in
  let t := easeOut progress in
  mkMarker (mkPoint (bezierPoint t (px src) midX (px dst))
                    (bezierPoint t (py src) midY (py dst)))
           (fadeOut progress)
           (markerBaseSize size).

(** The body of the loop over the packet events in live mode
    (lines 418-484): the marker painted for one event at time [now], if
    any. *)
Definition liveMarker (now : Z) (event : PacketEvent) (home : option GeoPoint)
    (w h z : R) (p : Point) : option Marker :=
  match markerGeo (pe_src_geo event) home, markerGeo (pe_dst_geo event) home with
  | Some srcGeo, Some dstGeo =>
      if negb (present (pe_src_geo event)) && negb (present (pe_dst_geo event)) then None
      else
        let age := (now - pe_timestamp event)%Z in
        if (PACKET_DURATION <? age)%Z then None
        else
          let progress := IZR age / IZR PACKET_DURATION in
          match markerXY srcGeo w h z p, markerXY dstGeo w h z p with
          | Some src, Some dst => Some (markerOn src dst progress (pe_size event))
          | _, _ => None
          end
  | _, _ => None
  end.

Local Close Scope R_scope.

(** ** The camera of the globe ([Globe.jsx], lines 103-122 and 200-250, 381-400) *)

Module GlobeControls.

Local Open Scope R_scope.

Record Controls := mkControls {
  isDragging : bool;
  previousX : R;
  previousY : R;
  rotationY : R;
  rotationX : R;
  targetRotationY : R;
  targetRotationX : R;
  zoom : R;
  targetZoom : R;
  dragDist : R
}.

Definition initialControls : Controls :=
  mkControls false 0 0 0 0 0 0 2.8 2.8 0.

Definition onMouseDown (clientX clientY : R) (c : Controls) : Controls :=
  mkControls true clientX clientY (rotationY c) (rotationX c)
             (targetRotationY c) (targetRotationX c) (zoom c) (targetZoom c) 0.

(** [onMouseUp]: the new controls, and whether the release counts as a
    click. *)
Definition onMouseUp (c : Controls) : Controls * bool :=
  (mkControls false (previousX c) (previousY c) (rotationY c) (rotationX c)
              (targetRotationY c) (targetRotationX c) (zoom c) (targetZoom c) (dragDist c),
   isDragging c && ltR (dragDist c) 5).

Definition onMouseMove (clientX clientY : R) (c : Controls) : Controls :=
  if isDragging c then
    let deltaX := clientX - previousX c in
    let deltaY := clientY - previousY c in
    mkControls true clientX clientY (rotationY c) (rotationX c)
               (targetRotationY c + deltaX * 0.005) (targetRotationX c + deltaY * 0.005)
               (zoom c) (targetZoom c) (dragDist c + (Rabs deltaX + Rabs deltaY))
  else c.

Definition onWheel (deltaY : R) (c : Controls) : Controls :=
  mkControls (isDragging c) (previousX c) (previousY c) (rotationY c) (rotationX c)
             (targetRotationY c) (targetRotationX c) (zoom c)
             (Rmax 1.5 (Rmin 6 (targetZoom c + deltaY * 0.002))) (dragDist c).

Definition onMouseLeave (c : Controls) : Controls :=
  mkControls false (previousX c) (previousY c) (rotationY c) (rotationX c)
             (targetRotationY c) (targetRotationX c) (zoom c) (targetZoom c) (dragDist c).

(** [goHome] of the globe; [homeLon] is the longitude of the home
    location. *)
Definition goHome (homeLon : option R) (c : Controls) : Controls :=
  match homeLon with
  | Some lon =>
      mkControls (isDragging c) (previousX c) (previousY c) (rotationY c) (rotationX c)
                 (- (lon * PI / 180)) 0 (zoom c) 2.2 (dragDist c)
  | None =>
      mkControls (isDragging c) (previousX c) (previousY c) (rotationY c) (rotationX c)
                 0 0 (zoom c) 2.8 (dragDist c)
  end.

(** The easing of one frame of [animate] (lines 386-400). *)
Definition animate (c : Controls) : Controls :=
  mkControls (isDragging c) (previousX c) (previousY c)
             (rotationY c + (targetRotationY c - rotationY c) * 0.1)
             (rotationX c + (targetRotationX c - rotationX c) * 0.1)
             (targetRotationY c) (targetRotationX c)
             (zoom c + (targetZoom c - zoom c) * 0.1)
             (targetZoom c) (dragDist c).

Inductive ControlAction :=
  | MouseDown (clientX clientY : R)
  | MouseUp
  | MouseMove (clientX clientY : R)
  | WheelBy (deltaY : R)
  | MouseLeave
  | Home (homeLon : option R)
  | Frame.

Definition controlStep (a : ControlAction) (c : Controls) : Controls :=
  match a with
  | MouseDown x y => onMouseDown x y c
  | MouseUp => (onMouseUp c).1
  | MouseMove x y => onMouseMove x y c
  | WheelBy d => onWheel d c
  | MouseLeave => onMouseLeave c
  | Home lon => goHome lon c
  | Frame => animate c
  end.

Inductive reachableControls : Controls → Prop :=
  | reach_initialControls : reachableControls initialControls
  | reach_controlStep a c : reachableControls c → reachableControls (controlStep a c).

(** [calcOpacity] of the activity mode (lines 474-478). *)
Definition calcOpacity (t : R) : R :=
  if Rlt_dec t 0.1 then t / 0.1
  else if Rlt_dec 0.9 t then (1 - t) / 0.1
  else 1.

End GlobeControls.

(** ** The connections table ([ConnectionsTable.jsx]) *)

(** [toggleAppExpanded] (lines 1107-1117 of the second source file). *)
Definition toggleAppExpanded (appName : string) (prev : gset string) : gset string :=
  if decide (appName ∈ prev) then prev ∖ {[appName]} else prev ∪ {[appName]}.

Record AppGroup := mkAppGroup {
  name : string;
  appConnections : list Connection;
  appTotalBytes : N;
  appTotalPackets : N
}.

Definition hasApp (n : string) (groups : list AppGroup) : bool :=
  existsb (λ g, bool_decide (name g = n)) groups.

Definition addToApp (conn : Connection) (g : AppGroup) : AppGroup :=
  mkAppGroup (name g) (appConnections g ++ [conn])
             (appTotalBytes g + bytes conn) (appTotalPackets g + packets conn).

Fixpoint addToAppGroup (n : string) (conn : Connection) (groups : list AppGroup)
    : list AppGroup :=
  match groups with
  | [] => []
  | g :: gs =>
      if bool_decide (name g = n) then addToApp conn g :: gs
      else g :: addToAppGroup n conn gs
  end.

(** One round of the [forEach] of the table's [appGroups]; the name is
    [conn.process || 'Unknown']. *)
Definition tableGroupsStep (groups : list AppGroup) (conn : Connection) : list AppGroup :=
  let appName :=
    match process conn with
    | Some p => if decide (p = "") then "Unknown" else p
    | None => "Unknown"
    end in
  addToAppGroup appName conn
    (if hasApp appName groups then groups else groups ++ [mkAppGroup appName [] 0 0]).

(** [.sort((a, b) => b.totalBytes - a.totalBytes)]: a stable sort, most
    traffic first. *)
Fixpoint placeByBytes (g : AppGroup) (l : list AppGroup) : list AppGroup :=
  match l with
  | [] => [g]
  | d :: l' =>
      if (appTotalBytes g <? appTotalBytes d)%N then d :: placeByBytes g l'
      else g :: d :: l'
  end.

Definition sortByBytes (l : list AppGroup) : list AppGroup := foldr placeByBytes [] l.

(** The table's [appGroups] (lines 1266-1291). *)
Definition tableAppGroups (mode : GroupMode) (filtered : list Connection) : list AppGroup :=
  match mode with
  | AppMode => sortByBytes (fold_left tableGroupsStep filtered [])
  | LocationMode => []
  end.

(** The rows of the grouped list (lines 1058-1069): a header per group, and
    under it the connections of the group when it is expanded. *)
Inductive Row :=
  | HeaderRow (group : AppGroup)
  | ConnectionRow (conn : Connection) (groupName : string).

Definition flatItems (appGroups : list AppGroup) (expandedApps : gset string) : list Row :=
  concat (map (λ group,
                 HeaderRow group ::
                 (if decide (name group ∈ expandedApps)
                  then map (λ conn, ConnectionRow conn (name group)) (appConnections group)
                  else []))
              appGroups).

(** ** Filtering and sorting the rows (lines 1193-1263 and 1293-1300) *)

Module ConnectionsTable.

Inductive SortDirection := Asc | Desc.

Section Rows.

(** [String.prototype.toLowerCase], [String.prototype.includes] (the
    receiver first) and [String.prototype.localeCompare] depend on the
    Unicode tables and on the locale of the browser. *)
Variable toLowerCase : string → string.
Variable includes : string → string → bool.
Variable localeCompare : string → string → Z.

(** [field?.toLowerCase().includes(searchLower)] *)
Definition textMatches (searchLower : string) (field : option string) : bool :=
  match field with
  | Some v => includes (toLowerCase v) searchLower
  | None => false
  end.

Definition matchesSearch (searchLower : string) (conn : Connection) : bool :=
  textMatches searchLower (Some (src_ip conn))
  || textMatches searchLower (Some (dst_ip conn))
  || textMatches searchLower (process conn)
  || textMatches searchLower (src_geo conn ≫= city)
  || textMatches searchLower (dst_geo conn ≫= city)
  || textMatches searchLower (src_geo conn ≫= country)
  || textMatches searchLower (dst_geo conn ≫= country).

(** [a.dst_geo?.city || a.dst_ip || ''] *)
Definition destinationOf (conn : Connection) : string :=
  match dst_geo conn ≫= city with
  | Some v => if decide (v = "") then dst_ip conn else v
  | None => dst_ip conn
  end.

(** The comparator handed to [result.sort]. *)
Definition compareRows (sortField : string) (sortDirection : SortDirection)
    (a b : Connection) : Z :=
  let numeric (aVal bVal : Z) : Z :=
    match sortDirection with Asc => (aVal - bVal)%Z | Desc => (bVal - aVal)%Z end in
  let textual (aVal bVal : string) : Z :=
    match sortDirection with
    | Asc => localeCompare aVal bVal
    | Desc => localeCompare bVal aVal
    end in
  (if decide (sortField = "timestamp")
   then numeric (default 0%Z (timestamp a)) (default 0%Z (timestamp b))
   else if decide (sortField = "bytes")
   then numeric (Z.of_N (bytes a)) (Z.of_N (bytes b))
   else if decide (sortField = "packets")
   then numeric (Z.of_N (packets a)) (Z.of_N (packets b))
   else if decide (sortField = "protocol")
   then textual (default "" (protocol a)) (default "" (protocol b))
   else if decide (sortField = "process")
   then textual (default "" (process a)) (default "" (process b))
   else if decide (sortField = "destination")
   then textual (destinationOf a) (destinationOf b)
   else 0%Z).

(** [Array.prototype.sort] is stable: a row goes after the rows that the
    comparator puts strictly before it, and before the others. *)
Fixpoint placeRow (cmp : Connection → Connection → Z) (x : Connection)
    (l : list Connection) : list Connection :=
  match l with
  | [] => [x]
  | d :: l' => if (0 <? cmp x d)%Z then d :: placeRow cmp x l' else x :: d :: l'
  end.

Definition sortRows (cmp : Connection → Connection → Z) (l : list Connection)
    : list Connection :=
  foldr (placeRow cmp) [] l.

(** [filteredConnections] of the table. *)
Definition filteredConnections (connections : list Connection)
    (search protocolFilter appFilter sortField : string)
    (sortDirection : SortDirection) : list Connection :=
  let result := connections in
  let result :=
    if decide (search = "") then result
    else List.filter (matchesSearch (toLowerCase search)) result in
  let result :=
    if decide (protocolFilter = "all") then result
    else List.filter (λ conn, bool_decide (protocol conn = Some protocolFilter)) result in
  let result :=
    if decide (appFilter = "all") then result
    else List.filter (λ conn, bool_decide (process conn = Some appFilter)) result in
  sortRows (compareRows sortField sortDirection) result.

End Rows.



End ConnectionsTable.

(** ** The choices of the two filters of the table (lines 1181-1190) *)

(** [new Set(values)]: the values in the order of their first occurrence. *)
Definition setOf (values : list string) : list string :=
  fold_left (λ acc x, if bool_decide (x ∈ acc) then acc else acc ++ [x]) values [].

(** [Array.prototype.sort()] without a comparator: by code units, stable. *)
Fixpoint placeString (x : string) (l : list string) : list string :=
  match l with
  | [] => [x]
  | d :: l' => if String.ltb d x then d :: placeString x l' else x :: d :: l'
  end.

Definition sortStrings (l : list string) : list string := foldr placeString [] l.

(** [connections.map(c => c.protocol).filter(Boolean)] *)
Definition truthyStrings (l : list (option string)) : list string :=
  omap (λ v, v ≫= nonEmpty) l.

Definition protocols (connections : list Connection) : list string :=
  "all" :: sortStrings (setOf (truthyStrings (map protocol connections))).

(** [connections.map(c => c.process).filter(p => p && p !== '-')] *)
Definition apps (connections : list Connection) : list string :=
  "all" :: sortStrings
             (setOf (List.filter (λ p, negb (bool_decide (p = "-")))
                                 (truthyStrings (map process connections)))).

(** ** The capture interfaces ([Header.jsx], lines 5-61 and 86-93;
       [App.jsx], lines 212-240) *)

Record Interface := mkInterface {
  ifName : string;
  ifDescription : option string
}.

Record InterfaceOption := mkOption {
  optName : string;
  optLabel : string
}.

Definition EXCLUDE_INTERFACES : list string :=
  [ "sshdump"; "ciscodump"; "udpdump"; "wifidump"; "randpkt";
    "ap1"; "awdl0"; "llw0"; "gif0"; "stf0";
    "anpi0"; "anpi1"; "anpi2" ].

(** The negation of the test of [interfaces.filter]. *)
Definition excludedInterface (i : Interface) : bool :=
  bool_decide (ifName i ∈ EXCLUDE_INTERFACES) || String.prefix "anpi" (ifName i).

Definition realInterfaces (interfaces : list Interface) : list Interface :=
  List.filter (λ i, negb (excludedInterface i)) interfaces.

(** The options pushed before the fallback. *)
Definition smartOptions (names : list string) : list InterfaceOption :=
  let wifi := List.find (λ n, bool_decide (n = "en0")) names in
  let vpns := List.filter (String.prefix "utun") names in
  match wifi with
  | Some w =>
      mkOption w "Wi-Fi (en0)" ::
      (if (0 <? length vpns)%nat
       then [mkOption (String.concat "," (w :: vpns))
                      ("Wi-Fi + VPN tunnels (" +:+ showZ (Z.of_nat (length vpns)) +:+ ")")]
       else [])
  | None => []
  end
  ++ map (λ vpn, mkOption vpn ("VPN tunnel (" +:+ vpn +:+ ")")) (take 3 vpns)
  ++ (if bool_decide ("lo0" ∈ names)
      then [mkOption "lo0" "Loopback (localhost)"] else []).

(** [buildInterfaceOptions]; [None] is an absent list. *)
Definition buildInterfaceOptions (interfaces : option (list Interface))
    : list InterfaceOption :=
  match interfaces with
  | None | Some [] => [mkOption "en0" "Wi-Fi (en0)"]
  | Some l =>
      let real := realInterfaces l in
      let options := smartOptions (map ifName real) in
      if (length options =? 0)%nat
      then map (λ iface,
                  mkOption (ifName iface)
                           (match ifDescription iface with
                            | Some d => if decide (d = "") then ifName iface else d
                            | None => ifName iface
                            end))
               real
      else options
  end.

(** The effect of the header that corrects the selected interface. *)
Definition correctInterface (interfaceOptions : list InterfaceOption)
    (interface_ : string) : string :=
  match interfaceOptions with
  | [] => interface_
  | first :: _ =>
      if existsb (λ opt, bool_decide (optName opt = interface_)) interfaceOptions
      then interface_
      else optName first
  end.

(** What the request for the interfaces came back with. *)
Inductive Detection :=
  | DetectionFailed
  | Detected (interfaces : option (list Interface)).

(** [detectInterfaces], on the pair of the available interfaces and the
    selected one. *)
Definition detectInterfaces (d : Detection) (st : list Interface * string)
    : list Interface * string :=
  match d with
  | DetectionFailed => (st.1, "en0")
  | Detected None | Detected (Some []) => st
  | Detected (Some (i :: l)) =>
      (i :: l,
       if bool_decide ("en0" ∈ map ifName (i :: l)) then "en0" else ifName i)
  end.

(** ** The two dots of an arc in activity mode ([Globe.jsx], lines 456-497;
       [WorldMap.jsx], lines 362-375) *)

Local Open Scope R_scope.

(** [x % 1]: the remainder has the sign of [x]. *)
Definition rem1 (x : R) : R :=
  if Rle_dec 0 x then frac_part x else - frac_part (- x).

(** On the globe, for the group of index [idx] at time [now]: the curve
    parameter and the opacity of the outgoing dot, then of the incoming
    one. *)
Definition globeActivity (now : R) (idx : nat) : (R * R) * (R * R) :=
  let cycleTime := 2500 in
  let offset := rem1 (INR idx * 0.17) in
  let t1 := rem1 (now / cycleTime + offset) in
  let t2 := rem1 (now / cycleTime + offset + 0.5) in
  ((t1, GlobeControls.calcOpacity t1), (1 - t2, GlobeControls.calcOpacity t2)).

(** On the map, at the animation time [time]: the curve parameters of the
    forward and of the backward dot. *)
Definition mapActivity (time : R) (idx : nat) : R * R :=
  let phase := rem1 (INR idx * 0.3) in
  let t1 := rem1 (time * 0.3 + phase) in
  let t2 := rem1 (time * 0.3 + phase + 0.5) in
  (t1, 1 - t2).

Local Close Scope R_scope.

(** ** The display of a byte count ([StatsBar.jsx], lines 3-9;
       [ConnectionsTable.jsx], lines 745-751; [WorldMap.jsx], lines 633-639) *)

Section Formatting.

Local Open Scope R_scope.

(** [parseFloat(x.toFixed(1))] as a string. *)
Variable showFixed1 : R → string.





End Formatting.

(** ** Hovering on the map ([WorldMap.jsx], lines 222-236 and 527-533) *)

Record Hover := mkHover {
  mousePos : Point;
  hoveredArcGroup : option ArcGroup
}.

(** [handleMouseLeave]: the pointer is parked away from the canvas. *)
Definition handleMouseLeave (hv : Hover) : Hover :=
  mkHover (mkPoint (-1000) (-1000)) None.

(** The hover update of a frame: the hit replaces the hovered group when
    its key differs ([hit?.key !== hoveredArcGroupRef.current?.key]). *)
Definition hoverUpdate (w h currentZoom : R) (currentPan : Point)
    (currentArcGroups : list ArcGroup) (hv : Hover) : Hover :=
  let hit := hitTest (px (mousePos hv)) (py (mousePos hv)) w h currentZoom currentPan
                     currentArcGroups in
  if bool_decide (key <$> hit = key <$> hoveredArcGroup hv) then hv
  else mkHover (mousePos hv) hit.

(** * Vocabulary of the properties *)

(** ** Activity order *)

(** Most recently active first. *)
Definition byActivity (c d : Connection) : Prop := (lastActive d ≤ lastActive c)%Z.

#[local] Instance byActivity_dec : RelDecision byActivity :=
  λ c d, decide (lastActive d ≤ lastActive c)%Z.

(** ** Crediting packets one by one *)

Definition eventKey (e : Z * PacketData) : string :=
  pairKey (d_src_ip e.2) (d_dst_ip e.2).

(** One packet credited to one record, without any batching: the reference
    against which the batched path is measured. *)
Definition creditOne (e : Z * PacketData) (c : Connection) : Connection :=
  if decide (eventKey e = connKeyOf c)
  then bump (mkUpdate (lengthOr0 (d_length e.2)) 1 e.1) c
  else c.

Definition credit (events : list (Z * PacketData)) (c : Connection) : Connection :=
  fold_left (λ c e, creditOne e c) events c.

(** The events of a flow, their number and the sum of their lengths. *)
Definition eventsFor (k : string) (events : list (Z * PacketData)) : list (Z * PacketData) :=
  List.filter (λ e, bool_decide (eventKey e = k)) events.

Definition sumLengths (events : list (Z * PacketData)) : N :=
  foldr (λ e acc, (lengthOr0 (d_length e.2) + acc)%N) 0%N events.

(** The store as it will be once the pending deltas are applied. *)
Definition pendingView (s : State) : list Connection :=
  map (applyUpdate (pendingConnectionUpdatesRef s)) (connections s).

(** A stretch of traffic made of packets of existing flows that carry the
    geo of at least one end, cut by flushes at any points. *)
Definition updateAction (a : Action) : Prop :=
  match a with
  | Flush _ => True
  | Receive _ _ (JSONData (MsgPacket d)) => d_new_flow d = false ∧ hasGeo d = true
  | _ => False
  end.

(** The same without the condition on the geo. *)
Definition packetAction (a : Action) : Prop :=
  match a with
  | Flush _ => True
  | Receive _ _ (JSONData (MsgPacket d)) => d_new_flow d = false
  | _ => False
  end.

(** The packets of a stretch of traffic, each with its time of arrival. *)
Fixpoint eventsOf (tr : list Action) : list (Z * PacketData) :=
  match tr with
  | [] => []
  | Receive now _ (JSONData (MsgPacket d)) :: tr' => (now, d) :: eventsOf tr'
  | _ :: tr' => eventsOf tr'
  end.

(** ** Messages *)

(** A message of the protocol (an object whose fields have the types that
    the capture service writes) that the handler can read to the end: a
    [geo_update] has its [geo]. *)
Definition readable (m : Message) : Prop :=
  match m with
  | MsgGeoUpdate _ None => False
  | _ => True
  end.

(** What a [geo_update] for [ip] does to a record: the geo of an end that
    has the address and is marked unknown becomes [geo], and nothing else
    changes. *)
Definition geoPatched (ip : string) (geo : GeoPoint) (c c' : Connection) : Prop :=
  conn_id c' = conn_id c ∧ src_ip c' = src_ip c ∧ dst_ip c' = dst_ip c
  ∧ src_port c' = src_port c ∧ dst_port c' = dst_port c ∧ protocol c' = protocol c
  ∧ bytes c' = bytes c ∧ packets c' = packets c
  ∧ timestamp c' = timestamp c ∧ lastActive c' = lastActive c
  ∧ process c' = process c ∧ pid c' = pid c
  ∧ dst_geo c' = (if bool_decide (dst_ip c = ip) && isUnknown (dst_geo c)
                  then Some geo else dst_geo c)
  ∧ src_geo c' = (if bool_decide (src_ip c = ip) && isUnknown (src_geo c)
                  then Some geo else src_geo c).

(** What a [process_update] between [src] and [dst] does to a record: a
    record between the two addresses, in either direction, that has no
    process takes the process and the pid, and nothing else changes. *)
Definition processPatched (src dst : string) (p : option string) (i : option N)
    (c c' : Connection) : Prop :=
  conn_id c' = conn_id c ∧ src_ip c' = src_ip c ∧ dst_ip c' = dst_ip c
  ∧ src_port c' = src_port c ∧ dst_port c' = dst_port c ∧ protocol c' = protocol c
  ∧ bytes c' = bytes c ∧ packets c' = packets c
  ∧ timestamp c' = timestamp c ∧ lastActive c' = lastActive c
  ∧ src_geo c' = src_geo c ∧ dst_geo c' = dst_geo c
  ∧ (process c', pid c')
    = (if ((bool_decide (src_ip c = src) && bool_decide (dst_ip c = dst))
           || (bool_decide (src_ip c = dst) && bool_decide (dst_ip c = src)))
          && noProcess c
       then (p, i) else (process c, pid c)).

(** The batching refs, which the message handler fills. *)
Definition pendingOf (s : State)
    : list PacketEvent * list Connection * gmap string Update * Stats :=
  (pendingPacketEventsRef s, pendingNewConnectionsRef s,
   pendingConnectionUpdatesRef s, pendingStatsRef s).

(** ** Groups *)


(** The geo that the derivations skip: absent, marked pending, or without a
    latitude ([!geo], [geo.pending], [geo.lat == null]). *)
Definition skippedGeo (g : option GeoPoint) : Prop :=
  match g with
  | None => True
  | Some p => pending p = true ∨ lat p = None
  end.

(** Absent, marked pending, or missing a coordinate, the latitude or the
    longitude. *)
Definition unusableGeo (g : option GeoPoint) : Prop :=
  match g with
  | None => True
  | Some p => pending p = true ∨ lat p = None ∨ lon p = None
  end.



(** ** Traffic *)

(** Any packet, or a flush. *)
Definition trafficAction (a : Action) : Prop :=
  match a with
  | Flush _ => True
  | Receive _ _ (JSONData (MsgPacket _)) => True
  | _ => False
  end.

(** A packet that opens a flow. *)
Definition newFlowAction (a : Action) : Prop :=
  match a with
  | Receive _ _ (JSONData (MsgPacket d)) => d_new_flow d = true
  | _ => False
  end.

(** What a list of packets adds to the counters. *)
Definition statsOf (events : list (Z * PacketData)) : Stats :=
  mkStats (N.of_nat (length events))
          (N.of_nat (length (List.filter (λ e, d_new_flow e.2) events)))
          (sumLengths events).

(** The counters with what is buffered for them. *)
Definition statsView (s : State) : Stats := addStats (stats s) (pendingStatsRef s).


(** The records that a list of packets opens. *)
Definition recordsOf (events : list (Z * PacketData)) : list Connection :=
  map (λ e, connectionOf e.1 e.2) (List.filter (λ e, hasGeo e.2) events).

(** ** Sums over the members of a group *)

Definition sumOver (f : Connection → N) (l : list Connection) : N :=
  foldr (λ c acc, (f c + acc)%N) 0%N l.

(** The connections that a derivation of groups does not skip. *)
Definition grouped (home : option GeoPoint) (c : Connection) : bool :=
  negb (skipped (effectiveSrc home c) (effectiveDst home c)).

(** A group whose sums are those of its members, and which has a member. *)
Definition group_ok (g : ArcGroup) : Prop :=
  groupConnections g ≠ []
  ∧ totalBytes g = sumOver bytes (groupConnections g)
  ∧ totalPackets g = sumOver packets (groupConnections g).

Definition appGroup_ok (g : AppGroup) : Prop :=
  appConnections g ≠ []
  ∧ appTotalBytes g = sumOver bytes (appConnections g)
  ∧ appTotalPackets g = sumOver packets (appConnections g).

(** Most traffic first. *)
Definition byBytes (g d : AppGroup) : Prop := (appTotalBytes d ≤ appTotalBytes g)%N.

(** The name under which the table lists a connection. *)
Definition appNameOf (conn : Connection) : string :=
  match process conn with
  | Some p => if decide (p = "") then "Unknown" else p
  | None => "Unknown"
  end.

(** What the groups are once the derivation has been through the
    connections [seen]. *)
Definition partitions (home : option GeoPoint) (seen : list Connection)
    (gs : list ArcGroup) : Prop :=
  concat (map groupConnections gs) ≡ₚ List.filter (grouped home) seen
  ∧ NoDup (map key gs)
  ∧ Forall group_ok gs.

(** ** The groups of the table *)

(** A group of the table holds the connections seen so far that are listed
    under its name, in their order, with their sums. *)
Definition tabled (seen : list Connection) (g : AppGroup) : Prop :=
  appConnections g = List.filter (λ c, bool_decide (appNameOf c = name g)) seen
  ∧ appTotalBytes g = sumOver bytes (appConnections g)
  ∧ appTotalPackets g = sumOver packets (appConnections g).

(** What the groups of the table are once the derivation has been through
    the connections [seen]. *)
Definition listedByName (seen : list Connection) (gs : list AppGroup) : Prop :=
  NoDup (map name gs)
  ∧ Forall (tabled seen) gs
  ∧ Forall (λ g, appConnections g ≠ []) gs
  ∧ (∀ c, c ∈ seen → appNameOf c ∈ map name gs)
  ∧ concat (map appConnections gs) ≡ₚ seen.

(** ** The viewport *)

(** The pan is within the bounds of the zoom. *)
Definition withinPan (w h : R) (v : Viewport) : Prop :=
  (Rabs (px (pan v)) <= (w * zoom v - w) / 2
   ∧ Rabs (py (pan v)) <= (h * zoom v - h) / 2)%R.

(** The map image covers the canvas. *)
Definition covers (w h : R) (v : Viewport) : Prop :=
  match mapRect w h v with
  | (mapX, mapY, mapW, mapH) =>
      (mapX <= 0 ∧ w <= mapX + mapW ∧ mapY <= 0 ∧ h <= mapY + mapH)%R
  end.

(** ** Patches *)

(** The fields that no patch of the geo or of the process touches. *)
Definition identityOf (c : Connection)
    : string * string * string * option N * option N * option string * N * N * option Z * Z :=
  (conn_id c, src_ip c, dst_ip c, src_port c, dst_port c, protocol c,
   bytes c, packets c, timestamp c, lastActive c).

(** * Worked inputs *)

Definition exampleGeo : GeoPoint :=
  mkGeo (Some 42.1%R) (Some (-71.3)%R) (Some "Norwell") (Some "US") None false false false.

Definition farGeo : GeoPoint :=
  mkGeo (Some 48.9%R) (Some 2.4%R) (Some "Paris") (Some "FR") None false false false.

(** A packet between 10.0.0.5 and 93.184.216.34, with or without the geo of
    the public end. *)
Definition examplePacket (len : N) (new_flow : bool) (g : option GeoPoint) : PacketData :=
  mkPacketData "10.0.0.5" "93.184.216.34" (Some 51234%N) (Some 443%N)
               None g (Some "TCP") None None (Some len) new_flow None.

(** The record of that flow; its source end has no geo of its own. *)
Definition exampleConnection (b p : N) (active : Z) : Connection :=
  mkConn "10.0.0.5-93.184.216.34-1000" "10.0.0.5" "93.184.216.34"
         (Some 51234%N) (Some 443%N) None (Some exampleGeo) (Some "TCP") None None
         b p None active.

(** A connection with both ends resolved. *)
Definition resolvedConnection : Connection :=
  mkConn "8.8.8.8-1.1.1.1-1000" "8.8.8.8" "1.1.1.1" None None
         (Some exampleGeo) (Some farGeo) (Some "UDP") (Some "dig") None 10 1 None 1000.

(** A store holding the one flow, nothing pending. *)
Definition exampleState : State :=
  setConnections (λ _, [exampleConnection 100 1 1000]) initialState.

(** Two packets of the flow around a flush. *)
Definition splitTrace : list Action :=
  [ Receive 2000 "0.25" (JSONData (MsgPacket (examplePacket 250 false (Some exampleGeo))));
    Flush 2050;
    Receive 2060 "0.75" (JSONData (MsgPacket (examplePacket 40 false (Some exampleGeo)))) ].

(** One packet of the flow that carries no geo at all. *)
Definition geolessTrace : list Action :=
  [ Receive 2000 "0.25" (JSONData (MsgPacket (examplePacket 250 false None))) ].

(** The example of the specification: a new flow of 100 bytes and a second
    packet of 250 bytes in one flush window. *)
Definition twoPacketTrace : list Action :=
  [ Receive 1000 "0.25" (JSONData (MsgPacket (examplePacket 100 true (Some exampleGeo))));
    Receive 1010 "0.75" (JSONData (MsgPacket (examplePacket 250 false (Some exampleGeo))));
    Flush 1050 ].



(** Traffic that fills the store: in every flush window two new flows appear
    one millisecond apart. *)
Definition flowPacket (i : nat) : PacketData :=
  mkPacketData "10.0.0.5"
               ("93.184." +:+ showZ (Z.of_nat (i / 250)) +:+ "." +:+ showZ (Z.of_nat (i mod 250)))
               (Some 51234%N) (Some 443%N)
               None (Some exampleGeo) (Some "TCP") None None (Some 60%N) true None.

Definition window (w : nat) : list Action :=
  [ Receive (100 * Z.of_nat w) "0.25" (JSONData (MsgPacket (flowPacket (2 * w))));
    Receive (100 * Z.of_nat w + 1) "0.75" (JSONData (MsgPacket (flowPacket (2 * w + 1))));
    Flush (100 * Z.of_nat w + 50) ].

Definition busyTrace : list Action := concat (map window (seq 0 500)).

Definition fullState : State := run busyTrace initialState.

(** One more new flow, and the flush that inserts it. *)
Definition overflowTrace : list Action :=
  [ Receive 50000 "0.5" (JSONData (MsgPacket (flowPacket 1000))); Flush 50050 ].

(** The full store after a re-sort, and a batch of one newer flow. *)
Definition sortedStore : list Connection := sortByActivity (connections fullState).

Definition newerBatch : list Connection := [connectionOf 50000 (flowPacket 1000)].

(** The full store once a delta that matches no record has had it re-sorted,
    with one more new flow buffered for the next flush. *)
Definition resortedTrace : list Action :=
  [ Receive 49000 "0.5" (JSONData (MsgPacket (examplePacket 60 false (Some exampleGeo))));
    Flush 49050;
    Receive 50000 "0.5" (JSONData (MsgPacket (flowPacket 1000))) ].

Definition overflowingState : State := run resortedTrace fullState.

(** A packet received at 1000 and flushed at 10000, the timer having been
    held back for nine seconds. *)
Definition lateFlushTrace : list Action :=
  [ Receive 1000 "0.5" (JSONData (MsgPacket (examplePacket 60 false (Some exampleGeo))));
    Flush 10000 ].

(** A packet received at 1000 and flushed in time. *)
Definition expiryTrace : list Action :=
  [ Receive 1000 "0.5" (JSONData (MsgPacket (examplePacket 60 false (Some exampleGeo))));
    Flush 1050 ].

Definition exampleGroup : ArcGroup :=
  mkArcGroup "42.1,-71.3-42.1,-71.3" (Some exampleGeo) (Some exampleGeo) None
             [exampleConnection 100 1 1000] 100 1.

(** An arc is selected, then a row of the table that the arc filters. *)
Definition arcThenRow : list Action :=
  [ SelectArcGroup (Some exampleGroup);
    SelectConnection (Some (exampleConnection 100 1 1000)) ].

(** A geo point with a latitude and no longitude, and a connection to it. *)
Definition halfGeo : GeoPoint :=
  mkGeo (Some 48.9%R) None None None None false false false.

Definition halfConnection : Connection :=
  mkConn "8.8.8.8-9.9.9.9-1000" "8.8.8.8" "9.9.9.9" None None
         (Some exampleGeo) (Some halfGeo) (Some "UDP") None None 10 1 None 1000.

(** A stand-in for the platform's number formatting. *)
Definition constFixed (x : R) : string := "0.0".

(** A 360 by 180 canvas at zoom 1, where a point at (lat, lon) is drawn at
    (lon + 180, 90 - lat). *)
Definition geoAt (la lo : R) : GeoPoint :=
  mkGeo (Some la) (Some lo) None None None false false false.

Definition origin : Point := mkPoint 0 0.

(** Two groups whose source nodes are one degree apart. *)
Definition firstGroup : ArcGroup :=
  mkArcGroup "0.0,0.0-0.0,10.0" (Some (geoAt 0 0)) (Some (geoAt 0 10)) None [] 0 0.

Definition secondGroup : ArcGroup :=
  mkArcGroup "0.0,1.0-10.0,50.0" (Some (geoAt 0 1)) (Some (geoAt 10 50)) None [] 0 0.

(** Two packets that open two flows, one millisecond apart. *)
Definition twoFlows : list Action :=
  [ Receive 300 "0.25" (JSONData (MsgPacket (flowPacket 6)));
    Receive 301 "0.75" (JSONData (MsgPacket (flowPacket 7))) ].

(** * Properties *)

(** ** The pairing key does not depend on the direction *)

Lemma pairKey_comm (a b : string) : pairKey a b = pairKey b a.
Proof.
  unfold pairKey, String.ltb.
  rewrite (String.compare_antisym b a).
  destruct (String.compare a b) eqn:E; simpl; try reflexivity.
  apply String.compare_eq_iff in E. by subst.
Qed.

Example pairKey_example :
  pairKey "93.184.216.34" "10.0.0.5" = "10.0.0.5-93.184.216.34"
  ∧ pairKey "10.0.0.5" "93.184.216.34" = "10.0.0.5-93.184.216.34".
Proof. split; reflexivity. Qed.

(** ** The re-sort of the store keeps its records *)

(** Records that were active at the same time keep their order. *)
Example sortByActivity_stable :
  map (λ c, (bytes c, lastActive c))
      (sortByActivity [exampleConnection 1 0 5; exampleConnection 2 0 7;
                       exampleConnection 3 0 5; exampleConnection 4 0 9])
  = [(4%N, 9%Z); (2%N, 7%Z); (1%N, 5%Z); (3%N, 5%Z)].
Proof. reflexivity. Qed.

Lemma placeByActivity_perm (c : Connection) (l : list Connection) :
  placeByActivity c l ≡ₚ c :: l.
Proof.
  induction l as [|d l IH]; simpl; [done|].
  destruct (lastActive c <? lastActive d)%Z; [|done].
  rewrite IH. apply Permutation_swap.
Qed.

Lemma sortByActivity_perm (l : list Connection) : sortByActivity l ≡ₚ l.
Proof.
  induction l as [|c l IH]; simpl; [done|].
  by rewrite placeByActivity_perm, IH.
Qed.

Lemma sortByActivity_length (l : list Connection) :
  length (sortByActivity l) = length l.
Proof. by rewrite sortByActivity_perm. Qed.

Lemma placeByActivity_sorted (c : Connection) (l : list Connection) :
  StronglySorted byActivity l → StronglySorted byActivity (placeByActivity c l).
Proof.
  induction 1 as [|d l Hl IH Hd]; simpl.
  - repeat constructor.
  - destruct (lastActive c <? lastActive d)%Z eqn:E.
    + constructor; [done|].
      rewrite placeByActivity_perm. constructor; [|done].
      unfold byActivity. lia.
    + apply Z.ltb_ge in E.
      constructor; [by constructor|].
      constructor; [done|].
      eapply Forall_impl; [exact Hd|]. unfold byActivity. intros; lia.
Qed.

Lemma sortByActivity_sorted (l : list Connection) :
  StronglySorted byActivity (sortByActivity l).
Proof.
  induction l; simpl; [constructor|]. by apply placeByActivity_sorted.
Qed.

(** ** Coalescing *)

Lemma connKeyOf_bump (u : Update) (c : Connection) : connKeyOf (bump u c) = connKeyOf c.
Proof. reflexivity. Qed.

Lemma applyUpdate_empty (c : Connection) : applyUpdate ∅ c = c.
Proof. unfold applyUpdate. by rewrite lookup_empty. Qed.

Lemma map_applyUpdate_empty (l : list Connection) : map (applyUpdate ∅) l = l.
Proof.
  induction l as [|c l IH]; simpl; [done|]. by rewrite applyUpdate_empty, IH.
Qed.

Lemma size_zero_empty (m : gmap string Update) : (0 <? size m)%nat = false → m = ∅.
Proof. intros H. apply Nat.ltb_ge in H. apply map_size_empty_iff. lia. Qed.

Lemma connKeyOf_creditOne e c : connKeyOf (creditOne e c) = connKeyOf c.
Proof. unfold creditOne. by destruct (decide _). Qed.

Lemma credit_counters (events : list (Z * PacketData)) (c : Connection) :
  connKeyOf (credit events c) = connKeyOf c ∧
  bytes (credit events c) = (bytes c + sumLengths (eventsFor (connKeyOf c) events))%N ∧
  packets (credit events c)
    = (packets c + N.of_nat (length (eventsFor (connKeyOf c) events)))%N.
Proof.
  revert c. induction events as [|e events IH]; intros c; simpl.
  - split; [done|]. split; lia.
  - destruct (IH (creditOne e c)) as (Hk & Hb & Hp).
    fold (credit events (creditOne e c)).
    rewrite Hk, Hb, Hp, connKeyOf_creditOne.
    split; [done|].
    unfold creditOne. destruct (decide (eventKey e = connKeyOf c)) as [Heq|Hne].
    + rewrite bool_decide_eq_true_2 by done. simpl. split; lia.
    + rewrite bool_decide_eq_false_2 by done. split; lia.
Qed.

Lemma applyUpdate_accumulate now data m c :
  applyUpdate (accumulate now data m) c = creditOne (now, data) (applyUpdate m c).
Proof.
  unfold applyUpdate, accumulate, creditOne, eventKey; simpl.
  set (k := pairKey (d_src_ip data) (d_dst_ip data)).
  destruct (decide (k = connKeyOf c)) as [Heq|Hne].
  - rewrite <- Heq.
    destruct (m !! k) as [ex|] eqn:E; rewrite lookup_insert_eq.
    + rewrite decide_True by (by rewrite connKeyOf_bump).
      unfold bump; simpl. f_equal; lia.
    + by rewrite decide_True.
  - assert (m !! connKeyOf c = (accumulate now data m) !! connKeyOf c) as Hl.
    { unfold accumulate. fold k. destruct (m !! k); by rewrite lookup_insert_ne. }
    unfold accumulate in Hl. fold k in Hl.
    destruct (m !! k) as [ex|] eqn:E; rewrite <- Hl;
      destruct (m !! connKeyOf c) as [u|]; try rewrite connKeyOf_bump;
      by rewrite decide_False.
Qed.

Lemma step_update_view (a : Action) (s : State) :
  updateAction a → pendingNewConnectionsRef s = [] →
  pendingNewConnectionsRef (step a s) = [] ∧
  pendingView (step a s) ≡ₚ map (credit (eventsOf [a])) (pendingView s).
Proof.
  intros Ha Hn.
  destruct a as [now rnd p|now|c|g| |m| | | |ip data e|h]; simpl in Ha; try done.
  - (* a packet of an existing flow *)
    destruct p as [| |m]; try done. destruct m as [| | | | |data|]; try done.
    destruct Ha as [Hf Hg]. simpl. unfold onPacket. rewrite Hf, Hg. simpl.
    split; [done|].
    unfold pendingView; simpl. rewrite map_map.
    erewrite map_ext; [reflexivity|].
    intros c. by rewrite applyUpdate_accumulate.
  - (* a flush *)
    simpl. rewrite map_id.
    unfold flushBatchedUpdates, pendingView, flushConnections; simpl. rewrite Hn; simpl.
    split; [done|].
    destruct (0 <? size (pendingConnectionUpdatesRef s))%nat eqn:E.
    + rewrite map_applyUpdate_empty. apply sortByActivity_perm.
    + apply size_zero_empty in E. rewrite E. by rewrite !map_applyUpdate_empty.
Qed.

Lemma credit_app ev1 ev2 c : credit (ev1 ++ ev2) c = credit ev2 (credit ev1 c).
Proof. unfold credit. by rewrite fold_left_app. Qed.

Lemma eventsOf_cons a tr : eventsOf (a :: tr) = eventsOf [a] ++ eventsOf tr.
Proof.
  destruct a as [now rnd p|now|c|g| |m| | | |ip data e|h]; try reflexivity.
  destruct p as [| |m]; try reflexivity. by destruct m.
Qed.

Lemma run_update_view (tr : list Action) (s : State) :
  Forall updateAction tr → pendingNewConnectionsRef s = [] →
  pendingNewConnectionsRef (run tr s) = [] ∧
  pendingView (run tr s) ≡ₚ map (credit (eventsOf tr)) (pendingView s).
Proof.
  intros Htr. revert s. induction Htr as [|a tr Ha Htr IH]; intros s Hn.
  - split; [done|]. simpl. by rewrite map_id.
  - destruct (step_update_view a s Ha Hn) as [Hn' Hv].
    destruct (IH (step a s) Hn') as [Hn'' Hv'].
    split; [exact Hn''|].
    change (run (a :: tr) s) with (run tr (step a s)).
    rewrite Hv', Hv, map_map, (eventsOf_cons a tr).
    erewrite map_ext; [reflexivity|]. intros c. by rewrite credit_app.
Qed.

Lemma run_app tr1 tr2 s : run (tr1 ++ tr2) s = run tr2 (run tr1 s).
Proof. unfold run. by rewrite fold_left_app. Qed.

Lemma pendingView_flush now s :
  pendingNewConnectionsRef s = [] →
  connections (flushBatchedUpdates now s) ≡ₚ pendingView s ∧
  pendingConnectionUpdatesRef (flushBatchedUpdates now s) = ∅.
Proof.
  intros Hn. unfold flushBatchedUpdates, pendingView, flushConnections; simpl.
  rewrite Hn; simpl.
  destruct (0 <? size (pendingConnectionUpdatesRef s))%nat eqn:E.
  - split; [apply sortByActivity_perm|done].
  - apply size_zero_empty in E. rewrite E. by rewrite map_applyUpdate_empty.
Qed.

(** ** C1 *)

(** C1, as amended.  For every stretch of [packet] events with
    [new_flow = false] that carry the geo of at least one end, cut by flushes
    at any points and closed by a flush, the store afterwards holds the
    records it held before (up to the order, which the re-sort may change),
    each credited with every event of its pairing key one by one: its
    [bytes] has grown by the sum of the lengths of those events and its
    [packets] by their number.  And the two packets of the example give one
    connection with 350 bytes and 2 packets. *)
Theorem coalescing_credits_every_event (tr : list Action) (now : Z) (s : State) :
  Forall updateAction tr →
  pendingNewConnectionsRef s = [] →
  pendingConnectionUpdatesRef s = ∅ →
  connections (run (tr ++ [Flush now]) s) ≡ₚ map (credit (eventsOf tr)) (connections s)
  ∧ (∀ c, bytes (credit (eventsOf tr) c)
            = (bytes c + sumLengths (eventsFor (connKeyOf c) (eventsOf tr)))%N
          ∧ packets (credit (eventsOf tr) c)
            = (packets c + N.of_nat (length (eventsFor (connKeyOf c) (eventsOf tr))))%N)
  ∧ (∃ c, connections (run twoPacketTrace initialState) = [c]
          ∧ bytes c = 350%N ∧ packets c = 2%N).
Proof.
  intros Htr Hn Hu. split; [|split].
  - destruct (run_update_view tr s Htr Hn) as [Hn' Hv].
    rewrite run_app. simpl.
    destruct (pendingView_flush now (run tr s) Hn') as [Hc _].
    rewrite Hc, Hv. unfold pendingView. by rewrite Hu, map_applyUpdate_empty.
  - intros c. by destruct (credit_counters (eventsOf tr) c) as (_ & ? & ?).
  - eexists. split; [vm_compute; reflexivity|]. split; reflexivity.
Qed.

Lemma coalescing_credits_every_event_witness :
  connections (run (splitTrace ++ [Flush 2100]) exampleState)
    ≡ₚ map (credit (eventsOf splitTrace)) (connections exampleState).
Proof.
  apply (coalescing_credits_every_event splitTrace 2100 exampleState).
  - repeat constructor.
  - reflexivity.
  - reflexivity.
Defined.

(** C1 as stated fails on a packet that carries no geo: it has
    [new_flow = false] and the pairing key of the stored flow, a flush
    follows, and the record still has 100 bytes and 1 packet where the claim
    promises 350 and 2. *)
Lemma geoless_packet_not_credited :
  Forall packetAction geolessTrace
  ∧ eventsFor (connKeyOf (exampleConnection 100 1 1000)) (eventsOf geolessTrace)
      = eventsOf geolessTrace
  ∧ connections (run (geolessTrace ++ [Flush 2050]) exampleState)
      = [exampleConnection 100 1 1000]
  ∧ map (λ c, (bytes c, packets c))
        (map (credit (eventsOf geolessTrace)) (connections exampleState))
      = [(350%N, 2%N)]
  ∧ ¬ (connections (run (geolessTrace ++ [Flush 2050]) exampleState)
         ≡ₚ map (credit (eventsOf geolessTrace)) (connections exampleState)).
Proof.
  split; [repeat constructor|].
  split; [reflexivity|].
  split; [vm_compute; reflexivity|].
  split; [reflexivity|].
  intros HP. apply (Permutation_map bytes) in HP.
  vm_compute in HP. apply Permutation_length_1 in HP. discriminate.
Qed.

(** ** C10 *)



Lemma flushStats_add (u prev : Stats) : flushStats u prev = addStats prev u.
Proof.
  unfold flushStats, anyStats, addStats. destruct u as [p f b], prev as [p' f' b']; simpl.
  destruct (0 <? p)%N eqn:Ep, (0 <? f)%N eqn:Ef, (0 <? b)%N eqn:Eb; simpl; try done.
  apply N.ltb_ge in Ep, Ef, Eb. f_equal; lia.
Qed.




(** ** C2 *)

Lemma insertConnections_length (newConnections prev : list Connection) :
  (length (insertConnections newConnections prev) ≤ MAX_CONNECTIONS)%nat.
Proof. unfold insertConnections. rewrite length_take. lia. Qed.

Lemma flushConnections_capacity newConnections connectionUpdates prev :
  (length prev ≤ MAX_CONNECTIONS)%nat →
  (length (flushConnections newConnections connectionUpdates prev) ≤ MAX_CONNECTIONS)%nat.
Proof.
  intros H. unfold flushConnections, applyConnectionUpdates.
  assert (length (if (0 <? length newConnections)%nat
                  then insertConnections newConnections prev else prev)
          ≤ MAX_CONNECTIONS)%nat as Hi.
  { destruct (0 <? length newConnections)%nat; [apply insertConnections_length|done]. }
  destruct (0 <? size connectionUpdates)%nat; [|done].
  by rewrite sortByActivity_length, length_map.
Qed.

(** Every callback keeps the store within its capacity. *)
Lemma step_capacity (a : Action) (s : State) :
  (length (connections s) ≤ MAX_CONNECTIONS)%nat →
  (length (connections (step a s)) ≤ MAX_CONNECTIONS)%nat.
Proof.
  intros H. destruct a as [now rnd p|now|c|g| |m| | | |ip data e|h]; simpl;
    try done; try (unfold MAX_CONNECTIONS; lia).
  - destruct p as [| |m]; simpl; try done.
    destruct m as [| |st e|ip geo|src dst p i|data|]; simpl; try done.
    + by destruct st, e.
    + destruct geo; simpl; [by rewrite length_map|done].
    + by rewrite length_map.
    + unfold onPacket. by destruct (d_new_flow data && hasGeo data), (hasGeo data).
  - by apply flushConnections_capacity.
  - unfold lookupIP. destruct (_ && _); simpl; [by rewrite length_map|done].
Qed.

Lemma reachable_capacity (s : State) :
  reachable s → (length (connections s) ≤ MAX_CONNECTIONS)%nat.
Proof.
  induction 1 as [|a s Hs IH]; [simpl; lia|]. by apply step_capacity.
Qed.

Lemma reachable_run (tr : list Action) (s : State) : reachable s → reachable (run tr s).
Proof.
  revert s. induction tr as [|a tr IH]; intros s Hs; [done|].
  apply IH. by constructor.
Qed.

(** C2 as stated fails in its second half.  After 500 flush windows with two
    new flows each the store is full and ends with the two flows of the
    first window, the older one (active at 0) before the younger one (active
    at 1).  The next insert drops the last record, the younger one, and
    keeps the older one. *)
Lemma insert_evicts_the_more_recent :
  reachable fullState
  ∧ length (connections fullState) = MAX_CONNECTIONS
  ∧ map lastActive (drop 998 (connections fullState)) = [0%Z; 1%Z]
  ∧ connections (run overflowTrace fullState)
      = (connectionOf 50000 (flowPacket 1000) :: take 999 (connections fullState))
  ∧ last (connections (run overflowTrace fullState)) = Some (connectionOf 0 (flowPacket 0))
  ∧ last (connections fullState) = Some (connectionOf 1 (flowPacket 1))
  ∧ (dst_ip (connectionOf 1 (flowPacket 1))
       ∉ map dst_ip (connections (run overflowTrace fullState)))
  ∧ (lastActive (connectionOf 0 (flowPacket 0))
       < lastActive (connectionOf 1 (flowPacket 1)))%Z.
Proof.
  split; [unfold fullState; apply reachable_run; constructor|].
  split; [vm_compute; reflexivity|].
  split; [vm_compute; reflexivity|].
  split; [vm_compute; reflexivity|].
  split; [vm_compute; reflexivity|].
  split; [vm_compute; reflexivity|].
  split; [|reflexivity].
  apply (bool_decide_unpack _). vm_compute. reflexivity.
Qed.

(** What a flush that has new connections to insert leaves in the store,
    up to the order in which the re-sort of the deltas puts the records. *)
Lemma flush_inserts (now : Z) (s : State) :
  pendingNewConnectionsRef s ≠ [] →
  connections (flushBatchedUpdates now s)
  ≡ₚ map (applyUpdate (pendingConnectionUpdatesRef s))
         (take MAX_CONNECTIONS (pendingNewConnectionsRef s ++ connections s)).
Proof.
  intros Hnew. unfold flushBatchedUpdates; simpl. unfold flushConnections.
  assert ((0 <? length (pendingNewConnectionsRef s))%nat = true) as ->
    by (destruct (pendingNewConnectionsRef s); [done|reflexivity]).
  unfold insertConnections, applyConnectionUpdates.
  destruct (0 <? size (pendingConnectionUpdatesRef s))%nat eqn:E.
  - apply sortByActivity_perm.
  - rewrite (size_zero_empty _ E). by rewrite map_applyUpdate_empty.
Qed.

Lemma flush_inserts_no_delta (now : Z) (s : State) :
  pendingNewConnectionsRef s ≠ [] → pendingConnectionUpdatesRef s = ∅ →
  connections (flushBatchedUpdates now s)
  = take MAX_CONNECTIONS (pendingNewConnectionsRef s ++ connections s).
Proof.
  intros Hnew Hno. unfold flushBatchedUpdates; simpl. unfold flushConnections.
  assert ((0 <? length (pendingNewConnectionsRef s))%nat = true) as ->
    by (destruct (pendingNewConnectionsRef s); [done|reflexivity]).
  by rewrite Hno.
Qed.

(** C2, as amended.  In every reachable state (any sequence of messages,
    flushes, patches, clears and selections from the initial state) the
    store holds at most [MAX_CONNECTIONS] records.  A flush that has new
    connections to insert leaves in the store the first [MAX_CONNECTIONS]
    records of the new batch followed by the previous store, with the deltas
    of the same flush applied to them (and re-sorted); with no delta the
    store is exactly that prefix, the rest of the list is what the flush
    drops, and when the list is in activity order every record kept is at
    least as recently active as every record dropped. *)
Theorem store_within_capacity :
  (∀ s, reachable s → (length (connections s) ≤ MAX_CONNECTIONS)%nat)
  ∧ (∀ now s,
       pendingNewConnectionsRef s ≠ [] →
       connections (flushBatchedUpdates now s)
       ≡ₚ map (applyUpdate (pendingConnectionUpdatesRef s))
              (take MAX_CONNECTIONS (pendingNewConnectionsRef s ++ connections s)))
  ∧ (∀ now s,
       pendingNewConnectionsRef s ≠ [] → pendingConnectionUpdatesRef s = ∅ →
       connections (flushBatchedUpdates now s)
       = take MAX_CONNECTIONS (pendingNewConnectionsRef s ++ connections s)
       ∧ pendingNewConnectionsRef s ++ connections s
         = connections (flushBatchedUpdates now s)
           ++ drop MAX_CONNECTIONS (pendingNewConnectionsRef s ++ connections s)
       ∧ (StronglySorted byActivity (pendingNewConnectionsRef s ++ connections s) →
          ∀ r e, r ∈ connections (flushBatchedUpdates now s) →
                 e ∈ drop MAX_CONNECTIONS (pendingNewConnectionsRef s ++ connections s) →
                 (lastActive e ≤ lastActive r)%Z)).
Proof.
  split; [exact reachable_capacity|]. split; [exact flush_inserts|].
  intros now s Hnew Hno. rewrite (flush_inserts_no_delta now s Hnew Hno).
  split; [done|]. split; [by rewrite take_drop|].
  intros Hs r e Hr He.
  rewrite <- (take_drop MAX_CONNECTIONS (pendingNewConnectionsRef s ++ connections s)) in Hs.
  exact (StronglySorted_app_1_elem_of byActivity _ _ r e Hs Hr He).
Qed.

Lemma store_within_capacity_witness :
  connections (flushBatchedUpdates 50050 overflowingState)
  = take MAX_CONNECTIONS
         (pendingNewConnectionsRef overflowingState ++ connections overflowingState)
  ∧ (lastActive (connectionOf 0 (flowPacket 0))
       ≤ lastActive (connectionOf 50000 (flowPacket 1000)))%Z.
Proof.
  destruct store_within_capacity as (_ & _ & Hflush).
  destruct (Hflush 50050%Z overflowingState) as (Heq & _ & Hkeep).
  - vm_compute. discriminate.
  - vm_compute. reflexivity.
  - split; [exact Heq|].
    apply Hkeep.
    + apply (bool_decide_unpack _). vm_compute. reflexivity.
    + rewrite Heq. vm_compute. apply list_elem_of_here.
    + vm_compute. apply list_elem_of_here.
Defined.

(** ** C6 *)

Lemma filter_all {A} (f : A → bool) (l : list A) :
  length (List.filter f l) = length l → List.filter f l = l.
Proof.
  induction l as [|x l IH]; simpl; [done|].
  destruct (f x); simpl; intros H.
  - f_equal. apply IH. lia.
  - pose proof (filter_length_le f l). lia.
Qed.

(** With nothing buffered the window is pruned all the same. *)
Lemma flushPacketEvents_nothing_new (cutoff : Z) (prev : list PacketEvent) :
  flushPacketEvents cutoff [] prev = List.filter (fresh cutoff) prev.
Proof.
  unfold flushPacketEvents; simpl.
  destruct (length (List.filter (fresh cutoff) prev) =? length prev)%nat eqn:E; simpl;
    [|done].
  apply Nat.eqb_eq in E. symmetry. by apply filter_all.
Qed.

Lemma elem_of_filter_fresh cutoff e (l : list PacketEvent) :
  e ∈ List.filter (fresh cutoff) l → e ∈ l ∧ (cutoff < pe_timestamp e)%Z.
Proof.
  rewrite !list_elem_of_In, filter_In. intros [H1 H2]. split; [done|].
  by apply Z.ltb_lt.
Qed.

Lemma elem_of_flushPacketEvents cutoff newPacketEvents prev e :
  e ∈ flushPacketEvents cutoff newPacketEvents prev →
  (e ∈ prev ∧ (cutoff < pe_timestamp e)%Z) ∨ e ∈ newPacketEvents.
Proof.
  unfold flushPacketEvents.
  destruct (0 <? length newPacketEvents)%nat eqn:En.
  - intros He. apply (subseteq_drop _ _ e) in He.
    apply elem_of_app in He as [He|He]; [left|by right].
    by apply elem_of_filter_fresh.
  - assert (newPacketEvents = []) as -> by (apply Nat.ltb_ge in En; destruct newPacketEvents; simpl in *; [done|lia]).
    pose proof (flushPacketEvents_nothing_new cutoff prev) as Hf.
    unfold flushPacketEvents in Hf; simpl in Hf. rewrite Hf.
    intros He. left. by apply elem_of_filter_fresh.
Qed.

Lemma flushPacketEvents_length cutoff newPacketEvents prev :
  (length prev ≤ MAX_PACKET_EVENTS)%nat →
  (length (flushPacketEvents cutoff newPacketEvents prev) ≤ MAX_PACKET_EVENTS)%nat.
Proof.
  intros H. unfold flushPacketEvents.
  destruct (0 <? length newPacketEvents)%nat.
  - unfold lastn. rewrite length_drop. lia.
  - pose proof (filter_length_le (fresh cutoff) prev).
    destruct (negb _); lia.
Qed.

Lemma step_window_cap (a : Action) (s : State) :
  (length (packetEvents s) ≤ MAX_PACKET_EVENTS)%nat →
  (length (packetEvents (step a s)) ≤ MAX_PACKET_EVENTS)%nat.
Proof.
  intros H. destruct a as [now rnd p|now|c|g| |m| | | |ip data e|h]; simpl;
    try done; try (unfold MAX_PACKET_EVENTS; lia).
  - destruct p as [| |m]; simpl; try done.
    destruct m as [| |st e|ip geo|src dst p i|data|]; simpl; try done.
    + by destruct st, e.
    + by destruct geo.
    + unfold onPacket. by destruct (d_new_flow data && hasGeo data), (hasGeo data).
  - by apply flushPacketEvents_length.
  - unfold lookupIP. by destruct (_ && _).
Qed.

Lemma reachable_window_cap (s : State) :
  reachable s → (length (packetEvents s) ≤ MAX_PACKET_EVENTS)%nat.
Proof.
  induction 1 as [|a s Hs IH]; [simpl; lia|]. by apply step_window_cap.
Qed.

(** C6 as stated fails on the events of the flush itself: they enter the
    window without an age test.  Here the window after the flush at 10000
    holds an event stamped 1000, older than the TTL of 2000. *)
Lemma late_flush_keeps_expired_event :
  reachable (run lateFlushTrace initialState)
  ∧ map pe_timestamp (packetEvents (run lateFlushTrace initialState)) = [1000%Z]
  ∧ (10000 - 1000 > PACKET_EVENT_TTL_MS)%Z.
Proof.
  split; [apply reachable_run; constructor|]. split; [vm_compute; reflexivity|done].
Qed.

Lemma flush_appends (now : Z) (s : State) :
  pendingPacketEventsRef s ≠ [] →
  packetEvents (flushBatchedUpdates now s)
  = lastn MAX_PACKET_EVENTS
          (List.filter (fresh (now - PACKET_EVENT_TTL_MS)) (packetEvents s)
           ++ pendingPacketEventsRef s).
Proof.
  intros Hnew. unfold flushBatchedUpdates; simpl. unfold flushPacketEvents.
  by destruct (pendingPacketEventsRef s).
Qed.

(** The last events of a list are among the last events of the list with
    something put before it. *)
Lemma lastn_app_r {A} (n : nat) (l k : list A) (x : A) :
  x ∈ lastn n k → x ∈ lastn n (l ++ k).
Proof.
  unfold lastn. rewrite length_app. intros Hx.
  destruct (decide (n ≤ length k)%nat) as [Hle|Hgt].
  - rewrite drop_app_ge by lia.
    by replace (length l + length k - n - length l)%nat with (length k - n)%nat by lia.
  - rewrite drop_app_le by lia. apply elem_of_app. right.
    by replace (length k - n)%nat with 0%nat in Hx by lia.
Qed.

(** C6, as amended.  After a flush at [now], every event of the window
    either was in the window before and is younger than the TTL, or is one
    of the events buffered since the previous flush; so the window holds no
    event as old as the TTL when the buffered events are younger than the
    TTL.  The buffered events do enter the window, whatever their age: the
    window is the last [MAX_PACKET_EVENTS] events of the pruned window
    followed by the buffered events, so it holds the last
    [MAX_PACKET_EVENTS] buffered events, and all of them with all of the
    pruned window when that is not more than [MAX_PACKET_EVENTS] events.
    The window is pruned on every flush, also when nothing is buffered.  In
    every reachable state the window holds at most [MAX_PACKET_EVENTS]
    events. *)
Theorem window_pruned_and_capped (now : Z) (s : State) :
  (∀ e, e ∈ packetEvents (flushBatchedUpdates now s) →
        (e ∈ packetEvents s ∧ (now - pe_timestamp e < PACKET_EVENT_TTL_MS)%Z)
        ∨ e ∈ pendingPacketEventsRef s)
  ∧ ((∀ e, e ∈ pendingPacketEventsRef s → (now - pe_timestamp e < PACKET_EVENT_TTL_MS)%Z) →
     ∀ e, e ∈ packetEvents (flushBatchedUpdates now s) →
          (now - pe_timestamp e < PACKET_EVENT_TTL_MS)%Z)
  ∧ (pendingPacketEventsRef s ≠ [] →
     packetEvents (flushBatchedUpdates now s)
     = lastn MAX_PACKET_EVENTS
             (List.filter (fresh (now - PACKET_EVENT_TTL_MS)) (packetEvents s)
              ++ pendingPacketEventsRef s)
     ∧ (∀ e, e ∈ lastn MAX_PACKET_EVENTS (pendingPacketEventsRef s) →
             e ∈ packetEvents (flushBatchedUpdates now s))
     ∧ ((length (List.filter (fresh (now - PACKET_EVENT_TTL_MS)) (packetEvents s))
         + length (pendingPacketEventsRef s) ≤ MAX_PACKET_EVENTS)%nat →
        packetEvents (flushBatchedUpdates now s)
        = List.filter (fresh (now - PACKET_EVENT_TTL_MS)) (packetEvents s)
          ++ pendingPacketEventsRef s))
  ∧ (pendingPacketEventsRef s = [] →
     packetEvents (flushBatchedUpdates now s)
       = List.filter (fresh (now - PACKET_EVENT_TTL_MS)) (packetEvents s))
  ∧ (reachable s →
     (length (packetEvents s) ≤ MAX_PACKET_EVENTS)%nat
     ∧ (length (packetEvents (flushBatchedUpdates now s)) ≤ MAX_PACKET_EVENTS)%nat).
Proof.
  assert (∀ e, e ∈ packetEvents (flushBatchedUpdates now s) →
        (e ∈ packetEvents s ∧ (now - pe_timestamp e < PACKET_EVENT_TTL_MS)%Z)
        ∨ e ∈ pendingPacketEventsRef s) as H1.
  { intros e He. unfold flushBatchedUpdates in He; simpl in He.
    apply elem_of_flushPacketEvents in He as [[He Ht]|He]; [left|by right].
    split; [done|lia]. }
  split; [exact H1|]. split; [|split; [|split]].
  - intros Hnew e He. destruct (H1 e He) as [[_ Ht]|Hp]; [done|by apply Hnew].
  - intros Hnew. rewrite (flush_appends now s Hnew).
    split; [done|]. split.
    + intros e He. by apply lastn_app_r.
    + intros Hlen. unfold lastn. rewrite length_app.
      by replace (_ + _ - MAX_PACKET_EVENTS)%nat with 0%nat by lia.
  - intros Hp. unfold flushBatchedUpdates; simpl. rewrite Hp.
    apply flushPacketEvents_nothing_new.
  - intros Hr. split; [by apply reachable_window_cap|].
    apply (reachable_window_cap (step (Flush now) s)). by constructor.
Qed.

Lemma window_pruned_and_capped_witness :
  packetEvents (flushBatchedUpdates 3050 (run expiryTrace initialState)) = []
  ∧ (length (packetEvents (run expiryTrace initialState)) ≤ MAX_PACKET_EVENTS)%nat
  ∧ Forall (λ e, (10000 - pe_timestamp e < PACKET_EVENT_TTL_MS)%Z)
           (packetEvents (flushBatchedUpdates 10000
              (run [Receive 9990 "0.5"
                      (JSONData (MsgPacket (examplePacket 60 false (Some exampleGeo))))]
                   (run expiryTrace initialState))))
  ∧ packetEventOf 9990 "0.5" (examplePacket 60 false (Some exampleGeo))
    ∈ packetEvents (flushBatchedUpdates 10000
        (run [Receive 9990 "0.5"
                (JSONData (MsgPacket (examplePacket 60 false (Some exampleGeo))))]
             (run expiryTrace initialState))).
Proof.
  destruct (window_pruned_and_capped 3050 (run expiryTrace initialState))
    as (_ & _ & _ & Hprune & Hcap).
  split; [|split; [|split]].
  - rewrite Hprune; reflexivity.
  - apply Hcap. apply reachable_run. constructor.
  - apply Forall_forall.
    apply (window_pruned_and_capped 10000
             (run [Receive 9990 "0.5"
                     (JSONData (MsgPacket (examplePacket 60 false (Some exampleGeo))))]
                  (run expiryTrace initialState))).
    intros e He. vm_compute in He. apply list_elem_of_singleton in He. by subst e.
  - destruct (window_pruned_and_capped 10000
               (run [Receive 9990 "0.5"
                       (JSONData (MsgPacket (examplePacket 60 false (Some exampleGeo))))]
                    (run expiryTrace initialState))) as (_ & _ & Hin & _).
    apply Hin; [discriminate|]. apply list_elem_of_here.
Defined.

(** ** C7 *)

(** C7 as stated fails: the text of a message goes to [JSON.parse] outside
    any [try], so a text that is not JSON makes the handler throw; so does
    the text [null], and a [geo_update] without [geo]. *)
Lemma malformed_message_throws :
  onmessage 1000 "0.5" NotJSON initialState = Thrown SyntaxError
  ∧ onmessage 1000 "0.5" JSONNull initialState = Thrown TypeError
  ∧ onmessage 1000 "0.5" (JSONData (MsgGeoUpdate "8.8.8.8" None)) initialState
      = Thrown TypeError.
Proof. repeat split. Qed.

Lemma patchGeo_geoPatched ip geo c : geoPatched ip geo c (patchGeo ip geo c).
Proof.
  unfold geoPatched, patchGeo.
  by destruct (bool_decide (dst_ip c = ip) && isUnknown (dst_geo c)),
              (bool_decide (src_ip c = ip) && isUnknown (src_geo c)).
Qed.

Lemma patchProcess_processPatched src dst p i c :
  processPatched src dst p i c (patchProcess src dst p i c).
Proof.
  unfold processPatched, patchProcess.
  destruct (_ || _); [|done]. by destruct (noProcess c).
Qed.

Lemma Forall2_map_of {A} (P : A → A → Prop) (f : A → A) (l : list A) :
  (∀ x, P x (f x)) → Forall2 P l (map f l).
Proof. intros H. induction l; simpl; by constructor. Qed.

(** C7, as amended.  On a message of the protocol (the text parses to an
    object whose fields have the types that the capture service writes, a
    [geo_update] carrying its [geo]) the handler returns, and the message
    does what its type prescribes: a [packet] is counted in the stats
    buffer and, when it has a geo, buffered as an event and as a new
    connection or a delta, the store being left alone; a [geo_update] or a
    [process_update] patches the records of the store and leaves the buffers
    alone; an [error] stops the capture; a message of another type changes
    nothing.  On a text that is not JSON, on [null] and on a [geo_update]
    without [geo] the handler throws and the state is as it was before the
    message.  On a packet one of whose addresses cannot be converted to a
    string, and which has a geo, the handler throws after it has counted the
    packet in the stats buffer. *)
Theorem ingestion_returns_on_readable (now : Z) (rnd : string) (s : State) :
  (∀ m, readable m →
        ∃ s', handleMessage now rnd (Delivered (JSONData m)) s = (s', None)
              ∧ length (connections s') = length (connections s)
              ∧ packetEvents s' = packetEvents s
              ∧ stats s' = stats s
              ∧ (connections s' = connections s ∨ pendingOf s' = pendingOf s))
  ∧ (∀ d, handleMessage now rnd (Delivered (JSONData (MsgPacket d))) s
          = (onPacket now rnd d s, None)
          ∧ connections (onPacket now rnd d s) = connections s
          ∧ pendingStatsRef (onPacket now rnd d s)
            = addStats (pendingStatsRef s) (packetStats d)
          ∧ pendingPacketEventsRef (onPacket now rnd d s)
            = (if hasGeo d then pendingPacketEventsRef s ++ [packetEventOf now rnd d]
               else pendingPacketEventsRef s)
          ∧ pendingNewConnectionsRef (onPacket now rnd d s)
            = (if d_new_flow d && hasGeo d
               then pendingNewConnectionsRef s ++ [connectionOf now d]
               else pendingNewConnectionsRef s)
          ∧ pendingConnectionUpdatesRef (onPacket now rnd d s)
            = (if negb (d_new_flow d) && hasGeo d
               then accumulate now d (pendingConnectionUpdatesRef s)
               else pendingConnectionUpdatesRef s))
  ∧ (∀ ip geo,
       ∃ s', handleMessage now rnd (Delivered (JSONData (MsgGeoUpdate ip (Some geo)))) s
             = (s', None)
             ∧ pendingOf s' = pendingOf s
             ∧ Forall2 (geoPatched ip geo) (connections s) (connections s'))
  ∧ (∀ src dst p i,
       ∃ s', handleMessage now rnd (Delivered (JSONData (MsgProcessUpdate src dst p i))) s
             = (s', None)
             ∧ pendingOf s' = pendingOf s
             ∧ Forall2 (processPatched src dst p i) (connections s) (connections s'))
  ∧ handleMessage now rnd (Delivered (JSONData MsgError)) s = (setCapturing false s, None)
  ∧ handleMessage now rnd (Delivered (JSONData MsgSession)) s = (s, None)
  ∧ handleMessage now rnd (Delivered (JSONData MsgOther)) s = (s, None)
  ∧ handleMessage now rnd (Delivered NotJSON) s = (s, Some SyntaxError)
  ∧ handleMessage now rnd (Delivered JSONNull) s = (s, Some TypeError)
  ∧ (∀ ip, handleMessage now rnd (Delivered (JSONData (MsgGeoUpdate ip None))) s
           = (s, Some TypeError))
  ∧ (∀ o, odd_has_geo o = true →
          ∃ s', handleMessage now rnd (DeliveredOdd o) s = (s', Some TypeError)
                ∧ pendingStatsRef s'
                  = addStats (pendingStatsRef s)
                             (mkStats 1 (if odd_new_flow o then 1 else 0)
                                      (lengthOr0 (odd_length o)))
                ∧ pendingStatsRef s' ≠ pendingStatsRef s
                ∧ connections s' = connections s
                ∧ packetEvents s' = packetEvents s
                ∧ stats s' = stats s
                ∧ pendingPacketEventsRef s' = pendingPacketEventsRef s
                ∧ pendingNewConnectionsRef s' = pendingNewConnectionsRef s
                ∧ pendingConnectionUpdatesRef s' = pendingConnectionUpdatesRef s).
Proof.
  split_and!; try done.
  - intros m Hm. destruct m as [| |st e|ip geo|src dst p i|data|]; simpl.
    + eexists. split; [done|]. simpl. auto.
    + eexists. split; [done|]. auto.
    + destruct st; [| |destruct e]; eexists; (split; [done|]); simpl; auto.
    + destruct geo as [geo|]; [|done].
      eexists. split; [done|]. simpl. rewrite length_map. auto.
    + eexists. split; [done|]. simpl. rewrite length_map. auto.
    + eexists. split; [done|]. unfold onPacket.
      destruct (d_new_flow data && hasGeo data), (hasGeo data); simpl; auto.
    + eexists. split; [done|]. auto.
  - intros d. split; [done|]. unfold onPacket.
    by destruct (d_new_flow d), (hasGeo d).
  - intros ip geo. eexists. split; [done|]. split; [done|]. simpl.
    apply Forall2_map_of. intros c. apply patchGeo_geoPatched.
  - intros src dst p i. eexists. split; [done|]. split; [done|]. simpl.
    apply Forall2_map_of. intros c. apply patchProcess_processPatched.
  - intros o Ho. unfold handleMessage. rewrite Ho. eexists. split; [done|].
    simpl. split_and!; try done.
    destruct (pendingStatsRef s) as [pk fl by_]. unfold addStats; simpl.
    intros [= H _ _]. lia.
Qed.

Lemma ingestion_returns_on_readable_witness :
  (∃ s', handleMessage 1000 "0.5"
           (Delivered (JSONData (MsgGeoUpdate "8.8.8.8" (Some exampleGeo)))) exampleState
         = (s', None)
         ∧ length (connections s') = 1%nat)
  ∧ (∃ s', handleMessage 1000 "0.5" (DeliveredOdd (mkOddPacket false (Some 60%N) true))
             exampleState
           = (s', Some TypeError)
           ∧ pendingStatsRef s' = mkStats 1 0 60).
Proof.
  destruct (ingestion_returns_on_readable 1000 "0.5" exampleState)
    as (H & _ & _ & _ & _ & _ & _ & _ & _ & _ & Hodd).
  split.
  - destruct (H (MsgGeoUpdate "8.8.8.8" (Some exampleGeo))) as (s' & Hs & Hl & _).
    + exact I.
    + exists s'. split; [exact Hs|exact Hl].
  - destruct (Hodd (mkOddPacket false (Some 60%N) true)) as (s' & Hs & Hst & _).
    + reflexivity.
    + exists s'. split; [exact Hs|exact Hst].
Defined.

(** ** C9 *)

(** C9 as stated fails: selecting a connection leaves the selected arc
    group in place, and both filters are then active. *)
Lemma both_selections_active :
  reachable (run arcThenRow initialState)
  ∧ selectedArcGroupKey (run arcThenRow initialState) = Some "42.1,-71.3-42.1,-71.3"
  ∧ selectedConnectionId (run arcThenRow initialState)
      = Some "10.0.0.5-93.184.216.34-1000".
Proof.
  split; [apply reachable_run; constructor|]. split; reflexivity.
Qed.

(** C9, as amended.  Selecting an arc group sets the selected key (to
    nothing when there is no group or its key is empty) and clears the
    connection id.  Selecting a connection sets the connection id and
    leaves the selected key as it was.  So an arc-group selection made
    after a connection selection stands alone, and a connection selection
    made after an arc-group selection stands with it. *)
Theorem selection_updates (s : State) :
  (∀ group,
     selectedArcGroupKey (handleSelectArcGroup group s) = group ≫= (λ g, nonEmpty (key g))
     ∧ selectedConnectionId (handleSelectArcGroup group s) = None)
  ∧ (∀ conn,
     selectedConnectionId (handleSelectConnection conn s)
       = conn ≫= (λ c, nonEmpty (conn_id c))
     ∧ selectedArcGroupKey (handleSelectConnection conn s) = selectedArcGroupKey s)
  ∧ (∀ group conn,
     selectedArcGroupKey (handleSelectConnection conn (handleSelectArcGroup group s))
       = group ≫= (λ g, nonEmpty (key g))
     ∧ selectedConnectionId (handleSelectConnection conn (handleSelectArcGroup group s))
       = conn ≫= (λ c, nonEmpty (conn_id c))).
Proof. repeat split. Qed.

(** ** The aggregation *)

Lemma forEach_invariant {A S} (I : S → Prop) (f : S → A → Outcome S) (l : list A) :
  (∀ acc a acc', I acc → f acc a = Returned acc' → I acc') →
  ∀ acc r, I acc → forEach f l acc = Returned r → I r.
Proof.
  intros Hf. induction l as [|a l IH]; intros acc r Hacc H; simpl in H.
  - by inversion H; subst.
  - destruct (f acc a) as [acc'|e] eqn:E; simpl in H; [|done].
    eapply IH; [|exact H]. by eapply Hf.
Qed.




Lemma skippedGeo_unusable (g : option GeoPoint) : skippedGeo g → unusableGeo g.
Proof. destruct g as [g|]; [|done]. simpl. tauto. Qed.




Section AggregationProperties.

Variable toFixed : R → string.
Variable home : option GeoPoint.











End AggregationProperties.

(** The home location stands in for the missing geo of an end; a latitude
    without a longitude makes the derivation throw. *)
Example activeArcGroups_examples :
  map key <$> arcGroups constFixed [exampleConnection 100 1 1000] None = Returned []
  ∧ map key <$> arcGroups constFixed [exampleConnection 100 1 1000] (Some farGeo)
    = Returned ["0.0,0.0-0.0,0.0"]
  ∧ map key <$> appGroups constFixed [resolvedConnection] None
    = Returned ["dig-0.0,0.0"]
  ∧ arcGroups constFixed [halfConnection] None = Thrown TypeError.
Proof. repeat split. Qed.

(** ** C4 *)

Section Symmetry.

Variable toFixed : R → string.
Variable home : option GeoPoint.

Lemma hasGroup_summary k gs gs' :
  map summary gs = map summary gs' → hasGroup k gs = hasGroup k gs'.
Proof.
  revert gs'. induction gs as [|g gs IH]; intros [|g' gs'] H; simpl in *; try done.
  injection H as Hk Hb Hp Hl Hgs. by rewrite (IH gs' Hgs), Hk.
Qed.

Lemma addToGroup_summary k c c' gs gs' :
  bytes c = bytes c' → packets c = packets c' →
  map summary gs = map summary gs' →
  map summary (addToGroup k c gs) = map summary (addToGroup k c' gs').
Proof.
  intros Hb Hp. revert gs'.
  induction gs as [|g gs IH]; intros [|g' gs'] H; simpl in *; try done.
  injection H as Hk Hgb Hgp Hgl Hgs.
  rewrite Hk. destruct (bool_decide (key g' = k)); simpl.
  - f_equal; [|done]. unfold summary. simpl. rewrite !length_app. simpl.
    by rewrite Hk, Hgb, Hgp, Hgl, Hb, Hp.
  - f_equal; [unfold summary; by rewrite Hk, Hgb, Hgp, Hgl|]. by apply IH.
Qed.

Lemma record_summary f f' c c' gs gs' :
  summary f = summary f' → bytes c = bytes c' → packets c = packets c' →
  map summary gs = map summary gs' →
  map summary (record f c gs) = map summary (record f' c' gs').
Proof.
  intros Hf Hb Hp Hg. unfold record.
  assert (key f = key f') as Hk by (unfold summary in Hf; by injection Hf).
  rewrite Hk, (hasGroup_summary (key f') gs gs' Hg).
  apply addToGroup_summary; [done..|].
  destruct (hasGroup (key f') gs'); [done|].
  rewrite !map_app. simpl. by rewrite Hg, Hf.
Qed.

(** One record and its mirror image take related stores to related stores,
    or both throw. *)
Lemma arcGroupsStep_swapEnds gs gs' c :
  map summary gs = map summary gs' →
  map summary <$> arcGroupsStep toFixed home gs' (swapEnds c)
  = map summary <$> arcGroupsStep toFixed home gs c.
Proof.
  intros Hg. unfold arcGroupsStep. simpl.
  destruct (orElse (src_geo c) home) as [s|] eqn:Es;
    destruct (orElse (dst_geo c) home) as [d|] eqn:Ed;
    simpl; try (by rewrite Hg).
  unfold coordKey.
  destruct (pending s), (pending d), (lat s) as [las|], (lon s) as [los|],
           (lat d) as [lad|], (lon d) as [lod|];
    simpl; try (by rewrite Hg); try done.
  f_equal. apply record_summary; try done.
  unfold summary; simpl. by rewrite pairKey_comm.
Qed.

Lemma forEach_swapEnds conns gs gs' :
  map summary gs = map summary gs' →
  map summary <$> forEach (arcGroupsStep toFixed home) (map swapEnds conns) gs'
  = map summary <$> forEach (arcGroupsStep toFixed home) conns gs.
Proof.
  revert gs gs'. induction conns as [|c conns IH]; intros gs gs' Hg; simpl.
  - by rewrite Hg.
  - pose proof (arcGroupsStep_swapEnds gs gs' c Hg) as Hs.
    destruct (arcGroupsStep toFixed home gs' (swapEnds c)) as [a'|e'],
             (arcGroupsStep toFixed home gs c) as [a|e]; simpl in *; try done.
    apply IH. by injection Hs.
Qed.

End Symmetry.

(** C4.  In location mode, the derivation over the store with the ends of
    every connection exchanged gives the groups of the derivation over the
    store itself: the same keys in the same order, and under each key the
    same [totalBytes], [totalPackets] and number of member connections (and
    the one throws exactly when the other does). *)
Theorem arcGroups_direction_symmetric (toFixed : R → string)
    (conns : list Connection) (home : option GeoPoint) :
  map summary <$> arcGroups toFixed (map swapEnds conns) home
  = map summary <$> arcGroups toFixed conns home.
Proof. unfold arcGroups. by apply forEach_swapEnds. Qed.

(** The mirror image of a connection from the example host to Paris falls in
    the group of the connection itself. *)
Example arcGroups_symmetric_example :
  map summary <$> arcGroups constFixed [resolvedConnection; swapEnds resolvedConnection] None
  = Returned [("0.0,0.0-0.0,0.0", 20%N, 2%N, 2%nat)].
Proof. reflexivity. Qed.

(** ** C5: planar hit-testing *)

Section HitTesting.

Local Open Scope R_scope.

Lemma ltR_true (a b : R) : a < b → ltR a b = true.
Proof. intros H. unfold ltR. by destruct (Rlt_dec a b). Qed.

Lemma ltR_false (a b : R) : b <= a → ltR a b = false.
Proof. intros H. unfold ltR. destruct (Rlt_dec a b); [lra|done]. Qed.

Lemma distTo_self (q : Point) : distTo (px q) (py q) q = 0.
Proof.
  unfold distTo.
  replace ((px q - px q) ^ 2 + (py q - py q) ^ 2) with 0 by ring.
  apply sqrt_0.
Qed.

Lemma nodeHitRadius_min (z : R) : 24 <= nodeHitRadius z.
Proof. unfold nodeHitRadius. pose proof (Rmax_l 1 (z * 0.5)). lra. Qed.


Lemma nodeHit_on_node (q : Point) (z : R) : nodeHit (px q) (py q) z (Some q) = true.
Proof.
  simpl. apply ltR_true. rewrite distTo_self. pose proof (nodeHitRadius_min z). lra.
Qed.

(** The sample count is between 20 and 100. *)
Lemma numSamples_bounds (d : R) : (20 ≤ numSamples d ≤ 100)%nat.
Proof. unfold numSamples. lia. Qed.

(** The loop over [t] has run to its end before the fuel is used up. *)
Lemma loopParams_enough (fuel k : nat) (t step : R) :
  0 < step → 1 < t + INR fuel * step →
  loopParams (fuel + k) t step = loopParams fuel t step.
Proof.
  intros Hs. revert t. induction fuel as [|fuel IH]; intros t Ht.
  - simpl in Ht. destruct k; simpl; [done|]. destruct (Rle_dec t 1); [lra|done].
  - simpl. destruct (Rle_dec t 1); [|done]. f_equal. apply IH.
    rewrite S_INR in Ht. lra.
Qed.

Lemma loopParams_fuel (d : R) (k : nat) :
  loopParams (102 + k) 0 (1 / INR (numSamples d))
  = loopParams 102 0 (1 / INR (numSamples d)).
Proof.
  pose proof (numSamples_bounds d) as [Hlo Hhi].
  assert (20 <= INR (numSamples d) <= 100) as [H1 H2].
  { rewrite INR_IZR_INZ. split; apply IZR_le; lia. }
  assert (/ 100 <= / INR (numSamples d)) as Hinv.
  { apply Rinv_le_contravar; lra. }
  assert (0 < / INR (numSamples d)) by (apply Rinv_0_lt_compat; lra).
  assert (INR 102 = 102) as H102 by (rewrite INR_IZR_INZ; apply f_equal; reflexivity).
  apply loopParams_enough; unfold Rdiv; [lra|].
  rewrite H102. lra.
Qed.

Variables (w h currentZoom : R) (currentPan : Point).

Abbreviation hits mouseX mouseY := (groupHit mouseX mouseY w h currentZoom currentPan).

(** A group answers a pointer that sits on one of its two nodes. *)
Lemma groupHit_on_node (g : ArcGroup) (sg dg : GeoPoint) (q : Point) :
  srcGeo g = Some sg → dstGeo g = Some dg →
  toXYgeo sg w h currentZoom currentPan = Some q
  ∨ toXYgeo dg w h currentZoom currentPan = Some q →
  hits (px q) (py q) g = true.
Proof.
  intros Hs Hd Hq. unfold groupHit. rewrite Hs, Hd.
  destruct Hq as [-> | ->]; rewrite nodeHit_on_node; simpl; [done|].
  by rewrite orb_true_r.
Qed.

(** A group does not answer a pointer that is out of reach of its nodes and
    of the samples of its arc. *)
Lemma groupHit_out_of_reach (mouseX mouseY : R) (g : ArcGroup) :
  (∀ sg dg q, srcGeo g = Some sg → dstGeo g = Some dg →
     toXYgeo sg w h currentZoom currentPan = Some q
     ∨ toXYgeo dg w h currentZoom currentPan = Some q →
     nodeHitRadius currentZoom <= distTo mouseX mouseY q) →
  (∀ sg dg s d q, srcGeo g = Some sg → dstGeo g = Some dg →
     toXYgeo sg w h currentZoom currentPan = Some s →
     toXYgeo dg w h currentZoom currentPan = Some d →
     q ∈ arcSamples s d →
     hitRadius currentZoom <= distTo mouseX mouseY q) →
  hits mouseX mouseY g = false.
Proof.
  intros Hn Ha. unfold groupHit.
  destruct (srcGeo g) as [sg|] eqn:Es; [|done].
  destruct (dstGeo g) as [dg|] eqn:Ed; [|done].
  specialize (Hn sg dg). specialize (Ha sg dg).
  assert (nodeHit mouseX mouseY currentZoom (toXYgeo sg w h currentZoom currentPan) = false)
    as ->.
  { destruct (toXYgeo sg w h currentZoom currentPan) as [q|]; simpl; [|done].
    apply ltR_false. apply Hn; auto. }
  assert (nodeHit mouseX mouseY currentZoom (toXYgeo dg w h currentZoom currentPan) = false)
    as ->.
  { destruct (toXYgeo dg w h currentZoom currentPan) as [q|]; simpl; [|done].
    apply ltR_false. apply Hn; auto. }
  simpl. unfold arcHit.
  destruct (toXYgeo sg w h currentZoom currentPan) as [s|]; [|done].
  destruct (toXYgeo dg w h currentZoom currentPan) as [d|]; [|done].
  apply not_true_is_false. intros Hex. apply existsb_exists in Hex as (q & Hq & Hlt).
  rewrite ltR_false in Hlt; [done|].
  apply (Ha s d q); auto. by apply list_elem_of_In.
Qed.



Lemma find_all_false {A} (f : A → bool) (l : list A) :
  (∀ x, x ∈ l → f x = false) → List.find f l = None.
Proof.
  induction l as [|x l IH]; intros H; simpl; [done|].
  rewrite (H x) by apply list_elem_of_here.
  apply IH. intros y Hy. apply H. by apply list_elem_of_further.
Qed.


End HitTesting.

Section HitTestingExamples.

Local Open Scope R_scope.




Lemma loopParams_range (fuel : nat) (t0 step t : R) :
  0 <= t0 → 0 <= step → t ∈ loopParams fuel t0 step → 0 <= t <= 1.
Proof.
  revert t0. induction fuel as [|fuel IH]; intros t0 H0 Hs Ht; simpl in Ht.
  - by apply elem_of_nil in Ht.
  - destruct (Rle_dec t0 1); [|by apply elem_of_nil in Ht].
    apply elem_of_cons in Ht as [->|Ht]; [lra|].
    apply (IH (t0 + step)); [lra|done|done].
Qed.




End HitTestingExamples.

(** ** C8: curves on the sphere *)

Section ArcCurves.

Local Open Scope R_scope.

Lemma latLonToVector3_unit (la lo : R) : lengthSq (latLonToVector3 la lo 1) = 1.
Proof.
  unfold lengthSq, dot, latLonToVector3. cbn [vx vy vz].
  set (phi := (90 - la) * (PI / 180)). set (theta := (lo + 180) * (PI / 180)).
  pose proof (sin2_cos2 phi) as Hp. pose proof (sin2_cos2 theta) as Ht.
  unfold Rsqr in Hp, Ht.
  replace (- (1) * sin phi * cos theta * (- (1) * sin phi * cos theta)
           + 1 * cos phi * (1 * cos phi)
           + 1 * sin phi * sin theta * (1 * sin phi * sin theta))
    with (sin phi * sin phi * (sin theta * sin theta + cos theta * cos theta)
          + cos phi * cos phi) by ring.
  rewrite Ht. lra.
Qed.

Lemma normalize_unit (v : Vector3) : lengthSq v = 1 → normalize v = v.
Proof.
  intros H. unfold normalize, vlength. rewrite H, sqrt_1.
  destruct (Req_dec_T 1 0); [lra|].
  destruct v as [x y z]. unfold multiplyScalar; simpl. f_equal; field.
Qed.

Lemma angleTo_unit (a b : Vector3) :
  lengthSq a = 1 → lengthSq b = 1 → angleTo a b = acos (clamp (dot a b) (-1) 1).
Proof.
  intros Ha Hb. unfold angleTo. rewrite Ha, Hb, Rmult_1_r, sqrt_1.
  destruct (Req_dec_T 1 0); [lra|]. f_equal. f_equal. field.
Qed.

Lemma arcAngle_unit (startLat startLon endLat endLon : R) :
  arcAngle startLat startLon endLat endLon
  = acos (clamp (dot (latLonToVector3 startLat startLon 1)
                     (latLonToVector3 endLat endLon 1)) (-1) 1).
Proof.
  unfold arcAngle.
  rewrite !normalize_unit by apply latLonToVector3_unit.
  apply angleTo_unit; apply latLonToVector3_unit.
Qed.

(** Two coincident ends are at angle 0. *)
Lemma arcAngle_coincident (la lo : R) : arcAngle la lo la lo = 0.
Proof.
  rewrite arcAngle_unit.
  change (dot (latLonToVector3 la lo 1) (latLonToVector3 la lo 1))
    with (lengthSq (latLonToVector3 la lo 1)).
  rewrite latLonToVector3_unit. unfold clamp.
  rewrite Rmin_left by lra. rewrite Rmax_right by lra. apply acos_1.
Qed.

Lemma latLonToVector3_0_0 : latLonToVector3 0 0 1 = mkVector3 1 0 0.
Proof.
  unfold latLonToVector3.
  replace ((90 - 0) * (PI / 180)) with (PI / 2) by field.
  replace ((0 + 180) * (PI / 180)) with PI by field.
  rewrite sin_PI2, cos_PI2, cos_PI, sin_PI. f_equal; ring.
Qed.

Lemma latLonToVector3_0_180 : latLonToVector3 0 180 1 = mkVector3 (-1) 0 0.
Proof.
  unfold latLonToVector3.
  replace ((90 - 0) * (PI / 180)) with (PI / 2) by field.
  replace ((180 + 180) * (PI / 180)) with (2 * PI) by field.
  rewrite sin_PI2, cos_PI2, cos_2PI, sin_2PI. f_equal; ring.
Qed.

(** The two ends of a diameter are at angle [PI]. *)
Lemma arcAngle_antipodal : arcAngle 0 0 0 180 = PI.
Proof.
  rewrite arcAngle_unit, latLonToVector3_0_0, latLonToVector3_0_180.
  unfold dot, clamp. cbn [vx vy vz].
  replace (1 * -1 + 0 * 0 + 0 * 0) with (-1) by ring.
  rewrite Rmin_right by lra. rewrite Rmax_left by lra.
  replace (-1) with (- (1)) by ring. rewrite acos_opp, acos_1. ring.
Qed.

(** C8, on the code as it is.  For two coincident ends the angle is 0 and
    the curve is the quadratic fallback.  For the two ends of a diameter,
    (0, 0) and (0, 180), the angle is [PI], which is not below 0.01: the
    curve is not the fallback but the interpolated one, each of whose 33
    points is a quotient by [sin PI], which is 0. *)
Theorem antipodal_ends_miss_the_fallback :
  (∀ la lo, arcAngle la lo la lo = 0
            ∧ ∃ v0 v1 v2, createArcCurve la lo la lo = QuadraticBezierCurve3 v0 v1 v2)
  ∧ arcAngle 0 0 0 180 = PI
  ∧ ¬ (arcAngle 0 0 0 180 < 0.01)
  ∧ sin (arcAngle 0 0 0 180) = 0
  ∧ (∃ points, createArcCurve 0 0 0 180 = CatmullRomCurve3 points
               ∧ length points = 33%nat).
Proof.
  pose proof PI2_1 as Hpi.
  split; [|split; [|split; [|split]]].
  - intros la lo. split; [apply arcAngle_coincident|].
    unfold createArcCurve. cbv zeta.
    change (angleTo (normalize (latLonToVector3 la lo 1))
                    (normalize (latLonToVector3 la lo 1)))
      with (arcAngle la lo la lo).
    rewrite arcAngle_coincident.
    destruct (Rlt_dec 0 0.01); [|lra]. by eexists _, _, _.
  - apply arcAngle_antipodal.
  - rewrite arcAngle_antipodal. lra.
  - rewrite arcAngle_antipodal. apply sin_PI.
  - unfold createArcCurve. cbv zeta.
    change (angleTo (normalize (latLonToVector3 0 0 1))
                    (normalize (latLonToVector3 0 180 1)))
      with (arcAngle 0 0 0 180).
    rewrite arcAngle_antipodal.
    destruct (Rlt_dec PI 0.01); [lra|].
    eexists. split; [reflexivity|]. by rewrite length_map.
Qed.

End ArcCurves.

(** * Further properties of the code *)

(** ** The flush and its buffers *)





(** ** The counters *)

Lemma addStats_assoc (a b c : Stats) :
  addStats (addStats a b) c = addStats a (addStats b c).
Proof. unfold addStats; simpl. f_equal; lia. Qed.

Lemma addStats_zero (a : Stats) : addStats a zeroStats = a.
Proof. destruct a. unfold addStats; simpl. f_equal; lia. Qed.

Lemma statsOf_snoc (events : list (Z * PacketData)) (e : Z * PacketData) :
  statsOf (events ++ [e]) = addStats (statsOf events) (packetStats e.2).
Proof.
  unfold statsOf, addStats, packetStats; simpl.
  rewrite List.filter_app, !length_app. simpl.
  assert (sumLengths (events ++ [e]) = (sumLengths events + lengthOr0 (d_length e.2))%N) as ->.
  { induction events as [|x xs IH]; simpl; [lia|]. rewrite IH. lia. }
  destruct (d_new_flow e.2); simpl; f_equal; lia.
Qed.

Lemma statsView_step (a : Action) (s : State) :
  trafficAction a →
  statsView (step a s) = addStats (statsView s) (statsOf (eventsOf [a])).
Proof.
  intros Ha.
  destruct a as [now rnd p|now|c|g| |m| | | |ip data e|h]; simpl in Ha; try done.
  - destruct p as [| |m]; try done. destruct m as [| | | | |data|]; try done.
    change (eventsOf [Receive now rnd (JSONData (MsgPacket data))]) with ([] ++ [(now, data)]).
    rewrite statsOf_snoc. unfold statsView. simpl.
    assert (stats (onPacket now rnd data s) = stats s
            ∧ pendingStatsRef (onPacket now rnd data s)
              = addStats (pendingStatsRef s) (packetStats data)) as [-> ->].
    { unfold onPacket. by destruct (d_new_flow data && hasGeo data), (hasGeo data). }
    unfold statsOf; simpl. rewrite !addStats_assoc. f_equal.
  - unfold statsView. simpl. rewrite flushStats_add.
    change (statsOf []) with zeroStats. rewrite addStats_zero.
    destruct (pendingStatsRef s) as [p f b], (stats s) as [p' f' b'].
    unfold anyStats, addStats, zeroStats; simpl.
    destruct (0 <? p)%N eqn:Ep, (0 <? f)%N eqn:Ef, (0 <? b)%N eqn:Eb; simpl;
      try (f_equal; lia).
    apply N.ltb_ge in Ep, Ef, Eb. f_equal; lia.
Qed.

Lemma statsOf_app (ev1 ev2 : list (Z * PacketData)) :
  statsOf (ev1 ++ ev2) = addStats (statsOf ev1) (statsOf ev2).
Proof.
  induction ev2 as [|e ev2 IH] using rev_ind.
  - rewrite app_nil_r. change (statsOf []) with zeroStats. by rewrite addStats_zero.
  - rewrite app_assoc, !statsOf_snoc, IH. by rewrite addStats_assoc.
Qed.

Lemma statsView_run (tr : list Action) (s : State) :
  Forall trafficAction tr →
  statsView (run tr s) = addStats (statsView s) (statsOf (eventsOf tr)).
Proof.
  intros Htr. revert s. induction Htr as [|a tr Ha Htr IH]; intros s.
  - simpl. change (statsOf []) with zeroStats. by rewrite addStats_zero.
  - change (run (a :: tr) s) with (run tr (step a s)).
    rewrite IH, (statsView_step a s Ha), (eventsOf_cons a tr), statsOf_app.
    by rewrite addStats_assoc.
Qed.

(** X2.  The counters miss no packet.  Over any stretch of packets and
    flushes, whatever the packets carry (geo or not, a new flow or not), the
    counters together with what is buffered for them grow by one per packet,
    by one per packet that opens a flow and by the length of every packet;
    once the stretch is closed by a flush, the counters themselves have
    grown by that much. *)
Theorem stats_count_every_packet (tr : list Action) (now : Z) (s : State) :
  Forall trafficAction tr →
  statsView (run tr s) = addStats (statsView s) (statsOf (eventsOf tr))
  ∧ stats (run (tr ++ [Flush now]) s)
    = addStats (statsView s) (statsOf (eventsOf tr)).
Proof.
  intros Htr. split; [by apply statsView_run|].
  rewrite run_app. simpl. unfold flushBatchedUpdates; simpl.
  rewrite flushStats_add. fold (statsView (run tr s)). by apply statsView_run.
Qed.

Lemma stats_count_every_packet_witness :
  stats (run (geolessTrace ++ [Flush 2050]) exampleState) = mkStats 1 0 250.
Proof.
  destruct (stats_count_every_packet geolessTrace 2050 exampleState) as [_ H].
  - repeat constructor.
  - rewrite H. reflexivity.
Defined.

(** ** New flows *)

Lemma recordsOf_snoc (events : list (Z * PacketData)) (e : Z * PacketData) :
  recordsOf (events ++ [e])
  = recordsOf events ++ (if hasGeo e.2 then [connectionOf e.1 e.2] else []).
Proof.
  unfold recordsOf. rewrite List.filter_app, map_app. simpl.
  by destruct (hasGeo e.2).
Qed.

Lemma recordsOf_cons (e : Z * PacketData) (events : list (Z * PacketData)) :
  recordsOf (e :: events)
  = (if hasGeo e.2 then [connectionOf e.1 e.2] else []) ++ recordsOf events.
Proof. unfold recordsOf. simpl. by destruct (hasGeo e.2). Qed.

Lemma newFlows_run (tr : list Action) (s : State) :
  Forall newFlowAction tr →
  connections (run tr s) = connections s
  ∧ pendingConnectionUpdatesRef (run tr s) = pendingConnectionUpdatesRef s
  ∧ pendingNewConnectionsRef (run tr s)
    = pendingNewConnectionsRef s ++ recordsOf (eventsOf tr).
Proof.
  intros Htr. revert s. induction Htr as [|a tr Ha Htr IH]; intros s.
  - simpl. by rewrite app_nil_r.
  - change (run (a :: tr) s) with (run tr (step a s)).
    destruct (IH (step a s)) as (Hc & Hu & Hn). rewrite Hc, Hu, Hn.
    destruct a as [now rnd p|now|c|g| |m| | | |ip data e|h]; simpl in Ha; try done.
    destruct p as [| |m]; try done. destruct m as [| | | | |data|]; try done.
    simpl. unfold onPacket. rewrite Ha. simpl.
    rewrite recordsOf_cons. simpl.
    destruct (hasGeo data); simpl; [|done].
    by rewrite <- app_assoc.
Qed.

(** X3.  New flows go to the head of the store in the order in which they
    arrived.  After a stretch of packets that open flows, closed by a flush,
    the store is the records of those of them that carry geo for an end
    (each with the length of its packet as [bytes], one packet, and the time
    of arrival as [lastActive]), oldest first, followed by the store as it
    was, cut to [MAX_CONNECTIONS].  A packet that opens a flow without any geo
    leaves no record. *)
Theorem new_flows_prepended_in_arrival_order (tr : list Action) (now : Z) (s : State) :
  Forall newFlowAction tr →
  pendingNewConnectionsRef s = [] →
  pendingConnectionUpdatesRef s = ∅ →
  (length (connections s) ≤ MAX_CONNECTIONS)%nat →
  connections (run (tr ++ [Flush now]) s)
  = take MAX_CONNECTIONS (recordsOf (eventsOf tr) ++ connections s).
Proof.
  intros Htr Hn Hu Hlen.
  destruct (newFlows_run tr s Htr) as (Hc & Hu' & Hn').
  rewrite run_app. simpl. unfold flushBatchedUpdates; simpl.
  unfold flushConnections. rewrite Hc, Hu', Hn', Hu, Hn. simpl.
  destruct (recordsOf (eventsOf tr)) as [|r rs] eqn:E; simpl; [|done].
  symmetry. apply take_ge. exact Hlen.
Qed.

Lemma new_flows_prepended_in_arrival_order_witness :
  map (λ c, (dst_ip c, bytes c, packets c, lastActive c))
      (connections (run (twoFlows ++ [Flush 350]) exampleState))
  = [("93.184.0.6", 60%N, 1%N, 300%Z); ("93.184.0.7", 60%N, 1%N, 301%Z);
     ("93.184.216.34", 100%N, 1%N, 1000%Z)].
Proof.
  rewrite (new_flows_prepended_in_arrival_order twoFlows 350 exampleState).
  - reflexivity.
  - repeat constructor.
  - reflexivity.
  - reflexivity.
  - simpl. unfold MAX_CONNECTIONS. lia.
Defined.


(** A flow that is opened just before a clear is in the store after the next
    flush. *)
Example clear_keeps_buffers_example :
  map dst_ip (connections (run [Receive 300 "0.25" (JSONData (MsgPacket (flowPacket 6)));
                                ClearConnections; Flush 350] exampleState))
  = ["93.184.0.6"].
Proof. vm_compute. reflexivity. Qed.

(** ** Enrichment patches *)

Lemma patchGeo_identity ip geo c : identityOf (patchGeo ip geo c) = identityOf c.
Proof.
  unfold patchGeo.
  by destruct (bool_decide (dst_ip c = ip) && isUnknown (dst_geo c)),
              (bool_decide (src_ip c = ip) && isUnknown (src_geo c)).
Qed.

Lemma patchGeo_dst ip geo c :
  dst_geo (patchGeo ip geo c)
  = if bool_decide (dst_ip c = ip) && isUnknown (dst_geo c) then Some geo else dst_geo c.
Proof.
  unfold patchGeo.
  by destruct (bool_decide (dst_ip c = ip) && isUnknown (dst_geo c)),
              (bool_decide (src_ip c = ip) && isUnknown (src_geo c)).
Qed.

Lemma patchGeo_src ip geo c :
  src_geo (patchGeo ip geo c)
  = if bool_decide (src_ip c = ip) && isUnknown (src_geo c) then Some geo else src_geo c.
Proof.
  unfold patchGeo.
  by destruct (bool_decide (dst_ip c = ip) && isUnknown (dst_geo c)),
              (bool_decide (src_ip c = ip) && isUnknown (src_geo c)).
Qed.

Lemma connection_ext (c d : Connection) :
  identityOf c = identityOf d → src_geo c = src_geo d → dst_geo c = dst_geo d →
  process c = process d → pid c = pid d → c = d.
Proof.
  destruct c, d. unfold identityOf; simpl. intros [= -> -> -> -> -> -> -> -> -> ->].
  by intros -> -> -> ->.
Qed.

Lemma patchGeo_process ip geo c :
  process (patchGeo ip geo c) = process c ∧ pid (patchGeo ip geo c) = pid c.
Proof.
  unfold patchGeo.
  by destruct (bool_decide (dst_ip c = ip) && isUnknown (dst_geo c)),
              (bool_decide (src_ip c = ip) && isUnknown (src_geo c)).
Qed.

(** X5.  A [geo_update] replaces the geo of an end exactly when the end has
    the address of the update and its geo is marked unknown, and touches no
    other field.  So an update for an address that no record has (the record
    was evicted, or never made) leaves the store as it is, a resolved geo is
    never overwritten, and an update with a resolved geo has no further
    effect when it comes again. *)
Theorem geo_update_patches_unknown_ends (ip : string) (geo : GeoPoint) :
  (∀ c, identityOf (patchGeo ip geo c) = identityOf c
        ∧ process (patchGeo ip geo c) = process c
        ∧ pid (patchGeo ip geo c) = pid c
        ∧ dst_geo (patchGeo ip geo c)
          = (if bool_decide (dst_ip c = ip) && isUnknown (dst_geo c)
             then Some geo else dst_geo c)
        ∧ src_geo (patchGeo ip geo c)
          = (if bool_decide (src_ip c = ip) && isUnknown (src_geo c)
             then Some geo else src_geo c))
  ∧ (∀ c, isUnknown (src_geo c) = false → isUnknown (dst_geo c) = false →
          patchGeo ip geo c = c)
  ∧ (∀ now rnd s,
       (∀ c, c ∈ connections s → src_ip c ≠ ip ∧ dst_ip c ≠ ip) →
       step (Receive now rnd (JSONData (MsgGeoUpdate ip (Some geo)))) s = s)
  ∧ (unknown geo = false →
     ∀ c, patchGeo ip geo (patchGeo ip geo c) = patchGeo ip geo c).
Proof.
  split; [|split; [|split]].
  - intros c. split; [apply patchGeo_identity|].
    split; [apply patchGeo_process|]. split; [apply patchGeo_process|].
    split; [apply patchGeo_dst|apply patchGeo_src].
  - intros c Hs Hd. unfold patchGeo. rewrite Hs, Hd. by rewrite !andb_false_r.
  - intros now rnd s H. simpl.
    assert (map (patchGeo ip geo) (connections s) = connections s) as Hm.
    { rewrite <- (map_id (connections s)) at 2. apply map_ext_in.
      intros c Hc. apply list_elem_of_In in Hc. destruct (H c Hc) as [Hs Hd].
      unfold patchGeo. by rewrite !bool_decide_eq_false_2. }
    unfold setConnections. rewrite Hm. by destruct s.
  - intros Hg c.
    apply connection_ext.
    + by rewrite !patchGeo_identity.
    + rewrite (patchGeo_src ip geo (patchGeo ip geo c)).
      assert (src_ip (patchGeo ip geo c) = src_ip c) as ->.
      { pose proof (patchGeo_identity ip geo c) as Hi. unfold identityOf in Hi.
        by injection Hi. }
      rewrite patchGeo_src.
      destruct (bool_decide (src_ip c = ip) && isUnknown (src_geo c)) eqn:E; [|by rewrite E].
      simpl. rewrite Hg. by rewrite andb_false_r.
    + rewrite (patchGeo_dst ip geo (patchGeo ip geo c)).
      assert (dst_ip (patchGeo ip geo c) = dst_ip c) as ->.
      { pose proof (patchGeo_identity ip geo c) as Hi. unfold identityOf in Hi.
        by injection Hi. }
      rewrite patchGeo_dst.
      destruct (bool_decide (dst_ip c = ip) && isUnknown (dst_geo c)) eqn:E; [|by rewrite E].
      simpl. rewrite Hg. by rewrite andb_false_r.
    + by rewrite !(proj1 (patchGeo_process _ _ _)).
    + by rewrite !(proj2 (patchGeo_process _ _ _)).
Qed.

Lemma geo_update_patches_unknown_ends_witness :
  step (Receive 1000 "0.5" (JSONData (MsgGeoUpdate "1.2.3.4" (Some farGeo)))) exampleState
  = exampleState
  ∧ patchGeo "8.8.8.8" farGeo resolvedConnection = resolvedConnection.
Proof.
  destruct (geo_update_patches_unknown_ends "1.2.3.4" farGeo) as (_ & _ & Hrace & _).
  destruct (geo_update_patches_unknown_ends "8.8.8.8" farGeo) as (_ & Hresolved & _).
  split.
  - apply Hrace. intros c Hc. vm_compute in Hc. apply list_elem_of_singleton in Hc.
    subst c. split; discriminate.
  - apply Hresolved; reflexivity.
Defined.

Lemma patchProcess_cases src dst p i c :
  patchProcess src dst p i c = c ∨ patchProcess src dst p i c = set_process p i c.
Proof.
  unfold patchProcess. destruct (_ || _); [|by left]. destruct (noProcess c); auto.
Qed.

(** X6.  A [process_update] names the application of the records between
    its two addresses, in either direction, that have none yet: it is the
    same update with its two addresses exchanged, it never replaces a
    process that a record has, it touches no field but [process] and [pid],
    it leaves the records of other address pairs alone, and with a process
    that is not empty it has no further effect when it comes again. *)
Theorem process_update_fills_missing (src dst : string) (p : option string) (i : option N) :
  (∀ c, patchProcess src dst p i c = patchProcess dst src p i c)
  ∧ (∀ c, noProcess c = false → patchProcess src dst p i c = c)
  ∧ (∀ c, identityOf (patchProcess src dst p i c) = identityOf c
          ∧ src_geo (patchProcess src dst p i c) = src_geo c
          ∧ dst_geo (patchProcess src dst p i c) = dst_geo c)
  ∧ (∀ c, connKeyOf c ≠ pairKey src dst → patchProcess src dst p i c = c)
  ∧ (∀ c, noProcess c = true →
          (src_ip c = src ∧ dst_ip c = dst) ∨ (src_ip c = dst ∧ dst_ip c = src) →
          process (patchProcess src dst p i c) = p ∧ pid (patchProcess src dst p i c) = i)
  ∧ (∀ q, p = Some q → q ≠ "" →
     ∀ c, patchProcess src dst p i (patchProcess src dst p i c) = patchProcess src dst p i c).
Proof.
  split; [|split; [|split; [|split; [|split]]]].
  - intros c. unfold patchProcess. by rewrite orb_comm.
  - intros c Hc. unfold patchProcess. rewrite Hc. by destruct (_ || _).
  - intros c. by destruct (patchProcess_cases src dst p i c) as [-> | ->].
  - intros c Hk. unfold patchProcess.
    destruct (bool_decide (src_ip c = src)) eqn:E1, (bool_decide (dst_ip c = dst)) eqn:E2,
             (bool_decide (src_ip c = dst)) eqn:E3, (bool_decide (dst_ip c = src)) eqn:E4;
      simpl; try done; exfalso; apply Hk; unfold connKeyOf.
    all: repeat match goal with
         | H : bool_decide _ = true |- _ => apply bool_decide_eq_true_1 in H
         end.
    all: try (by rewrite E1, E2).
    all: try (rewrite E3, E4; apply pairKey_comm).
  - intros c Hc Hm. unfold patchProcess. rewrite Hc.
    assert ((bool_decide (src_ip c = src) && bool_decide (dst_ip c = dst))
            || (bool_decide (src_ip c = dst) && bool_decide (dst_ip c = src)) = true) as ->.
    { destruct Hm as [[Hs Hd]|[Hs Hd]]; rewrite Hs, Hd.
      - by rewrite (bool_decide_eq_true_2 (src = src)), (bool_decide_eq_true_2 (dst = dst)).
      - rewrite (bool_decide_eq_true_2 (src = src)), (bool_decide_eq_true_2 (dst = dst)) by done.
        apply orb_true_r. }
    done.
  - intros q -> Hq c.
    destruct (patchProcess_cases src dst (Some q) i c) as [Heq | Hset];
      [by rewrite !Heq|].
    rewrite Hset. unfold patchProcess. simpl.
    assert (noProcess (set_process (Some q) i c) = false) as ->.
    { unfold noProcess; simpl. by rewrite bool_decide_eq_false_2. }
    by destruct (_ || _).
Qed.

Lemma process_update_fills_missing_witness :
  process (patchProcess "93.184.216.34" "10.0.0.5" (Some "curl") (Some 4242%N)
             (exampleConnection 100 1 1000)) = Some "curl"
  ∧ patchProcess "8.8.8.8" "1.1.1.1" (Some "curl") None resolvedConnection
    = resolvedConnection.
Proof.
  destruct (process_update_fills_missing "93.184.216.34" "10.0.0.5" (Some "curl")
              (Some 4242%N)) as (_ & _ & _ & _ & Hfill & _).
  destruct (process_update_fills_missing "8.8.8.8" "1.1.1.1" (Some "curl") None)
    as (_ & Hkeep & _).
  split.
  - apply Hfill; [reflexivity|]. right. split; reflexivity.
  - apply Hkeep. reflexivity.
Defined.



(** ** The selection by id *)

Lemma find_by_id_Some (i : string) (l : list Connection) :
  i ∈ map conn_id l → ∃ c, List.find (λ c, bool_decide (conn_id c = i)) l = Some c.
Proof.
  induction l as [|d l IH]; simpl; intros H; [by apply elem_of_nil in H|].
  destruct (bool_decide (conn_id d = i)) eqn:E; [by eexists|].
  apply IH. apply elem_of_cons in H as [->|H]; [|done].
  by rewrite bool_decide_eq_true_2 in E.
Qed.

Lemma selectedConnection_Some (s : State) (c : Connection) :
  selectedConnection s = Some c →
  c ∈ connections s ∧ selectedConnectionId s = Some (conn_id c) ∧ conn_id c ≠ "".
Proof.
  unfold selectedConnection. destruct (selectedConnectionId s) as [i|]; [|done].
  destruct (decide (i = "")) as [|Hi]; [done|].
  intros H. apply find_some in H as [Hin Hid]. apply bool_decide_eq_true_1 in Hid.
  split; [by apply list_elem_of_In|]. by subst i.
Qed.

Lemma selectedConnection_by_ids (s s' : State) :
  selectedConnectionId s' = selectedConnectionId s →
  map conn_id (connections s') ≡ₚ map conn_id (connections s) →
  is_Some (selectedConnection s) → is_Some (selectedConnection s').
Proof.
  intros Hid Hp [c Hc]. destruct (selectedConnection_Some s c Hc) as (Hin & Hsel & Hne).
  unfold selectedConnection. rewrite Hid, Hsel. rewrite decide_False by done.
  destruct (find_by_id_Some (conn_id c) (connections s')) as [d Hd]; [|by rewrite Hd].
  rewrite Hp. apply list_elem_of_In, in_map. by apply list_elem_of_In.
Qed.

Lemma applyUpdate_id (u : gmap string Update) (c : Connection) :
  conn_id (applyUpdate u c) = conn_id c.
Proof. unfold applyUpdate. by destruct (u !! connKeyOf c). Qed.

(** X8.  The selected connection is looked up by its id at every render, so
    it is a record of the store with the selected id, and it follows the
    record through the updates that keep the ids of the store: a flush that
    inserts no new flow (the deltas change the counters and re-sort the
    store), a [geo_update] and a [process_update].  After such a step a
    selection that showed a record still shows one. *)
Theorem selection_follows_record (s : State) :
  (∀ c, selectedConnection s = Some c →
        c ∈ connections s ∧ selectedConnectionId s = Some (conn_id c))
  ∧ (∀ now, pendingNewConnectionsRef s = [] → is_Some (selectedConnection s) →
            is_Some (selectedConnection (flushBatchedUpdates now s)))
  ∧ (∀ now rnd ip geo, is_Some (selectedConnection s) →
       is_Some (selectedConnection
                  (step (Receive now rnd (JSONData (MsgGeoUpdate ip (Some geo)))) s)))
  ∧ (∀ now rnd src dst p i, is_Some (selectedConnection s) →
       is_Some (selectedConnection
                  (step (Receive now rnd (JSONData (MsgProcessUpdate src dst p i))) s))).
Proof.
  split; [|split; [|split]].
  - intros c Hc. by destruct (selectedConnection_Some s c Hc) as (? & ? & _).
  - intros now Hn. apply selectedConnection_by_ids; [done|].
    unfold flushBatchedUpdates; simpl. unfold flushConnections. rewrite Hn; simpl.
    destruct (0 <? size (pendingConnectionUpdatesRef s))%nat; [|done].
    unfold applyConnectionUpdates. rewrite sortByActivity_perm, map_map.
    erewrite map_ext; [reflexivity|]. intros c. apply applyUpdate_id.
  - intros now rnd ip geo. apply selectedConnection_by_ids; [done|].
    simpl. rewrite map_map. erewrite map_ext; [reflexivity|].
    intros c. pose proof (patchGeo_identity ip geo c) as H. unfold identityOf in H.
    by injection H.
  - intros now rnd src dst p i. apply selectedConnection_by_ids; [done|].
    simpl. rewrite map_map. erewrite map_ext; [reflexivity|].
    intros c. by destruct (patchProcess_cases src dst p i c) as [-> | ->].
Qed.

Lemma selection_follows_record_witness :
  is_Some (selectedConnection
             (flushBatchedUpdates 2100
                (run splitTrace
                   (handleSelectConnection (Some (exampleConnection 100 1 1000))
                                           exampleState)))).
Proof.
  destruct (selection_follows_record
              (run splitTrace
                 (handleSelectConnection (Some (exampleConnection 100 1 1000))
                                         exampleState))) as (_ & Hflush & _).
  apply Hflush; [reflexivity|]. vm_compute. eexists. reflexivity.
Defined.

(** ** The groups partition the connections that they do not skip *)

Lemma forEach_prefix_invariant {A S} (I : list A → S → Prop) (f : S → A → Outcome S) :
  (∀ seen a acc acc', I seen acc → f acc a = Returned acc' → I (seen ++ [a]) acc') →
  ∀ l seen acc r, I seen acc → forEach f l acc = Returned r → I (seen ++ l) r.
Proof.
  intros Hf. induction l as [|a l IH]; intros seen acc r Hacc H; simpl in H.
  - injection H as <-. by rewrite app_nil_r.
  - destruct (f acc a) as [acc'|e] eqn:E; simpl in H; [|done].
    replace (seen ++ a :: l) with ((seen ++ [a]) ++ l) by by rewrite <- app_assoc.
    eapply IH; [|exact H]. by eapply Hf.
Qed.

Lemma sumOver_snoc (f : Connection → N) (l : list Connection) (c : Connection) :
  sumOver f (l ++ [c]) = (sumOver f l + f c)%N.
Proof. induction l as [|x l IH]; simpl; [lia|]. rewrite IH. lia. Qed.

Lemma hasGroup_keys (k : string) (gs : list ArcGroup) :
  hasGroup k gs = true ↔ k ∈ map key gs.
Proof.
  induction gs as [|g gs IH]; simpl.
  - split; [done|]. intros H. by apply elem_of_nil in H.
  - rewrite elem_of_cons, orb_true_iff, IH, bool_decide_eq_true.
    split; (intros [H|H]; [left|right]); done.
Qed.

Lemma NoDup_key_unique (gs : list ArcGroup) (g g' : ArcGroup) :
  NoDup (map key gs) → g ∈ gs → g' ∈ gs → key g = key g' → g = g'.
Proof.
  induction gs as [|x gs IH]; simpl; intros Hnd Hg Hg' Hk;
    [by apply elem_of_nil in Hg|].
  apply NoDup_cons in Hnd as [Hx Hnd].
  apply elem_of_cons in Hg as [->|Hg]; apply elem_of_cons in Hg' as [->|Hg'].
  - done.
  - exfalso. apply Hx. rewrite Hk. apply list_elem_of_In, in_map. by apply list_elem_of_In.
  - exfalso. apply Hx. rewrite <- Hk. apply list_elem_of_In, in_map. by apply list_elem_of_In.
  - by apply IH.
Qed.

Lemma addToGroup_fresh (k : string) (c : Connection) (gs : list ArcGroup) (f : ArcGroup) :
  hasGroup k gs = false → key f = k →
  addToGroup k c (gs ++ [f]) = gs ++ [addMember c f].
Proof.
  intros Hno Hk. induction gs as [|g gs IH]; simpl in *.
  - by rewrite bool_decide_eq_true_2.
  - apply orb_false_iff in Hno as [Hg Hgs]. rewrite Hg. f_equal. by apply IH.
Qed.

Lemma addToGroup_keys (k : string) (c : Connection) (gs : list ArcGroup) :
  map key (addToGroup k c gs) = map key gs.
Proof.
  induction gs as [|g gs IH]; simpl; [done|].
  destruct (bool_decide (key g = k)); simpl; [done|]. by rewrite IH.
Qed.

Lemma addToGroup_members (k : string) (c : Connection) (gs : list ArcGroup) :
  hasGroup k gs = true →
  concat (map groupConnections (addToGroup k c gs))
  ≡ₚ concat (map groupConnections gs) ++ [c].
Proof.
  induction gs as [|g gs IH]; simpl; [done|].
  destruct (bool_decide (key g = k)); simpl.
  - intros _. rewrite <- !app_assoc. apply Permutation_app_head. apply Permutation_app_comm.
  - intros H. rewrite (IH H). by rewrite app_assoc.
Qed.

Lemma addMember_group_ok (c : Connection) (g : ArcGroup) :
  totalBytes g = sumOver bytes (groupConnections g) →
  totalPackets g = sumOver packets (groupConnections g) →
  group_ok (addMember c g).
Proof.
  intros Hb Hp. unfold group_ok; simpl. rewrite !sumOver_snoc, Hb, Hp.
  split; [|done]. by destruct (groupConnections g).
Qed.

Lemma addToGroup_group_ok (k : string) (c : Connection) (gs : list ArcGroup) :
  Forall group_ok gs → Forall group_ok (addToGroup k c gs).
Proof.
  induction 1 as [|g gs Hg Hgs IH]; simpl; [constructor|].
  destruct (bool_decide (key g = k)); constructor; try done.
  destruct Hg as (_ & Hb & Hp). by apply addMember_group_ok.
Qed.

Lemma record_partitions home seen gs f c :
  groupConnections f = [] → totalBytes f = 0%N → totalPackets f = 0%N →
  grouped home c = true →
  partitions home seen gs → partitions home (seen ++ [c]) (record f c gs).
Proof.
  intros Hf Hb Hp Hc (Hm & Hk & Hok). unfold partitions, record.
  rewrite List.filter_app. simpl. rewrite Hc.
  destruct (hasGroup (key f) gs) eqn:E.
  - rewrite addToGroup_members by done. rewrite addToGroup_keys, Hm.
    split; [done|]. split; [done|]. by apply addToGroup_group_ok.
  - rewrite addToGroup_fresh by done.
    rewrite !map_app, concat_app. simpl. rewrite Hf, app_nil_r. simpl.
    split; [by rewrite Hm|]. split.
    + apply NoDup_app. split; [done|]. split; [|apply NoDup_singleton].
      intros k Hin Hk'. apply list_elem_of_singleton in Hk'. subst k.
      apply hasGroup_keys in Hin. by rewrite E in Hin.
    + apply Forall_app. split; [done|]. constructor; [|constructor].
      apply addMember_group_ok; by rewrite Hf.
Qed.

Lemma skip_partitions home seen gs c :
  grouped home c = false →
  partitions home seen gs → partitions home (seen ++ [c]) gs.
Proof.
  intros Hc (Hm & Hk & Hok). unfold partitions.
  rewrite List.filter_app. simpl. rewrite Hc, app_nil_r. done.
Qed.

Section Partition.

Variable toFixed : R → string.
Variable home : option GeoPoint.

Lemma arcGroupsStep_partitions seen c gs gs' :
  partitions home seen gs → arcGroupsStep toFixed home gs c = Returned gs' →
  partitions home (seen ++ [c]) gs'.
Proof.
  intros Hinv. unfold arcGroupsStep.
  assert (grouped home c
          = negb (skipped (orElse (src_geo c) home) (orElse (dst_geo c) home))) as Hg
    by reflexivity.
  destruct (orElse (src_geo c) home) as [s|] eqn:Es;
    destruct (orElse (dst_geo c) home) as [d|] eqn:Ed;
    try (intros [= <-]; by apply skip_partitions).
  destruct (skipped (Some s) (Some d)) eqn:Esk;
    [intros [= <-]; by apply skip_partitions|].
  destruct (coordKey toFixed s) as [sk|]; simpl; [|done].
  destruct (coordKey toFixed d) as [dk|]; simpl; [|done].
  intros [= <-]. by apply record_partitions.
Qed.

Lemma appGroupsStep_partitions seen c gs gs' :
  partitions home seen gs → appGroupsStep toFixed home gs c = Returned gs' →
  partitions home (seen ++ [c]) gs'.
Proof.
  intros Hinv. unfold appGroupsStep.
  assert (grouped home c
          = negb (skipped (orElse (src_geo c) home) (orElse (dst_geo c) home))) as Hg
    by reflexivity.
  destruct (orElse (src_geo c) home) as [s|] eqn:Es;
    destruct (orElse (dst_geo c) home) as [d|] eqn:Ed;
    try (intros [= <-]; by apply skip_partitions).
  destruct (skipped (Some s) (Some d)) eqn:Esk;
    [intros [= <-]; by apply skip_partitions|].
  destruct (coordKey toFixed d) as [dk|]; simpl; [|done].
  intros [= <-]. by apply record_partitions.
Qed.

Lemma activeArcGroups_partitions mode conns gs :
  activeArcGroups toFixed mode conns home = Returned gs → partitions home conns gs.
Proof.
  assert (partitions home [] []) as H0.
  { split; [done|]. split; constructor. }
  destruct mode; simpl; intros H.
  - apply (forEach_prefix_invariant (partitions home) (arcGroupsStep toFixed home)
             arcGroupsStep_partitions conns [] [] gs H0 H).
  - apply (forEach_prefix_invariant (partitions home) (appGroupsStep toFixed home)
             appGroupsStep_partitions conns [] [] gs H0 H).
Qed.

End Partition.

(** ** C3 *)




(** X9.  In either mode, the groups that a derivation returns hold between
    them the connections of the store that it does not skip, each one once
    (the members of all groups together are a permutation of those
    connections); the keys of the groups are distinct; no group is empty;
    and [totalBytes] and [totalPackets] of a group are the sums of [bytes]
    and [packets] over its members. *)
Theorem groups_partition_the_store (toFixed : R → string) (mode : GroupMode)
    (conns : list Connection) (home : option GeoPoint) (gs : list ArcGroup) :
  activeArcGroups toFixed mode conns home = Returned gs →
  concat (map groupConnections gs) ≡ₚ List.filter (grouped home) conns
  ∧ NoDup (map key gs)
  ∧ (∀ g, g ∈ gs →
          groupConnections g ≠ []
          ∧ totalBytes g = sumOver bytes (groupConnections g)
          ∧ totalPackets g = sumOver packets (groupConnections g)).
Proof.
  intros H. destruct (activeArcGroups_partitions toFixed home mode conns gs H)
    as (Hm & Hk & Hok).
  split; [exact Hm|]. split; [exact Hk|].
  intros g Hg. rewrite Forall_forall in Hok. exact (Hok g Hg).
Qed.

Lemma groups_partition_the_store_witness :
  concat (map groupConnections
            [mkArcGroup "0.0,0.0-0.0,0.0" (Some exampleGeo) (Some farGeo) None
                        [resolvedConnection; swapEnds resolvedConnection] 20 2])
  ≡ₚ List.filter (grouped None)
       [resolvedConnection; exampleConnection 100 1 1000; swapEnds resolvedConnection].
Proof.
  apply (groups_partition_the_store constFixed LocationMode
           [resolvedConnection; exampleConnection 100 1 1000; swapEnds resolvedConnection]
           None).
  reflexivity.
Defined.

(** X10.  The rows handed to the table are the whole store when no arc
    group is selected or when the selected key is the key of no group (the
    group is gone), and the members of the selected group otherwise; in
    every case they are records of the store. *)
Theorem table_rows_come_from_the_store (toFixed : R → string) (s : State)
    (gs : list ArcGroup) :
  activeArcGroups toFixed (groupMode s) (connections s) (homeLocation s) = Returned gs →
  (selectedArcGroupKey s = None → filteredConnections gs s = connections s)
  ∧ (∀ k, selectedArcGroupKey s = Some k → k ∉ map key gs →
          filteredConnections gs s = connections s)
  ∧ (∀ k g, selectedArcGroupKey s = Some k → k ≠ "" → g ∈ gs → key g = k →
            filteredConnections gs s = groupConnections g)
  ∧ (∀ c, c ∈ filteredConnections gs s → c ∈ connections s).
Proof.
  intros H.
  destruct (activeArcGroups_partitions toFixed (homeLocation s) (groupMode s)
              (connections s) gs H) as (Hm & Hk & _).
  split; [|split; [|split]].
  - intros Hsel. unfold filteredConnections, selectedArcGroup. by rewrite Hsel.
  - intros k Hsel Hno. unfold filteredConnections, selectedArcGroup. rewrite Hsel.
    destruct (decide (k = "")); [done|].
    destruct (List.find _ gs) as [g|] eqn:E; [|done].
    apply find_some in E as [Hin Hkey]. apply bool_decide_eq_true_1 in Hkey.
    exfalso. apply Hno. subst k. apply list_elem_of_In, in_map. exact Hin.
  - intros k g Hsel Hne Hg Hkey. unfold filteredConnections, selectedArcGroup.
    rewrite Hsel. rewrite decide_False by done.
    destruct (List.find _ gs) as [g'|] eqn:E.
    + apply find_some in E as [Hin Hkey']. apply bool_decide_eq_true_1 in Hkey'.
      f_equal. apply list_elem_of_In in Hin.
      apply (NoDup_key_unique gs g' g Hk Hin Hg). by rewrite Hkey'.
    + apply list_elem_of_In in Hg.
      pose proof (find_none _ _ E g Hg) as Hf. simpl in Hf.
      by rewrite bool_decide_eq_true_2 in Hf.
  - intros c Hc. unfold filteredConnections in Hc.
    destruct (selectedArcGroup gs s) as [g|] eqn:E; [|done].
    unfold selectedArcGroup in E. destruct (selectedArcGroupKey s) as [k|]; [|done].
    destruct (decide (k = "")); [done|]. apply find_some in E as [Hin _].
    assert (c ∈ concat (map groupConnections gs)) as Hcm.
    { apply list_elem_of_In, in_concat. exists (groupConnections g).
      split; [by apply in_map|by apply list_elem_of_In]. }
    rewrite Hm in Hcm. apply list_elem_of_In, filter_In in Hcm as [Hcm _].
    by apply list_elem_of_In.
Qed.

Lemma table_rows_come_from_the_store_witness :
  filteredConnections
    [mkArcGroup "0.0,0.0-0.0,0.0" (Some exampleGeo) (Some farGeo) None
                [resolvedConnection] 10 1]
    (setSelectedArcGroupKey (Some "gone")
       (setConnections (λ _, [resolvedConnection; exampleConnection 100 1 1000])
                       initialState))
  = [resolvedConnection; exampleConnection 100 1 1000].
Proof.
  destruct (table_rows_come_from_the_store constFixed
              (setSelectedArcGroupKey (Some "gone")
                 (setConnections (λ _, [resolvedConnection; exampleConnection 100 1 1000])
                                 initialState))
              [mkArcGroup "0.0,0.0-0.0,0.0" (Some exampleGeo) (Some farGeo) None
                          [resolvedConnection] 10 1]) as (_ & Hgone & _).
  - reflexivity.
  - apply (Hgone "gone"); [reflexivity|].
    intros H. apply list_elem_of_singleton in H. discriminate H.
Defined.

(** ** The planar viewport *)

Section ViewportProperties.

Local Open Scope R_scope.

Ltac split_minmax :=
  unfold Rmax, Rmin; repeat (destruct (Rle_dec _ _)); try lra.

Lemma clamp_bounds (m x : R) : 0 <= m → - m <= Rmax (- m) (Rmin m x) <= m.
Proof. intros H. split_minmax. Qed.

Lemma clamp_inside (m x : R) : - m <= x <= m → Rmax (- m) (Rmin m x) = x.
Proof. intros H. split_minmax. Qed.

Lemma constrainPan_inside (newPan : Point) (z w h : R) :
  - Rmax 0 ((w * z - w) / 2) <= px newPan <= Rmax 0 ((w * z - w) / 2) →
  - Rmax 0 ((h * z - h) / 2) <= py newPan <= Rmax 0 ((h * z - h) / 2) →
  constrainPan newPan z w h = newPan.
Proof.
  intros Hpx Hpy. unfold constrainPan. rewrite !clamp_inside by done. by destruct newPan.
Qed.

(** X11.  [constrainPan] brings each coordinate of the pan into the range
    that the zoom allows, [max(0, (size * zoom - size) / 2)] either way: the
    result is in range, a pan in range is returned as it is, constraining
    twice is constraining once, and at zoom 1 the pan is (0, 0). *)
Theorem constrainPan_clamps (newPan : Point) (z w h : R) :
  (- Rmax 0 ((w * z - w) / 2) <= px (constrainPan newPan z w h) <= Rmax 0 ((w * z - w) / 2)
   ∧ - Rmax 0 ((h * z - h) / 2) <= py (constrainPan newPan z w h)
     <= Rmax 0 ((h * z - h) / 2))
  ∧ (- Rmax 0 ((w * z - w) / 2) <= px newPan <= Rmax 0 ((w * z - w) / 2) →
     - Rmax 0 ((h * z - h) / 2) <= py newPan <= Rmax 0 ((h * z - h) / 2) →
     constrainPan newPan z w h = newPan)
  ∧ constrainPan (constrainPan newPan z w h) z w h = constrainPan newPan z w h
  ∧ (z = 1 → constrainPan newPan z w h = mkPoint 0 0).
Proof.
  assert (0 <= Rmax 0 ((w * z - w) / 2)) as Hx by apply Rmax_l.
  assert (0 <= Rmax 0 ((h * z - h) / 2)) as Hy by apply Rmax_l.
  split; [|split; [|split]].
  - unfold constrainPan; simpl. split; by apply clamp_bounds.
  - apply constrainPan_inside.
  - unfold constrainPan; simpl.
    rewrite !(clamp_inside _ (Rmax _ (Rmin _ _))) by by apply clamp_bounds. done.
  - intros ->. unfold constrainPan.
    replace ((w * 1 - w) / 2) with 0 by lra. replace ((h * 1 - h) / 2) with 0 by lra.
    rewrite (Rmax_left 0 0) by lra. f_equal; split_minmax.
Qed.

Lemma constrainPan_clamps_witness :
  constrainPan (mkPoint 180 (-40)) 2 360 180 = mkPoint 180 (-40).
Proof.
  destruct (constrainPan_clamps (mkPoint 180 (-40)) 2 360 180) as (_ & H & _).
  apply H; simpl; rewrite Rmax_right by lra; lra.
Defined.

Lemma constrainPan_within (newPan : Point) (z w h : R) :
  1 <= z → 0 <= w → 0 <= h →
  withinPan w h (mkViewport z (constrainPan newPan z w h)).
Proof.
  intros Hz Hw Hh. unfold withinPan; simpl.
  assert (0 <= (w * z - w) / 2) as Hx by nra.
  assert (0 <= (h * z - h) / 2) as Hy by nra.
  rewrite !(Rmax_right 0) by done.
  split; apply Rabs_le; by apply clamp_bounds.
Qed.

Lemma withinPan_covers (w h : R) (v : Viewport) : withinPan w h v → covers w h v.
Proof.
  unfold withinPan, covers, mapRect. intros [Hx Hy].
  unfold Rabs in Hx, Hy.
  destruct (Rcase_abs (px (pan v))), (Rcase_abs (py (pan v))); lra.
Qed.

Lemma viewportStep_invariant (w h : R) (a : ViewportAction) (v : Viewport) :
  0 <= w → 0 <= h →
  1 <= zoom v <= 8 ∧ withinPan w h v →
  1 <= zoom (viewportStep w h a v) <= 8 ∧ withinPan w h (viewportStep w h a v).
Proof.
  intros Hw Hh [[Hz1 Hz8] Hp]. destruct a as [home| | |mx my dy|dx dy]; simpl.
  - destruct home as [[la lo]|]; simpl.
    + split; [lra|]. apply constrainPan_within; lra.
    + split; [lra|]. unfold withinPan; simpl. rewrite Rabs_R0. lra.
  - assert (zoom v <= Rmin 8 (zoom v * 1.5) <= 8) as [Hge Hle] by split_minmax.
    split; [simpl; lra|].
    unfold withinPan in *; simpl. destruct Hp as [Hx Hy].
    split; (eapply Rle_trans; [eassumption|]); nra.
  - assert (1 <= Rmax 1 (zoom v / 1.5) <= 8) as [Hge Hle] by split_minmax.
    split; [simpl; lra|]. by apply constrainPan_within.
  - assert (1 <= wheelZoom dy (zoom v) <= 8) as [Hge Hle].
    { unfold wheelZoom. split_minmax. }
    split; [simpl; lra|]. by apply constrainPan_within.
  - split; [simpl; lra|]. by apply constrainPan_within.
Qed.

(** X12.  On a canvas of a given size, whatever the sequence of go-home,
    zoom-in, zoom-out, wheel and drag moves from the initial view, the zoom
    stays between 1 and 8, the pan stays within the bounds of the zoom, and
    the rectangle in which the map image is painted covers the canvas: no
    empty margin is ever shown. *)
Theorem viewport_always_covers (w h : R) (v : Viewport) :
  0 <= w → 0 <= h → reachableViewport w h v →
  1 <= zoom v <= 8 ∧ withinPan w h v ∧ covers w h v.
Proof.
  intros Hw Hh Hr.
  assert (1 <= zoom v <= 8 ∧ withinPan w h v) as [Hz Hp].
  { induction Hr as [|a v Hr IH].
    - simpl. split; [lra|]. unfold withinPan; simpl. rewrite Rabs_R0. lra.
    - by apply viewportStep_invariant. }
  split; [done|]. split; [done|]. by apply withinPan_covers.
Qed.

Lemma viewport_always_covers_witness :
  covers 360 180
    (viewportStep 360 180 (Drag 500 (-40))
       (viewportStep 360 180 (Wheel 10 10 (-1)) initialViewport)).
Proof.
  apply (viewport_always_covers 360 180); [lra|lra|].
  repeat constructor.
Defined.

(** X13.  The wheel zooms about the pointer: the place of the map that is
    under the pointer before the wheel turns is under it afterwards, when
    the pan that the wheel asks for is within the bounds of the new zoom (so
    that [constrainPan] returns it as it is). *)
Theorem wheel_keeps_pointer_place (mouseX mouseY deltaY w h lat lon : R) (v : Viewport) :
  zoom v ≠ 0 →
  toXY lat lon w h (zoom v) (pan v) = mkPoint mouseX mouseY →
  toXY lat lon w h (wheelZoom deltaY (zoom v))
       (wheelPan mouseX mouseY w h (wheelZoom deltaY (zoom v) / zoom v) (pan v))
  = mkPoint mouseX mouseY
  ∧ (pan (handleWheel mouseX mouseY deltaY w h v)
     = wheelPan mouseX mouseY w h (wheelZoom deltaY (zoom v) / zoom v) (pan v) →
     toXY lat lon w h (zoom (handleWheel mouseX mouseY deltaY w h v))
          (pan (handleWheel mouseX mouseY deltaY w h v))
     = mkPoint mouseX mouseY).
Proof.
  intros Hz Hxy.
  assert (toXY lat lon w h (wheelZoom deltaY (zoom v))
            (wheelPan mouseX mouseY w h (wheelZoom deltaY (zoom v) / zoom v) (pan v))
          = mkPoint mouseX mouseY) as H.
  { unfold toXY in *. injection Hxy as Hx Hy. unfold wheelPan; simpl.
    set (nz := wheelZoom deltaY (zoom v)).
    f_equal.
    - rewrite <- Hx. field. exact Hz.
    - rewrite <- Hy. field. exact Hz. }
  split; [exact H|]. intros Hpan. rewrite Hpan. exact H.
Qed.

Lemma wheel_keeps_pointer_place_witness :
  toXY 0 0 360 180 (wheelZoom (-1) 1)
       (wheelPan 180 90 360 180 (wheelZoom (-1) 1 / 1) (mkPoint 0 0))
  = mkPoint 180 90.
Proof.
  apply (wheel_keeps_pointer_place 180 90 (-1) 360 180 0 0 initialViewport).
  - simpl. lra.
  - unfold toXY; simpl. f_equal; lra.
Defined.

(** X14.  Go-home puts a home location that lies within 120 degrees of
    longitude and 60 degrees of latitude of the centre of the map at the
    centre of the canvas, at zoom 3; without a home location it returns to
    the initial view. *)
Theorem goHome_centres_home (lat lon w h : R) (v : Viewport) :
  0 <= w → 0 <= h → -120 <= lon <= 120 → -60 <= lat <= 60 →
  zoom (goHome (Some (lat, lon)) w h v) = 3
  ∧ toXY lat lon w h (zoom (goHome (Some (lat, lon)) w h v))
         (pan (goHome (Some (lat, lon)) w h v))
    = mkPoint (w / 2) (h / 2)
  ∧ goHome None w h v = initialViewport.
Proof.
  intros Hw Hh Hlon Hlat. split; [done|]. split; [|done].
  simpl.
  assert (constrainPan (homePan lat lon w h 3) 3 w h = homePan lat lon w h 3) as ->.
  { apply constrainPan_inside; unfold homePan; simpl; rewrite Rmax_right by nra;
      split; nra. }
  unfold toXY, homePan; simpl. f_equal; lra.
Qed.

Lemma goHome_centres_home_witness :
  toXY 42.1 (-71.3) 360 180
       (zoom (goHome (Some (42.1, -71.3)) 360 180 initialViewport))
       (pan (goHome (Some (42.1, -71.3)) 360 180 initialViewport))
  = mkPoint (360 / 2) (180 / 2).
Proof.
  apply (goHome_centres_home 42.1 (-71.3) 360 180 initialViewport); lra.
Defined.

End ViewportProperties.

(** ** Live packet markers *)

Section MarkerProperties.

Local Open Scope R_scope.

Lemma easeOut_range (progress : R) : 0 <= progress <= 1 → 0 <= easeOut progress <= 1.
Proof. intros H. unfold easeOut. simpl. nra. Qed.

Lemma fadeOut_range (progress : R) : 0 <= progress <= 1 → 0 <= fadeOut progress <= 1.
Proof. intros H. unfold fadeOut. destruct (Rlt_dec progress 0.8); lra. Qed.

Lemma markerBaseSize_range (size : N) : 3 <= markerBaseSize size <= 8.
Proof.
  unfold markerBaseSize, Rmin, Rmax.
  repeat (destruct (Rle_dec _ _)); lra.
Qed.

Lemma markerOn_start (src dst : Point) (size : N) :
  markerAt (markerOn src dst 0 size) = src
  ∧ markerOpacity (markerOn src dst 0 size) = 1.
Proof.
  unfold markerOn, easeOut, fadeOut, bezierPoint. cbn [markerAt markerOpacity].
  destruct (Rlt_dec 0 0.8); [|lra]. split; [|done].
  destruct src as [sx sy]; cbn [px py]. f_equal; ring.
Qed.

Lemma markerOn_end (src dst : Point) (size : N) :
  markerAt (markerOn src dst 1 size) = dst
  ∧ markerOpacity (markerOn src dst 1 size) = 0.
Proof.
  unfold markerOn, easeOut, fadeOut, bezierPoint. cbn [markerAt markerOpacity].
  destruct (Rlt_dec 1 0.8); [lra|]. split; [|lra].
  destruct dst as [dx dy]; cbn [px py]. f_equal; ring.
Qed.

Lemma liveMarker_Some now event home w h z p m :
  liveMarker now event home w h z p = Some m →
  ∃ sc dc src dst,
    markerGeo (pe_src_geo event) home = Some sc
    ∧ markerGeo (pe_dst_geo event) home = Some dc
    ∧ markerXY sc w h z p = Some src
    ∧ markerXY dc w h z p = Some dst
    ∧ (now - pe_timestamp event ≤ PACKET_DURATION)%Z
    ∧ m = markerOn src dst (IZR (now - pe_timestamp event) / IZR PACKET_DURATION)
                   (pe_size event).
Proof.
  unfold liveMarker.
  destruct (markerGeo (pe_src_geo event) home) as [sc|]; [|done].
  destruct (markerGeo (pe_dst_geo event) home) as [dc|]; [|done].
  destruct (negb (present (pe_src_geo event)) && negb (present (pe_dst_geo event)));
    [done|].
  destruct (PACKET_DURATION <? now - pe_timestamp event)%Z eqn:E; [done|].
  destruct (markerXY sc w h z p) as [src|] eqn:Es; [|done].
  destruct (markerXY dc w h z p) as [dst|] eqn:Ed; [|done].
  intros [= <-]. apply Z.ltb_ge in E. by exists sc, dc, src, dst.
Qed.

(** X15.  In live mode an event is painted only while it is at most 800 ms
    old (it stays in the window for 2000 ms), and it is painted then when
    one of its ends has a geo of its own and both ends have a render
    position (that of the geo of the end, or of the home location).  Its
    marker lies on the curve that the hit test samples from the render
    position of its source end to that of its destination end, at the eased
    parameter [1 - (1 - progress)^2]; its size is between 3 and 8; and for
    an age between 0 and 800 ms the parameter and the opacity are between 0
    and 1.  The marker leaves from the source end at age 0 with opacity 1
    and reaches the destination end at 800 ms with opacity 0. *)
Theorem live_marker_travels_the_arc (now : Z) (event : PacketEvent)
    (home : option GeoPoint) (w h z : R) (p : Point) :
  ((PACKET_DURATION < now - pe_timestamp event)%Z →
   liveMarker now event home w h z p = None)
  ∧ (∀ sc dc src dst,
       markerGeo (pe_src_geo event) home = Some sc → markerXY sc w h z p = Some src →
       markerGeo (pe_dst_geo event) home = Some dc → markerXY dc w h z p = Some dst →
       present (pe_src_geo event) || present (pe_dst_geo event) = true →
       (now - pe_timestamp event ≤ PACKET_DURATION)%Z →
       liveMarker now event home w h z p
       = Some (markerOn src dst (IZR (now - pe_timestamp event) / IZR PACKET_DURATION)
                        (pe_size event)))
  ∧ (∀ m, liveMarker now event home w h z p = Some m →
     ∃ sc dc src dst,
       let progress := IZR (now - pe_timestamp event) / IZR PACKET_DURATION in
       markerGeo (pe_src_geo event) home = Some sc ∧ markerXY sc w h z p = Some src
       ∧ markerGeo (pe_dst_geo event) home = Some dc ∧ markerXY dc w h z p = Some dst
       ∧ m = markerOn src dst progress (pe_size event)
       ∧ markerAt m
         = arcPoint src dst ((px src + px dst) / 2)
             (Rmin (py src) (py dst)
              - sqrt ((px dst - px src) ^ 2 + (py dst - py src) ^ 2) * 0.15 - 15)
             (easeOut progress)
       ∧ 3 <= markerSize m <= 8
       ∧ ((0 ≤ now - pe_timestamp event)%Z →
          0 <= easeOut progress <= 1 ∧ 0 <= markerOpacity m <= 1)
       ∧ (now = pe_timestamp event → markerAt m = src ∧ markerOpacity m = 1)
       ∧ ((now - pe_timestamp event = PACKET_DURATION)%Z →
          markerAt m = dst ∧ markerOpacity m = 0)).
Proof.
  split; [|split].
  - intros Hage. unfold liveMarker.
    destruct (markerGeo (pe_src_geo event) home); [|done].
    destruct (markerGeo (pe_dst_geo event) home); [|done].
    destruct (negb _ && negb _); [done|].
    apply Z.ltb_lt in Hage. by rewrite Hage.
  - intros sc dc src dst Hsc Hsrc Hdc Hdst Hown Hage. unfold liveMarker.
    rewrite Hsc, Hdc, Hsrc, Hdst.
    assert (negb (present (pe_src_geo event)) && negb (present (pe_dst_geo event)) = false)
      as -> by (by destruct (present (pe_src_geo event)), (present (pe_dst_geo event))).
    apply Z.ltb_ge in Hage. by rewrite Hage.
  - intros m Hm.
    destruct (liveMarker_Some now event home w h z p m Hm)
      as (sc & dc & src & dst & Hsc & Hdc & Hsrc & Hdst & Hage & ->).
    exists sc, dc, src, dst. cbv zeta.
    set (progress := IZR (now - pe_timestamp event) / IZR PACKET_DURATION).
    split; [done|]. split; [done|]. split; [done|]. split; [done|].
    split; [done|]. split; [done|]. split; [apply markerBaseSize_range|].
    split; [|split].
    + intros Hpos.
      assert (0 <= progress <= 1) as Hp.
      { unfold progress, PACKET_DURATION in *.
        apply IZR_le in Hpos, Hage. split.
        - apply Rmult_le_pos; [exact Hpos|]. lra.
        - apply (Rmult_le_reg_r 800); [lra|]. unfold Rdiv.
          rewrite Rmult_assoc, Rinv_l by lra. lra. }
      split; [by apply easeOut_range|by apply fadeOut_range].
    + intros ->. unfold progress. rewrite Z.sub_diag.
      replace (IZR 0 / IZR PACKET_DURATION) with 0
        by (unfold PACKET_DURATION; lra).
      apply markerOn_start.
    + intros Heq. unfold progress. rewrite Heq.
      replace (IZR PACKET_DURATION / IZR PACKET_DURATION) with 1
        by (unfold PACKET_DURATION; lra).
      apply markerOn_end.
Qed.

(** An event from the home location (Paris) to Norwell, on a canvas of 360
    by 180: at the time of the event its marker is at the render position
    of Paris, and 1200 ms later it is gone. *)
Lemma live_marker_travels_the_arc_witness :
  (∃ m, liveMarker 1000
          (packetEventOf 1000 "0.5" (examplePacket 60 false (Some exampleGeo)))
          (Some farGeo) 360 180 1 origin
        = Some m
        ∧ markerAt m = toXY 48.9 2.4 360 180 1 origin
        ∧ markerOpacity m = 1)
  ∧ liveMarker 2200
      (packetEventOf 1000 "0.5" (examplePacket 60 false (Some exampleGeo)))
      (Some farGeo) 360 180 1 origin
    = None.
Proof.
  split.
  - destruct (live_marker_travels_the_arc 1000
                (packetEventOf 1000 "0.5" (examplePacket 60 false (Some exampleGeo)))
                (Some farGeo) 360 180 1 origin) as (_ & Hdrawn & Hon).
    pose proof (Hdrawn (Some 48.9, Some 2.4) (Some 42.1, Some (-71.3))
                  (toXY 48.9 2.4 360 180 1 origin) (toXY 42.1 (-71.3) 360 180 1 origin)
                  eq_refl eq_refl eq_refl eq_refl eq_refl) as Hm.
    assert (1000 - pe_timestamp
                     (packetEventOf 1000 "0.5" (examplePacket 60 false (Some exampleGeo)))
            ≤ PACKET_DURATION)%Z as Hage by (unfold PACKET_DURATION; simpl; lia).
    eexists. split; [exact (Hm Hage)|].
    destruct (Hon _ (Hm Hage))
      as (sc & dc & src & dst & Hsc & Hsrc & _ & _ & _ & _ & _ & _ & Hstart & _).
    injection Hsc as <-. injection Hsrc as <-.
    apply Hstart. reflexivity.
  - apply (live_marker_travels_the_arc 2200
             (packetEventOf 1000 "0.5" (examplePacket 60 false (Some exampleGeo)))
             (Some farGeo) 360 180 1 origin).
    reflexivity.
Defined.

End MarkerProperties.

(** ** The camera of the globe *)

Section CameraProperties.

Local Open Scope R_scope.

Import GlobeControls.

Lemma controlStep_zoom_range (a : ControlAction) (c : Controls) :
  1.5 <= targetZoom c <= 6 ∧ 1.5 <= GlobeControls.zoom c <= 6 →
  1.5 <= targetZoom (controlStep a c) <= 6
  ∧ 1.5 <= GlobeControls.zoom (controlStep a c) <= 6.
Proof.
  intros [Ht Hz]. destruct a as [x y| |x y|d| |lon|]; simpl; try done.
  - unfold onMouseMove. by destruct (isDragging c).
  - split; [|done]. unfold Rmax, Rmin. repeat (destruct (Rle_dec _ _)); lra.
  - destruct lon; simpl; lra.
  - lra.
Qed.

(** X16.  Whatever the sequence of presses, moves, wheel turns, go-home
    requests and frames from the initial controls, the distance of the
    camera and the distance it is moving to stay between 1.5 and 6: the
    camera never reaches the globe, whose radius is 1. *)
Theorem camera_stays_in_range (c : Controls) :
  reachableControls c →
  1.5 <= targetZoom c <= 6 ∧ 1.5 <= GlobeControls.zoom c <= 6.
Proof.
  induction 1 as [|a c Hc IH]; [simpl; lra|]. by apply controlStep_zoom_range.
Qed.

Lemma camera_stays_in_range_witness :
  1.5 <= GlobeControls.zoom (controlStep Frame (controlStep (WheelBy (-5000)) initialControls))
  <= 6.
Proof.
  apply (camera_stays_in_range
           (controlStep Frame (controlStep (WheelBy (-5000)) initialControls))).
  repeat constructor.
Defined.

(** X17.  With the targets left alone, every frame closes a tenth of what
    is left between the camera and its targets: after [n] frames the zoom
    and the two rotations are at [0.9 ^ n] of their initial distance from
    their targets, on the same side, so they approach the targets without
    ever passing them; the targets themselves are not moved by a frame. *)
Theorem easing_closes_a_tenth_per_frame (n : nat) (c : Controls) :
  targetZoom (Nat.iter n animate c) = targetZoom c
  ∧ targetRotationX (Nat.iter n animate c) = targetRotationX c
  ∧ targetRotationY (Nat.iter n animate c) = targetRotationY c
  ∧ GlobeControls.zoom (Nat.iter n animate c) - targetZoom c
    = 0.9 ^ n * (GlobeControls.zoom c - targetZoom c)
  ∧ rotationX (Nat.iter n animate c) - targetRotationX c
    = 0.9 ^ n * (rotationX c - targetRotationX c)
  ∧ rotationY (Nat.iter n animate c) - targetRotationY c
    = 0.9 ^ n * (rotationY c - targetRotationY c)
  ∧ Rabs (GlobeControls.zoom (Nat.iter (S n) animate c) - targetZoom c)
    <= Rabs (GlobeControls.zoom (Nat.iter n animate c) - targetZoom c).
Proof.
  assert (∀ k, targetZoom (Nat.iter k animate c) = targetZoom c
               ∧ targetRotationX (Nat.iter k animate c) = targetRotationX c
               ∧ targetRotationY (Nat.iter k animate c) = targetRotationY c
               ∧ GlobeControls.zoom (Nat.iter k animate c) - targetZoom c
                 = 0.9 ^ k * (GlobeControls.zoom c - targetZoom c)
               ∧ rotationX (Nat.iter k animate c) - targetRotationX c
                 = 0.9 ^ k * (rotationX c - targetRotationX c)
               ∧ rotationY (Nat.iter k animate c) - targetRotationY c
                 = 0.9 ^ k * (rotationY c - targetRotationY c)) as H.
  { induction k as [|k (Hz & Hx & Hy & Ez & Ex & Ey)]; [simpl; repeat split; lra|].
    change (Nat.iter (S k) animate c) with (animate (Nat.iter k animate c)).
    replace (0.9 ^ S k) with (0.9 * 0.9 ^ k) by reflexivity.
    revert Hz Hx Hy Ez Ex Ey. generalize (Nat.iter k animate c). intros c'.
    unfold animate. cbn [targetZoom targetRotationX targetRotationY
                         GlobeControls.zoom rotationX rotationY].
    intros Hz Hx Hy Ez Ex Ey. rewrite Hz, Hx, Hy.
    repeat split; try done.
    - rewrite Rmult_assoc, <- Ez. lra.
    - rewrite Rmult_assoc, <- Ex. lra.
    - rewrite Rmult_assoc, <- Ey. lra. }
  destruct (H n) as (Hz & Hx & Hy & Ez & Ex & Ey).
  repeat split; try done.
  destruct (H (S n)) as (_ & _ & _ & Ez' & _).
  rewrite Ez', Ez. replace (0.9 ^ S n) with (0.9 * 0.9 ^ n) by reflexivity.
  rewrite Rmult_assoc, Rabs_mult. rewrite (Rabs_right 0.9) by lra.
  pose proof (Rabs_pos (0.9 ^ n * (GlobeControls.zoom c - targetZoom c))). lra.
Qed.

End CameraProperties.

(** ** The groups and the rows of the connections table *)

Section TableProperties.

Lemma hasApp_names (n : string) (gs : list AppGroup) :
  hasApp n gs = true ↔ n ∈ map name gs.
Proof.
  unfold hasApp. induction gs as [|g gs IH]; simpl.
  - split; [done|]. intros H. by apply elem_of_nil in H.
  - rewrite elem_of_cons, orb_true_iff, IH, bool_decide_eq_true.
    split; (intros [H|H]; [left|right]); done.
Qed.

Lemma addToAppGroup_names (n : string) (c : Connection) (gs : list AppGroup) :
  map name (addToAppGroup n c gs) = map name gs.
Proof.
  induction gs as [|g gs IH]; simpl; [done|].
  destruct (bool_decide (name g = n)); simpl; [done|]. by rewrite IH.
Qed.

Lemma addToAppGroup_fresh (n : string) (c : Connection) (gs : list AppGroup)
    (f : AppGroup) :
  n ∉ map name gs → name f = n →
  addToAppGroup n c (gs ++ [f]) = gs ++ [addToApp c f].
Proof.
  intros Hno Hf. induction gs as [|g gs IH]; simpl in *.
  - by rewrite bool_decide_eq_true_2.
  - apply not_elem_of_cons in Hno as [Hg Hgs].
    rewrite bool_decide_eq_false_2 by congruence. f_equal. by apply IH.
Qed.

Lemma addToAppGroup_members (n : string) (c : Connection) (gs : list AppGroup) :
  n ∈ map name gs →
  concat (map appConnections (addToAppGroup n c gs))
  ≡ₚ concat (map appConnections gs) ++ [c].
Proof.
  induction gs as [|g gs IH]; simpl; [intros H; by apply elem_of_nil in H|].
  destruct (bool_decide (name g = n)) eqn:E; simpl.
  - intros _. rewrite <- !app_assoc. apply Permutation_app_head, Permutation_app_comm.
  - intros H. apply elem_of_cons in H as [H|H].
    + apply bool_decide_eq_false_1 in E. congruence.
    + rewrite (IH H). by rewrite app_assoc.
Qed.

Lemma addToAppGroup_nonempty (n : string) (c : Connection) (gs : list AppGroup) :
  Forall (λ g, appConnections g ≠ []) gs →
  Forall (λ g, appConnections g ≠ []) (addToAppGroup n c gs).
Proof.
  induction 1 as [|g gs Hg Hgs IH]; simpl; [constructor|].
  destruct (bool_decide (name g = n)); constructor; try done.
  simpl. intros H. by apply app_eq_nil in H as [_ H].
Qed.

Lemma tabled_same (seen : list Connection) (c : Connection) (g : AppGroup) :
  tabled seen g → name g = appNameOf c → tabled (seen ++ [c]) (addToApp c g).
Proof.
  intros (Hc & Hb & Hp) Hn. unfold tabled, addToApp; simpl.
  rewrite List.filter_app; simpl. rewrite bool_decide_eq_true_2 by done.
  rewrite !sumOver_snoc, <- Hc, <- Hb, <- Hp. done.
Qed.

Lemma tabled_other (seen : list Connection) (c : Connection) (g : AppGroup) :
  tabled seen g → name g ≠ appNameOf c → tabled (seen ++ [c]) g.
Proof.
  intros (Hc & Hb & Hp) Hn. unfold tabled.
  rewrite List.filter_app; simpl. rewrite bool_decide_eq_false_2 by congruence.
  by rewrite app_nil_r.
Qed.

Lemma addToAppGroup_tabled (seen : list Connection) (c : Connection)
    (gs : list AppGroup) :
  NoDup (map name gs) → Forall (tabled seen) gs →
  Forall (tabled (seen ++ [c])) (addToAppGroup (appNameOf c) c gs).
Proof.
  induction gs as [|g gs IH]; simpl; intros Hnd HF; [constructor|].
  apply NoDup_cons in Hnd as [Hg Hnd]. apply Forall_cons in HF as [Ht HF].
  destruct (bool_decide (name g = appNameOf c)) eqn:E.
  - apply bool_decide_eq_true_1 in E. constructor; [by apply tabled_same|].
    apply Forall_forall. intros g' Hg'.
    apply tabled_other; [by apply (proj1 (Forall_forall _ _) HF)|].
    intros E'. apply Hg. rewrite E, <- E'.
    apply list_elem_of_In, in_map. by apply list_elem_of_In.
  - apply bool_decide_eq_false_1 in E. constructor; [by apply tabled_other|by apply IH].
Qed.

Lemma filter_none {A} (f : A → bool) (l : list A) :
  (∀ x, x ∈ l → f x = false) → List.filter f l = [].
Proof.
  induction l as [|a l IH]; simpl; [done|]. intros H.
  rewrite (H a) by apply list_elem_of_here.
  apply IH. intros x Hx. apply H. by apply list_elem_of_further.
Qed.

Lemma tableGroupsStep_listed (seen : list Connection) (c : Connection)
    (gs : list AppGroup) :
  listedByName seen gs → listedByName (seen ++ [c]) (tableGroupsStep gs c).
Proof.
  intros (Hnd & Ht & Hne & Hcov & Hperm).
  change (tableGroupsStep gs c)
    with (addToAppGroup (appNameOf c) c
            (if hasApp (appNameOf c) gs then gs
             else gs ++ [mkAppGroup (appNameOf c) [] 0 0])).
  destruct (hasApp (appNameOf c) gs) eqn:E.
  - apply hasApp_names in E.
    split; [by rewrite addToAppGroup_names|].
    split; [by apply addToAppGroup_tabled|].
    split; [by apply addToAppGroup_nonempty|].
    split.
    + intros c' Hc'. rewrite addToAppGroup_names.
      apply elem_of_app in Hc' as [Hc'|Hc']; [by apply Hcov|].
      apply list_elem_of_singleton in Hc'. by subst.
    + rewrite addToAppGroup_members by done. by rewrite Hperm.
  - assert (appNameOf c ∉ map name gs) as Hno.
    { intros H. apply hasApp_names in H. congruence. }
    assert (NoDup (map name (gs ++ [mkAppGroup (appNameOf c) [] 0 0]))) as Hnd'.
    { rewrite map_app. apply NoDup_app. split; [done|]. split.
      - intros x Hx Hx'. apply list_elem_of_singleton in Hx'. simpl in Hx'. by subst.
      - apply NoDup_singleton. }
    split; [by rewrite addToAppGroup_names|].
    split.
    { apply addToAppGroup_tabled; [done|]. apply Forall_app. split; [done|].
      constructor; [|constructor]. unfold tabled; simpl. split; [|done].
      symmetry. apply filter_none. intros x Hx. apply bool_decide_eq_false_2.
      intros Hx'. apply Hno. rewrite <- Hx'. by apply Hcov. }
    rewrite addToAppGroup_fresh by done.
    split.
    { apply Forall_app. split; [done|]. by repeat constructor. }
    split.
    + intros c' Hc'. rewrite map_app. apply elem_of_app.
      apply elem_of_app in Hc' as [Hc'|Hc']; [left; by apply Hcov|right].
      apply list_elem_of_singleton in Hc'. subst. apply list_elem_of_here.
    + rewrite map_app, concat_app. simpl. by rewrite ?app_nil_r, Hperm.
Qed.

Lemma fold_tableGroupsStep_listed (rest seen : list Connection) (gs : list AppGroup) :
  listedByName seen gs →
  listedByName (seen ++ rest) (fold_left tableGroupsStep rest gs).
Proof.
  revert seen gs. induction rest as [|c rest IH]; intros seen gs H; simpl.
  - by rewrite app_nil_r.
  - replace (seen ++ c :: rest) with ((seen ++ [c]) ++ rest)
      by (by rewrite <- app_assoc).
    by apply IH, tableGroupsStep_listed.
Qed.

Lemma placeByBytes_perm (g : AppGroup) (l : list AppGroup) :
  placeByBytes g l ≡ₚ g :: l.
Proof.
  induction l as [|d l IH]; simpl; [done|].
  destruct (appTotalBytes g <? appTotalBytes d)%N; [|done].
  rewrite IH. apply Permutation_swap.
Qed.

Lemma sortByBytes_perm (l : list AppGroup) : sortByBytes l ≡ₚ l.
Proof.
  induction l as [|g l IH]; simpl; [done|].
  by rewrite placeByBytes_perm, IH.
Qed.

Lemma placeByBytes_sorted (g : AppGroup) (l : list AppGroup) :
  StronglySorted byBytes l → StronglySorted byBytes (placeByBytes g l).
Proof.
  induction 1 as [|d l Hl IH Hd]; simpl.
  - repeat constructor.
  - destruct (appTotalBytes g <? appTotalBytes d)%N eqn:E.
    + apply N.ltb_lt in E. constructor; [done|].
      rewrite placeByBytes_perm. constructor; [|done].
      unfold byBytes. lia.
    + apply N.ltb_ge in E.
      constructor; [by constructor|].
      constructor; [done|].
      eapply Forall_impl; [exact Hd|]. unfold byBytes. intros; lia.
Qed.

Lemma sortByBytes_sorted (l : list AppGroup) : StronglySorted byBytes (sortByBytes l).
Proof.
  induction l; simpl; [constructor|]. by apply placeByBytes_sorted.
Qed.

Lemma concat_members_perm (l l' : list AppGroup) :
  l ≡ₚ l' → concat (map appConnections l) ≡ₚ concat (map appConnections l').
Proof.
  induction 1 as [|g l l' H IH|g d l|l l' l'' H IH H' IH']; simpl.
  - done.
  - by rewrite IH.
  - rewrite !app_assoc. apply Permutation_app_tail, Permutation_app_comm.
  - by rewrite IH.
Qed.

Lemma tableAppGroups_listed (filtered : list Connection) :
  listedByName filtered (tableAppGroups AppMode filtered).
Proof.
  assert (listedByName [] []) as H0.
  { split; [constructor|]. split; [constructor|]. split; [constructor|].
    split; [|done]. intros c Hc. by apply elem_of_nil in Hc. }
  destruct (fold_tableGroupsStep_listed filtered [] [] H0)
    as (Hnd & Ht & Hne & Hcov & Hperm).
  simpl in *. set (gs := fold_left tableGroupsStep filtered []) in *.
  assert (map name (sortByBytes gs) ≡ₚ map name gs) as Hnames
    by apply Permutation_map, sortByBytes_perm.
  split; [by rewrite Hnames|].
  split; [by rewrite sortByBytes_perm|].
  split; [by rewrite sortByBytes_perm|].
  split; [intros c Hc; rewrite Hnames; by apply Hcov|].
  rewrite <- Hperm. apply concat_members_perm, sortByBytes_perm.
Qed.

(** X18.  In application mode the table puts every filtered connection in
    exactly one group, the group of its process name (or of "Unknown"):
    the names of the groups are distinct, the members of a group are the
    filtered connections of that name in their order, no group is empty,
    the totals of a group are the sums over its members, and the groups
    come with the most bytes first.  In location mode there is no group. *)
Theorem table_groups_by_application (filtered : list Connection) :
  NoDup (map name (tableAppGroups AppMode filtered))
  ∧ StronglySorted byBytes (tableAppGroups AppMode filtered)
  ∧ (∀ g, g ∈ tableAppGroups AppMode filtered →
       appConnections g
       = List.filter (λ c, bool_decide (appNameOf c = name g)) filtered
       ∧ appGroup_ok g)
  ∧ (∀ c, c ∈ filtered → appNameOf c ∈ map name (tableAppGroups AppMode filtered))
  ∧ concat (map appConnections (tableAppGroups AppMode filtered)) ≡ₚ filtered
  ∧ tableAppGroups LocationMode filtered = [].
Proof.
  destruct (tableAppGroups_listed filtered) as (Hnd & Ht & Hne & Hcov & Hperm).
  split; [done|]. split; [apply sortByBytes_sorted|].
  split; [|done].
  intros g Hg.
  destruct (proj1 (Forall_forall _ _) Ht g Hg) as (Hc & Hb & Hp).
  split; [done|]. split; [|done].
  by apply (proj1 (Forall_forall _ _) Hne g Hg).
Qed.

Example table_groups_example :
  map (λ g, (name g, map conn_id (appConnections g), appTotalBytes g))
      (tableAppGroups AppMode
         [exampleConnection 100 1 1000; resolvedConnection; exampleConnection 5 1 2000])
  = [("Unknown", ["10.0.0.5-93.184.216.34-1000"; "10.0.0.5-93.184.216.34-1000"], 105%N);
     ("dig", ["8.8.8.8-1.1.1.1-1000"], 10%N)].
Proof. reflexivity. Qed.

Lemma toggleAppExpanded_elem (a n : string) (prev : gset string) :
  n ∈ toggleAppExpanded a prev ↔ (if decide (n = a) then n ∉ prev else n ∈ prev).
Proof.
  unfold toggleAppExpanded.
  destruct (decide (a ∈ prev)) as [Ha|Ha];
    [rewrite elem_of_difference|rewrite elem_of_union];
    rewrite elem_of_singleton; destruct (decide (n = a)) as [->|Hn];
    intuition congruence.
Qed.

(** X19.  Toggling the expansion of an application flips the membership of
    that name and of no other, so toggling the same name twice gives back
    the set of expanded names. *)
Theorem toggle_flips_one_name (a : string) (prev : gset string) :
  (a ∈ toggleAppExpanded a prev ↔ a ∉ prev)
  ∧ (∀ n, n ≠ a → n ∈ toggleAppExpanded a prev ↔ n ∈ prev)
  ∧ toggleAppExpanded a (toggleAppExpanded a prev) = prev.
Proof.
  split; [|split].
  - rewrite toggleAppExpanded_elem. by rewrite decide_True.
  - intros n Hn. rewrite toggleAppExpanded_elem. by rewrite decide_False.
  - apply set_eq. intros n. rewrite !toggleAppExpanded_elem.
    destruct (decide (n = a)) as [->|Hn].
    + rewrite toggleAppExpanded_elem, decide_True by done.
      destruct (decide (a ∈ prev)); tauto.
    + rewrite toggleAppExpanded_elem. by rewrite decide_False.
Qed.

Lemma flatItems_connection_row (gs : list AppGroup) (exp : gset string)
    (c : Connection) (n : string) :
  ConnectionRow c n ∈ flatItems gs exp
  ↔ ∃ g, g ∈ gs ∧ name g = n ∧ n ∈ exp ∧ c ∈ appConnections g.
Proof.
  unfold flatItems. induction gs as [|g gs IH]; simpl.
  - split; [intros H; by apply elem_of_nil in H|].
    intros (g & Hg & _). by apply elem_of_nil in Hg.
  - rewrite elem_of_cons, elem_of_app, IH. split.
    + intros [H|[H|(g' & Hg' & H)]]; [done| |].
      * destruct (decide (name g ∈ exp)) as [He|]; [|by apply elem_of_nil in H].
        apply list_elem_of_In, in_map_iff in H as (c' & [= -> <-] & Hc').
        exists g. split; [apply list_elem_of_here|]. split; [done|]. split; [done|].
        by apply list_elem_of_In.
      * exists g'. split; [by apply list_elem_of_further|done].
    + intros (g' & Hg' & Hn & He & Hc). apply elem_of_cons in Hg' as [->|Hg'].
      * right; left. subst n. rewrite decide_True by done.
        apply list_elem_of_In.
        apply (in_map (λ conn, ConnectionRow conn (name g))). by apply list_elem_of_In.
      * right; right. by exists g'.
Qed.

Lemma flatItems_length (gs : list AppGroup) (exp : gset string) :
  (∀ g, g ∈ gs → name g ∈ exp) →
  length (flatItems gs exp) = (length gs + length (concat (map appConnections gs)))%nat.
Proof.
  unfold flatItems. induction gs as [|g gs IH]; simpl; [done|]. intros H.
  rewrite decide_True by apply H, list_elem_of_here.
  rewrite !length_app, length_map, IH; [lia|].
  intros g' Hg'. by apply H, list_elem_of_further.
Qed.

(** X20.  The rows of the grouped table, for the groups that the table
    derives from the filtered connections: with no application expanded
    there is one header per group and nothing else; a connection row is
    listed under a name exactly when that name is expanded and the
    connection is a filtered connection of that name; and with every group
    expanded the list has one header per group and one row per filtered
    connection. *)
Theorem rows_of_the_grouped_table (filtered : list Connection) (exp : gset string) :
  flatItems (tableAppGroups AppMode filtered) ∅
  = map HeaderRow (tableAppGroups AppMode filtered)
  ∧ (∀ c n, ConnectionRow c n ∈ flatItems (tableAppGroups AppMode filtered) exp
            ↔ n ∈ exp ∧ c ∈ filtered ∧ appNameOf c = n)
  ∧ ((∀ c, c ∈ filtered → appNameOf c ∈ exp) →
     length (flatItems (tableAppGroups AppMode filtered) exp)
     = (length (tableAppGroups AppMode filtered) + length filtered)%nat).
Proof.
  destruct (tableAppGroups_listed filtered) as (Hnd & Ht & Hne & Hcov & Hperm).
  split; [|split].
  - generalize (tableAppGroups AppMode filtered). intros gs. unfold flatItems.
    induction gs as [|g gs IH]; simpl; [done|]. by rewrite IH.
  - intros c n. rewrite flatItems_connection_row. split.
    + intros (g & Hg & Hn & He & Hc). split; [done|].
      destruct (proj1 (Forall_forall _ _) Ht g Hg) as (Hm & _).
      rewrite Hm in Hc. apply list_elem_of_In, filter_In in Hc as [Hc Hname].
      apply bool_decide_eq_true_1 in Hname. split; [by apply list_elem_of_In|congruence].
    + intros (He & Hc & Hn).
      pose proof (Hcov c Hc) as Hin.
      apply list_elem_of_In, in_map_iff in Hin as (g & Hname & Hg).
      apply list_elem_of_In in Hg. exists g. split; [done|].
      split; [congruence|]. split; [done|].
      destruct (proj1 (Forall_forall _ _) Ht g Hg) as (Hm & _). rewrite Hm.
      apply list_elem_of_In, filter_In. split; [by apply list_elem_of_In|].
      apply bool_decide_eq_true_2. congruence.
  - intros Hall. rewrite flatItems_length.
    + by rewrite Hperm.
    + intros g Hg.
      destruct (proj1 (Forall_forall _ _) Ht g Hg) as (Hm & _).
      pose proof (proj1 (Forall_forall _ _) Hne g Hg) as Hn.
      destruct (appConnections g) as [|c l] eqn:E; [done|].
      assert (c ∈ List.filter (λ c, bool_decide (appNameOf c = name g)) filtered) as Hc
        by (rewrite <- Hm; apply list_elem_of_here).
      apply list_elem_of_In, filter_In in Hc as [Hc Hname].
      apply bool_decide_eq_true_1 in Hname. rewrite <- Hname.
      by apply Hall, list_elem_of_In.
Qed.

Lemma rows_of_the_grouped_table_witness :
  length (flatItems
            (tableAppGroups AppMode [exampleConnection 100 1 1000; resolvedConnection])
            {["Unknown"; "dig"]})
  = (length (tableAppGroups AppMode [exampleConnection 100 1 1000; resolvedConnection])
     + 2)%nat.
Proof.
  apply (rows_of_the_grouped_table [exampleConnection 100 1 1000; resolvedConnection]
           {["Unknown"; "dig"]}).
  intros c Hc.
  apply elem_of_cons in Hc as [->|Hc]; [set_solver|].
  apply list_elem_of_singleton in Hc as ->. set_solver.
Defined.

End TableProperties.

(** ** From a click on the map to the rows of the table *)

Section ClickProperties.

Local Open Scope R_scope.

Variable toFixed : R → string.

Lemma separated_nonempty (a b : string) : a +:+ "-" +:+ b ≠ "".
Proof. by destruct a. Qed.

Lemma pairKey_nonempty (a b : string) : pairKey a b ≠ "".
Proof. unfold pairKey. destruct (String.ltb b a); apply separated_nonempty. Qed.

Lemma record_keys_nonempty (f : ArcGroup) (c : Connection) (gs : list ArcGroup) :
  Forall (λ g, key g ≠ "") gs → key f ≠ "" →
  Forall (λ g, key g ≠ "") (record f c gs).
Proof.
  intros Hgs Hf. apply Forall_forall. intros g Hg.
  assert (key g ∈ map key (record f c gs)) as Hk
    by (apply list_elem_of_In, in_map; by apply list_elem_of_In).
  unfold record in Hk. rewrite addToGroup_keys in Hk.
  assert (key g ∈ map key gs → key g ≠ "") as Hold.
  { intros H. apply list_elem_of_In, in_map_iff in H as (g0 & <- & H0).
    apply list_elem_of_In in H0. by apply (proj1 (Forall_forall _ _) Hgs). }
  destruct (hasGroup (key f) gs); [by apply Hold|].
  rewrite map_app in Hk. apply elem_of_app in Hk as [Hk|Hk]; [by apply Hold|].
  apply list_elem_of_singleton in Hk. by rewrite Hk.
Qed.

Lemma activeArcGroups_keys_nonempty mode conns home gs :
  activeArcGroups toFixed mode conns home = Returned gs →
  Forall (λ g, key g ≠ "") gs.
Proof.
  destruct mode; simpl; intros H.
  - apply (forEach_invariant (Forall (λ g, key g ≠ "")) (arcGroupsStep toFixed home)
             conns) with (acc := []); [|constructor|exact H].
    intros acc c acc' Hacc. unfold arcGroupsStep.
    destruct (orElse (src_geo c) home) as [sg|];
      destruct (orElse (dst_geo c) home) as [dg|]; try (by intros [= <-]).
    destruct (skipped (Some sg) (Some dg)); [by intros [= <-]|].
    destruct (coordKey toFixed sg) as [sk|]; simpl; [|done].
    destruct (coordKey toFixed dg) as [dk|]; simpl; [|done].
    intros [= <-]. apply record_keys_nonempty; [done|]. apply pairKey_nonempty.
  - apply (forEach_invariant (Forall (λ g, key g ≠ "")) (appGroupsStep toFixed home)
             conns) with (acc := []); [|constructor|exact H].
    intros acc c acc' Hacc. unfold appGroupsStep.
    destruct (orElse (src_geo c) home) as [sg|];
      destruct (orElse (dst_geo c) home) as [dg|]; try (by intros [= <-]).
    destruct (skipped (Some sg) (Some dg)); [by intros [= <-]|].
    destruct (coordKey toFixed dg) as [dk|]; simpl; [|done].
    intros [= <-]. apply record_keys_nonempty; [done|]. apply separated_nonempty.
Qed.

(** X21.  A click on the map, for the groups derived from the store.  After
    a drag of more than 5 pixels the click changes nothing.  Otherwise the
    store is left alone and the direct selection of a connection is
    cleared; when the pointer hits a group, that group becomes the selected
    arc group and the table is handed exactly its members; when it hits
    nothing, the arc filter is cleared and the table is handed the whole
    store. *)
Theorem click_filters_the_table (s : State) (gs : list ArcGroup)
    (dragDist clickX clickY w h z : R) (p : Point) :
  activeArcGroups toFixed (groupMode s) (connections s) (homeLocation s) = Returned gs →
  (5 < dragDist → handleClick dragDist clickX clickY w h z p gs s = s)
  ∧ (dragDist <= 5 →
     connections (handleClick dragDist clickX clickY w h z p gs s) = connections s
     ∧ selectedConnection (handleClick dragDist clickX clickY w h z p gs s) = None
     ∧ match hitTest clickX clickY w h z p gs with
       | Some g =>
           g ∈ gs
           ∧ selectedArcGroup gs (handleClick dragDist clickX clickY w h z p gs s)
             = Some g
           ∧ filteredConnections gs (handleClick dragDist clickX clickY w h z p gs s)
             = groupConnections g
       | None =>
           selectedArcGroupKey (handleClick dragDist clickX clickY w h z p gs s) = None
           ∧ filteredConnections gs (handleClick dragDist clickX clickY w h z p gs s)
             = connections s
       end).
Proof.
  intros H.
  destruct (activeArcGroups_partitions toFixed (homeLocation s) (groupMode s)
              (connections s) gs H) as (_ & Hnd & _).
  pose proof (activeArcGroups_keys_nonempty _ _ _ _ H) as Hkeys.
  unfold handleClick. split.
  - intros Hd. by rewrite ltR_true.
  - intros Hd. rewrite ltR_false by done.
    split; [done|]. split; [done|].
    destruct (hitTest clickX clickY w h z p gs) as [g|] eqn:E.
    + apply find_some in E as [Hin _]. apply list_elem_of_In in Hin.
      pose proof (proj1 (Forall_forall _ _) Hkeys g Hin) as Hk.
      assert (selectedArcGroup gs (handleSelectArcGroup (Some g) s) = Some g) as Hsel.
      { unfold selectedArcGroup, handleSelectArcGroup; simpl.
        unfold nonEmpty. rewrite decide_False by done. rewrite decide_False by done.
        destruct (List.find _ gs) as [g'|] eqn:F.
        - apply find_some in F as [Hin' Hk']. apply bool_decide_eq_true_1 in Hk'.
          f_equal. apply list_elem_of_In in Hin'.
          by apply (NoDup_key_unique gs g' g Hnd Hin' Hin).
        - pose proof (find_none _ _ F g (proj1 (list_elem_of_In _ _) Hin)) as Hf.
          simpl in Hf. by rewrite bool_decide_eq_true_2 in Hf. }
      split; [done|]. split; [done|].
      unfold filteredConnections. by rewrite Hsel.
    + split; [done|]. done.
Qed.

End ClickProperties.

Lemma click_filters_the_table_witness :
  handleClick 12 180 90 360 180 1 origin
    [mkArcGroup "0.0,0.0-0.0,0.0" (Some exampleGeo) (Some farGeo) None
                [resolvedConnection] 10 1]
    (setConnections (λ _, [resolvedConnection; exampleConnection 100 1 1000])
                    initialState)
  = setConnections (λ _, [resolvedConnection; exampleConnection 100 1 1000])
                   initialState.
Proof.
  apply (click_filters_the_table constFixed
           (setConnections (λ _, [resolvedConnection; exampleConnection 100 1 1000])
                           initialState)
           [mkArcGroup "0.0,0.0-0.0,0.0" (Some exampleGeo) (Some farGeo) None
                       [resolvedConnection] 10 1]
           12 180 90 360 180 1 origin).
  - reflexivity.
  - lra.
Defined.

(** ** Dragging the globe *)

Section DragProperties.

Local Open Scope R_scope.

Import GlobeControls.

Lemma last_cons_default {A} (a d : A) (l : list A) :
  List.last (a :: l) d = List.last l a.
Proof.
  revert a d. induction l as [|b l IH]; intros a d; [done|].
  change (List.last (a :: b :: l) d) with (List.last (b :: l) d).
  by rewrite (IH b d), (IH b a).
Qed.

Lemma moves_from_press (moves : list (R * R)) (c : Controls) :
  isDragging c = true →
  let c' := fold_left (λ c m, onMouseMove m.1 m.2 c) moves c in
  let last := List.last moves (previousX c, previousY c) in
  isDragging c' = true
  ∧ previousX c' = last.1 ∧ previousY c' = last.2
  ∧ targetRotationY c' = targetRotationY c + (last.1 - previousX c) * 0.005
  ∧ targetRotationX c' = targetRotationX c + (last.2 - previousY c) * 0.005
  ∧ dragDist c + (Rabs (last.1 - previousX c) + Rabs (last.2 - previousY c))
    <= dragDist c'
  ∧ GlobeControls.zoom c' = GlobeControls.zoom c ∧ targetZoom c' = targetZoom c
  ∧ rotationX c' = rotationX c ∧ rotationY c' = rotationY c.
Proof.
  revert c. induction moves as [|[x y] moves IH]; intros c Hd; cbv zeta.
  - simpl. rewrite !Rminus_diag, Rabs_R0. repeat split; try done; lra.
  - cbn [fold_left fst snd].
    assert (onMouseMove x y c
            = mkControls true x y (rotationY c) (rotationX c)
                (targetRotationY c + (x - previousX c) * 0.005)
                (targetRotationX c + (y - previousY c) * 0.005)
                (GlobeControls.zoom c) (targetZoom c)
                (dragDist c + (Rabs (x - previousX c) + Rabs (y - previousY c)))) as Hmove
      by (unfold onMouseMove; by rewrite Hd).
    assert (isDragging (onMouseMove x y c) = true) as Hd' by by rewrite Hmove.
    specialize (IH (onMouseMove x y c) Hd'). cbv zeta in IH.
    rewrite (last_cons_default (x, y) (previousX c, previousY c) moves).
    set (c1 := onMouseMove x y c) in *.
    assert (previousX c1 = x) as E1 by (by rewrite Hmove).
    assert (previousY c1 = y) as E2 by (by rewrite Hmove).
    assert (targetRotationY c1 = targetRotationY c + (x - previousX c) * 0.005) as E3
      by (by rewrite Hmove).
    assert (targetRotationX c1 = targetRotationX c + (y - previousY c) * 0.005) as E4
      by (by rewrite Hmove).
    assert (dragDist c1
            = dragDist c + (Rabs (x - previousX c) + Rabs (y - previousY c))) as E5
      by (by rewrite Hmove).
    assert (GlobeControls.zoom c1 = GlobeControls.zoom c) as E6
      by (by rewrite Hmove).
    assert (targetZoom c1 = targetZoom c) as E7 by (by rewrite Hmove).
    assert (rotationX c1 = rotationX c) as E8 by (by rewrite Hmove).
    assert (rotationY c1 = rotationY c) as E9 by (by rewrite Hmove).
    clearbody c1. rewrite E1, E2, E3, E4, E5, E6, E7, E8, E9 in IH.
    destruct IH as (H1 & H2 & H3 & H4 & H5 & H6 & H7 & H8 & H9 & H10).
    repeat split; try done; try lra.
    pose proof (Rabs_triang ((List.last moves (x, y)).1 - x) (x - previousX c)) as Tx.
    pose proof (Rabs_triang ((List.last moves (x, y)).2 - y) (y - previousY c)) as Ty.
    replace ((List.last moves (x, y)).1 - x + (x - previousX c))
      with ((List.last moves (x, y)).1 - previousX c) in Tx by ring.
    replace ((List.last moves (x, y)).2 - y + (y - previousY c))
      with ((List.last moves (x, y)).2 - previousY c) in Ty by ring.
    lra.
Qed.

(** X22.  A drag of the globe: a press at [(x0, y0)] followed by any moves.
    The target rotation changes by 0.005 radian per pixel of the net
    displacement of the pointer, whatever its path; the zoom is not
    touched; the recorded drag distance is at least the displacement
    (sum of its absolute horizontal and vertical parts), so a release five
    pixels or more away from the press is not a click.  A release right
    after the press is a click, and a second release is not. *)
Theorem drag_turns_the_globe (c : Controls) (x0 y0 : R) (moves : list (R * R)) :
  let c' := fold_left (λ c m, onMouseMove m.1 m.2 c) moves (onMouseDown x0 y0 c) in
  let last := List.last moves (x0, y0) in
  targetRotationY c' = targetRotationY c + (last.1 - x0) * 0.005
  ∧ targetRotationX c' = targetRotationX c + (last.2 - y0) * 0.005
  ∧ targetZoom c' = targetZoom c
  ∧ Rabs (last.1 - x0) + Rabs (last.2 - y0) <= dragDist c'
  ∧ (5 <= Rabs (last.1 - x0) + Rabs (last.2 - y0) → (onMouseUp c').2 = false)
  ∧ (onMouseUp (onMouseDown x0 y0 c)).2 = true
  ∧ (onMouseUp (onMouseUp c').1).2 = false.
Proof.
  cbv zeta.
  destruct (moves_from_press moves (onMouseDown x0 y0 c) eq_refl)
    as (H1 & H2 & H3 & H4 & H5 & H6 & H7 & H8 & H9 & H10).
  cbn [onMouseDown previousX previousY targetRotationY targetRotationX dragDist
       targetZoom] in *.
  split; [done|]. split; [done|]. split; [done|].
  split; [lra|]. split; [|split].
  - intros Hfar. unfold onMouseUp; cbn [snd]. rewrite ltR_false by lra.
    apply andb_false_r.
  - unfold onMouseUp, onMouseDown; simpl. apply ltR_true. lra.
  - reflexivity.
Qed.

Lemma drag_turns_the_globe_witness :
  (onMouseUp (fold_left (λ c m, onMouseMove m.1 m.2 c) [(3, 4); (6, 8)]
                (onMouseDown 0 0 initialControls))).2 = false.
Proof.
  apply (drag_turns_the_globe initialControls 0 0 [(3, 4); (6, 8)]).
  simpl. rewrite !Rminus_0_r, !Rabs_right by lra. lra.
Defined.

End DragProperties.

(** ** The filters and the sort of the table *)

Section RowProperties.

Import ConnectionsTable.

Variable toLowerCase : string → string.
Variable includes : string → string → bool.
Variable localeCompare : string → string → Z.

Lemma placeRow_perm cmp (x : Connection) (l : list Connection) :
  placeRow cmp x l ≡ₚ x :: l.
Proof.
  induction l as [|d l IH]; simpl; [done|].
  destruct (0 <? cmp x d)%Z; [|done].
  rewrite IH. apply Permutation_swap.
Qed.

Lemma sortRows_perm cmp (l : list Connection) : sortRows cmp l ≡ₚ l.
Proof.
  induction l as [|x l IH]; simpl; [done|].
  by rewrite placeRow_perm, IH.
Qed.







End RowProperties.


(** ** The interpolated arcs of the globe *)

Section SlerpProperties.

Local Open Scope R_scope.

Lemma dot_unit_bound (a b : Vector3) :
  lengthSq a = 1 → lengthSq b = 1 → -1 <= dot a b <= 1.
Proof.
  destruct a as [ax ay az], b as [bx by_ bz]. unfold lengthSq, dot; cbn [vx vy vz].
  intros Ha Hb.
  pose proof (Rle_0_sqr (ax - bx)) as H1. pose proof (Rle_0_sqr (ay - by_)) as H2.
  pose proof (Rle_0_sqr (az - bz)) as H3. pose proof (Rle_0_sqr (ax + bx)) as H4.
  pose proof (Rle_0_sqr (ay + by_)) as H5. pose proof (Rle_0_sqr (az + bz)) as H6.
  unfold Rsqr in *. split; nra.
Qed.

Lemma angleTo_unit_cos (a b : Vector3) :
  lengthSq a = 1 → lengthSq b = 1 →
  cos (angleTo a b) = dot a b ∧ 0 <= angleTo a b <= PI.
Proof.
  intros Ha Hb. rewrite angleTo_unit by done.
  destruct (dot_unit_bound a b Ha Hb) as [Hlo Hhi].
  unfold clamp. rewrite Rmin_right by done. rewrite Rmax_right by done.
  split; [by apply cos_acos|apply acos_bound].
Qed.

Lemma sin_split (x y : R) :
  sin x * sin x + sin y * sin y + 2 * (sin x * sin y) * cos (x + y)
  = sin (x + y) * sin (x + y).
Proof.
  rewrite cos_plus, sin_plus.
  pose proof (sin2_cos2 x) as Hx. pose proof (sin2_cos2 y) as Hy. unfold Rsqr in Hx, Hy.
  replace (sin x * sin x + sin y * sin y
           + 2 * (sin x * sin y) * (cos x * cos y - sin x * sin y))
    with ((sin x * cos y + cos x * sin y) * (sin x * cos y + cos x * sin y)
          + sin x * sin x * (1 - (sin y * sin y + cos y * cos y))
          + sin y * sin y * (1 - (sin x * sin x + cos x * cos x))) by ring.
  rewrite Hx, Hy. ring.
Qed.

(** The interpolated point is on the unit sphere before it is lifted. *)
Lemma slerp_unit (s e : Vector3) (angle t : R) :
  lengthSq s = 1 → lengthSq e = 1 → cos angle = dot s e → sin angle ≠ 0 →
  lengthSq (mkVector3
              (sin ((1 - t) * angle) / sin angle * vx s + sin (t * angle) / sin angle * vx e)
              (sin ((1 - t) * angle) / sin angle * vy s + sin (t * angle) / sin angle * vy e)
              (sin ((1 - t) * angle) / sin angle * vz s + sin (t * angle) / sin angle * vz e))
  = 1.
Proof.
  intros Hs He Hcos Hsin.
  pose proof (sin_split ((1 - t) * angle) (t * angle)) as Hid.
  replace ((1 - t) * angle + t * angle) with angle in Hid by ring.
  rewrite Hcos in Hid.
  destruct s as [sx sy sz], e as [ex ey ez].
  unfold lengthSq, dot in *; cbn [vx vy vz] in *.
  set (A := sin ((1 - t) * angle)) in *. set (B := sin (t * angle)) in *.
  set (S := sin angle) in *.
  transitivity ((A * A * (sx * sx + sy * sy + sz * sz)
                 + B * B * (ex * ex + ey * ey + ez * ez)
                 + 2 * (A * B) * (sx * ex + sy * ey + sz * ez)) / (S * S));
    [field; done|].
  rewrite Hs, He, !Rmult_1_r, Hid. field. done.
Qed.

Lemma vlength_multiplyScalar (k : R) (v : Vector3) :
  0 <= k → lengthSq v = 1 → vlength (multiplyScalar k v) = k.
Proof.
  intros Hk Hv. unfold vlength.
  replace (lengthSq (multiplyScalar k v)) with (k * k * lengthSq v)
    by (destruct v; unfold lengthSq, dot, multiplyScalar; cbn [vx vy vz]; ring).
  rewrite Hv, Rmult_1_r. by apply sqrt_square.
Qed.

Lemma slerpPoint_length (s e : Vector3) (angle arcHeight : R) (i : nat) :
  lengthSq s = 1 → lengthSq e = 1 → cos angle = dot s e → sin angle ≠ 0 →
  0 <= arcHeight → (i ≤ segments)%nat →
  vlength (slerpPoint s e angle arcHeight i)
  = 1.01 + 4 * (INR i / 32) * (1 - INR i / 32) * arcHeight
  ∧ 1.01 <= vlength (slerpPoint s e angle arcHeight i) <= 1.01 + arcHeight.
Proof.
  intros Hs He Hcos Hsin Hh Hi.
  assert (INR segments = 32) as H32
    by (unfold segments; rewrite INR_IZR_INZ; apply f_equal; reflexivity).
  assert (0 <= INR i / 32 <= 1) as Ht.
  { pose proof (pos_INR i) as H0. apply le_INR in Hi. rewrite H32 in Hi. lra. }
  unfold slerpPoint. cbv zeta. rewrite H32.
  set (t := INR i / 32) in *.
  rewrite normalize_unit by (by apply slerp_unit).
  assert (0 <= 4 * t * (1 - t) <= 1) as Hq.
  { destruct Ht as [Ht0 Ht1]. clearbody t.
    pose proof (Rle_0_sqr (2 * t - 1)) as Hsq. unfold Rsqr in Hsq.
    assert (0 <= t * (1 - t)) by (apply Rmult_le_pos; lra). split; lra. }
  assert (0 <= 4 * t * (1 - t) * arcHeight <= arcHeight) as Hl.
  { destruct Hq as [Hq0 Hq1]. split.
    - by apply Rmult_le_pos.
    - rewrite <- (Rmult_1_l arcHeight) at 2. by apply Rmult_le_compat_r. }
  rewrite vlength_multiplyScalar; [lra|lra|by apply slerp_unit].
Qed.

Lemma slerpPoint_first (s e : Vector3) (angle arcHeight : R) :
  lengthSq s = 1 → sin angle ≠ 0 →
  slerpPoint s e angle arcHeight 0 = multiplyScalar 1.01 s.
Proof.
  intros Hs Hsin. unfold slerpPoint. cbv zeta.
  replace (INR 0 / INR segments) with 0 by (simpl; lra).
  replace ((1 - 0) * angle) with angle by ring.
  replace (0 * angle) with 0 by ring. rewrite sin_0.
  replace (sin angle / sin angle) with 1 by (field; done).
  replace (0 / sin angle) with 0 by (field; done).
  replace (mkVector3 (1 * vx s + 0 * vx e) (1 * vy s + 0 * vy e) (1 * vz s + 0 * vz e))
    with s by (destruct s; cbn [vx vy vz]; f_equal; ring).
  rewrite normalize_unit by done. f_equal. ring.
Qed.

Lemma slerpPoint_last (s e : Vector3) (angle arcHeight : R) :
  lengthSq e = 1 → sin angle ≠ 0 →
  slerpPoint s e angle arcHeight segments = multiplyScalar 1.01 e.
Proof.
  intros He Hsin. unfold slerpPoint. cbv zeta.
  assert (INR segments = 32) as H32
    by (unfold segments; rewrite INR_IZR_INZ; apply f_equal; reflexivity).
  rewrite H32. replace (32 / 32) with 1 by lra.
  replace ((1 - 1) * angle) with 0 by ring.
  replace (1 * angle) with angle by ring. rewrite sin_0.
  replace (sin angle / sin angle) with 1 by (field; done).
  replace (0 / sin angle) with 0 by (field; done).
  replace (mkVector3 (0 * vx s + 1 * vx e) (0 * vy s + 1 * vy e) (0 * vz s + 1 * vz e))
    with e by (destruct e; cbn [vx vy vz]; f_equal; ring).
  rewrite normalize_unit by done. f_equal. ring.
Qed.

(** X24.  Between two ends that are neither closer than 0.01 radian nor
    opposite on the globe, the curve goes through 33 interpolated points.
    The first is the start and the last is the end, both 1 percent above
    the surface of the globe of radius 1; point [i] is at the distance
    [1.01 + 4 t (1 - t) arcHeight] from the centre, with [t = i / 32], which
    is between 1.01 and 1.41: none of the points is below the surface. *)
Theorem interpolated_arc_above_the_globe (startLat startLon endLat endLon : R) :
  0.01 <= arcAngle startLat startLon endLat endLon →
  arcAngle startLat startLon endLat endLon < PI →
  ∃ points,
    createArcCurve startLat startLon endLat endLon = CatmullRomCurve3 points
    ∧ length points = 33%nat
    ∧ hd_error points = Some (multiplyScalar 1.01 (latLonToVector3 startLat startLon 1))
    ∧ List.last points (mkVector3 0 0 0)
      = multiplyScalar 1.01 (latLonToVector3 endLat endLon 1)
    ∧ (∀ p, p ∈ points →
         ∃ i, (i ≤ 32)%nat
              ∧ vlength p
                = 1.01 + 4 * (INR i / 32) * (1 - INR i / 32)
                         * (0.1 + arcAngle startLat startLon endLat endLon / PI * 0.3)
              ∧ 1.01 <= vlength p <= 1.41).
Proof.
  intros Hlo Hhi.
  pose proof (latLonToVector3_unit startLat startLon) as Hs.
  pose proof (latLonToVector3_unit endLat endLon) as He.
  unfold createArcCurve. cbv zeta.
  change (angleTo (normalize (latLonToVector3 startLat startLon 1))
                  (normalize (latLonToVector3 endLat endLon 1)))
    with (arcAngle startLat startLon endLat endLon).
  assert (cos (arcAngle startLat startLon endLat endLon)
          = dot (latLonToVector3 startLat startLon 1) (latLonToVector3 endLat endLon 1))
    as Hcos.
  { unfold arcAngle. rewrite !normalize_unit by done. by apply angleTo_unit_cos. }
  rewrite !normalize_unit by done.
  set (angle := arcAngle startLat startLon endLat endLon) in *.
  set (s := latLonToVector3 startLat startLon 1) in *.
  set (e := latLonToVector3 endLat endLon 1) in *.
  assert (sin angle ≠ 0) as Hsin.
  { pose proof (sin_gt_0 angle). lra. }
  assert (0 <= 0.1 + angle / PI * 0.3 <= 0.4) as Hh.
  { pose proof PI_RGT_0 as Hpi.
    assert (0 <= angle / PI <= 1) as Hq.
    { split.
      - apply Rmult_le_pos; [lra|]. left. by apply Rinv_0_lt_compat.
      - apply (Rmult_le_reg_r PI); [done|]. unfold Rdiv.
        rewrite Rmult_assoc, Rinv_l by lra. lra. }
    lra. }
  destruct (Rlt_dec angle 0.01); [lra|].
  eexists. split; [reflexivity|].
  split; [by rewrite length_map|].
  split; [|split].
  - change (seq 0 (S segments)) with (0%nat :: seq 1 segments). cbn [map hd_error].
    f_equal. by apply slerpPoint_first.
  - replace (seq 0 (S segments)) with (seq 0 segments ++ [segments])
      by (symmetry; apply (seq_S segments 0)).
    rewrite map_app. cbn [map]. rewrite last_last. by apply slerpPoint_last.
  - intros p Hp. apply list_elem_of_In, in_map_iff in Hp as (i & <- & Hi).
    apply in_seq in Hi. exists i.
    assert (i ≤ segments)%nat as Hi' by (unfold segments in *; lia).
    split; [exact Hi'|].
    destruct (slerpPoint_length s e angle (0.1 + angle / PI * 0.3) i Hs He Hcos Hsin
                (proj1 Hh) Hi') as [Hlen Hb].
    split; [done|lra].
Qed.

Lemma latLonToVector3_0_90 : latLonToVector3 0 90 1 = mkVector3 0 0 (-1).
Proof.
  unfold latLonToVector3.
  replace ((90 - 0) * (PI / 180)) with (PI / 2) by field.
  replace ((90 + 180) * (PI / 180)) with (3 * (PI / 2)) by field.
  rewrite sin_PI2, cos_PI2, cos_3PI2, sin_3PI2. f_equal; ring.
Qed.

(** A quarter of a great circle. *)
Lemma arcAngle_quarter : arcAngle 0 0 0 90 = PI / 2.
Proof.
  rewrite arcAngle_unit, latLonToVector3_0_0, latLonToVector3_0_90.
  unfold dot, clamp. cbn [vx vy vz].
  replace (1 * 0 + 0 * 0 + 0 * -1) with 0 by ring.
  rewrite Rmin_right by lra. rewrite Rmax_right by lra. apply acos_0.
Qed.

Lemma interpolated_arc_above_the_globe_witness :
  ∃ points, createArcCurve 0 0 0 90 = CatmullRomCurve3 points
            ∧ length points = 33%nat.
Proof.
  pose proof PI2_1 as Hpi.
  destruct (interpolated_arc_above_the_globe 0 0 0 90) as (points & H & Hl & _).
  - rewrite arcAngle_quarter. lra.
  - rewrite arcAngle_quarter. lra.
  - by exists points.
Defined.

End SlerpProperties.

(** ** The capture interfaces offered by the header *)

Section InterfaceProperties.

Lemma realInterfaces_elem (l : list Interface) (i : Interface) :
  i ∈ realInterfaces l ↔ i ∈ l ∧ excludedInterface i = false.
Proof.
  unfold realInterfaces. rewrite !list_elem_of_In, filter_In, negb_true_iff.
  by rewrite <- list_elem_of_In.
Qed.

Lemma realInterfaces_nil (l : list Interface) :
  realInterfaces l = [] ↔ ∀ i, i ∈ l → excludedInterface i = true.
Proof.
  split.
  - intros H i Hi. destruct (excludedInterface i) eqn:E; [done|].
    assert (i ∈ realInterfaces l) as Hin by by apply realInterfaces_elem.
    rewrite H in Hin. by apply elem_of_nil in Hin.
  - intros H. destruct (realInterfaces l) as [|i r] eqn:E; [done|].
    assert (i ∈ realInterfaces l) as Hin by (rewrite E; apply list_elem_of_here).
    apply realInterfaces_elem in Hin as [Hin Hex]. rewrite (H i Hin) in Hex. done.
Qed.

Lemma smartOptions_names (names : list string) (o : InterfaceOption) :
  o ∈ smartOptions names →
  optName o ∈ names
  ∨ optName o = String.concat "," ("en0" :: List.filter (String.prefix "utun") names).
Proof.
  unfold smartOptions. intros Ho.
  apply elem_of_app in Ho as [Ho|Ho]; [|apply elem_of_app in Ho as [Ho|Ho]].
  - destruct (List.find _ names) as [w|] eqn:E; [|by apply elem_of_nil in Ho].
    apply find_some in E as [Hw Hen]. apply bool_decide_eq_true_1 in Hen. subst w.
    apply elem_of_cons in Ho as [->|Ho]; [left; by apply list_elem_of_In|].
    destruct (0 <? _)%nat; [|by apply elem_of_nil in Ho].
    apply list_elem_of_singleton in Ho as ->. by right.
  - apply list_elem_of_In, in_map_iff in Ho as (vpn & <- & Hv). left. simpl.
    apply list_elem_of_In in Hv. apply elem_of_take in Hv as (k & Hv & _).
    apply list_elem_of_lookup_2 in Hv.
    apply list_elem_of_In, filter_In in Hv as [Hv _]. by apply list_elem_of_In.
  - destruct (bool_decide ("lo0" ∈ names)) eqn:E; [|by apply elem_of_nil in Ho].
    apply bool_decide_eq_true_1 in E. apply list_elem_of_singleton in Ho as ->. by left.
Qed.

Lemma correctInterface_offered (options : list InterfaceOption) (current : string) :
  options ≠ [] → correctInterface options current ∈ map optName options.
Proof.
  destruct options as [|first rest]; [done|]. intros _. unfold correctInterface.
  destruct (existsb _ (first :: rest)) eqn:E.
  - apply existsb_exists in E as (o & Ho & Hn). apply bool_decide_eq_true_1 in Hn.
    rewrite <- Hn. apply list_elem_of_In, in_map. exact Ho.
  - apply list_elem_of_here.
Qed.

Lemma buildInterfaceOptions_nil (l : list Interface) :
  l ≠ [] →
  buildInterfaceOptions (Some l) = [] ↔ ∀ i, i ∈ l → excludedInterface i = true.
Proof.
  intros Hl. rewrite <- realInterfaces_nil.
  destruct l as [|i0 l0]; [done|]. unfold buildInterfaceOptions. cbv zeta.
  generalize (realInterfaces (i0 :: l0)). intros real.
  destruct (smartOptions (map ifName real)) as [|o os] eqn:E.
  - change (length (@nil InterfaceOption) =? 0)%nat with true. cbv iota.
    split; [apply map_eq_nil|by intros ->].
  - change (length (o :: os) =? 0)%nat with false. cbv iota.
    split; [done|]. intros ->. done.
Qed.

(** X25.  The capture interfaces offered for selection.  With no list of
    interfaces, or an empty one, the only option is en0.  For a list that
    is not empty: there is no option at all exactly when every interface of
    the list is excluded; every option is an interface of the list that is
    not excluded, or the combination of en0 with the VPN tunnels; when some
    interface is not excluded, the interface selected after the detection
    and the correction of the header is one of the options; and when they
    are all excluded the selection stays on the first interface of the
    list, which is not an option. *)
Theorem offered_interfaces (l : list Interface) (current : string) :
  buildInterfaceOptions None = [mkOption "en0" "Wi-Fi (en0)"]
  ∧ buildInterfaceOptions (Some []) = [mkOption "en0" "Wi-Fi (en0)"]
  ∧ (l ≠ [] →
     (buildInterfaceOptions (Some l) = [] ↔ ∀ i, i ∈ l → excludedInterface i = true)
     ∧ (∀ o, o ∈ buildInterfaceOptions (Some l) →
          (∃ i, i ∈ l ∧ excludedInterface i = false ∧ optName o = ifName i)
          ∨ optName o
            = String.concat ","
                ("en0" :: List.filter (String.prefix "utun")
                                      (map ifName (realInterfaces l))))
     ∧ ((∃ i, i ∈ l ∧ excludedInterface i = false) →
        correctInterface
          (buildInterfaceOptions (Some (detectInterfaces (Detected (Some l)) ([], current)).1))
          (detectInterfaces (Detected (Some l)) ([], current)).2
        ∈ map optName (buildInterfaceOptions (Some l)))
     ∧ ((∀ i, i ∈ l → excludedInterface i = true) →
        Some (correctInterface
                (buildInterfaceOptions
                   (Some (detectInterfaces (Detected (Some l)) ([], current)).1))
                (detectInterfaces (Detected (Some l)) ([], current)).2)
        = head (map ifName l))).
Proof.
  split; [done|]. split; [done|]. intros Hl.
  assert ((detectInterfaces (Detected (Some l)) ([], current)).1 = l) as Hdet
    by (by destruct l).
  split; [by apply buildInterfaceOptions_nil|]. split; [|split].
  - intros o Ho.
    assert (∀ n, n ∈ map ifName (realInterfaces l) →
                 ∃ i, i ∈ l ∧ excludedInterface i = false ∧ n = ifName i) as Hreal.
    { intros n Hn. apply list_elem_of_In, in_map_iff in Hn as (i & <- & Hi).
      apply list_elem_of_In, realInterfaces_elem in Hi as [Hi Hex]. by exists i. }
    destruct l as [|i0 l0]; [done|]. unfold buildInterfaceOptions in Ho.
    set (l := i0 :: l0) in *. cbv zeta in Ho.
    destruct (length (smartOptions (map ifName (realInterfaces l))) =? 0)%nat.
    + left. apply list_elem_of_In, in_map_iff in Ho as (i & <- & Hi).
      apply list_elem_of_In, realInterfaces_elem in Hi as [Hi Hex]. by exists i.
    + apply smartOptions_names in Ho as [Ho|Ho]; [left; by apply Hreal|by right].
  - intros (i & Hi & Hex). rewrite Hdet.
    apply correctInterface_offered. intros Hnil.
    pose proof (proj1 (buildInterfaceOptions_nil l Hl) Hnil i Hi) as Hex'.
    rewrite Hex' in Hex. done.
  - intros Hall. rewrite Hdet.
    rewrite (proj2 (buildInterfaceOptions_nil l Hl) Hall).
    destruct l as [|i0 l0]; [done|]. cbn [correctInterface detectInterfaces snd].
    rewrite bool_decide_eq_false_2; [done|].
    intros Hen. apply list_elem_of_In, in_map_iff in Hen as (i & Hn & Hi).
    apply list_elem_of_In in Hi. pose proof (Hall i Hi) as Hex.
    unfold excludedInterface in Hex. rewrite Hn in Hex. done.
Qed.

Lemma offered_interfaces_witness :
  correctInterface
    (buildInterfaceOptions
       (Some (detectInterfaces
                (Detected (Some [mkInterface "ciscodump" None; mkInterface "utun3" None;
                                 mkInterface "bridge0" (Some "Thunderbolt Bridge")]))
                ([], "")).1))
    (detectInterfaces
       (Detected (Some [mkInterface "ciscodump" None; mkInterface "utun3" None;
                        mkInterface "bridge0" (Some "Thunderbolt Bridge")]))
       ([], "")).2
  ∈ map optName
      (buildInterfaceOptions
         (Some [mkInterface "ciscodump" None; mkInterface "utun3" None;
                mkInterface "bridge0" (Some "Thunderbolt Bridge")])).
Proof.
  apply (offered_interfaces
           [mkInterface "ciscodump" None; mkInterface "utun3" None;
            mkInterface "bridge0" (Some "Thunderbolt Bridge")] "").
  - discriminate.
  - exists (mkInterface "utun3" None). split; [|split; reflexivity].
    apply list_elem_of_further, list_elem_of_here.
Defined.

Example offered_interfaces_example :
  buildInterfaceOptions
    (Some [mkInterface "ciscodump" None; mkInterface "utun3" None;
           mkInterface "en0" None; mkInterface "lo0" None; mkInterface "anpi7" None])
  = [mkOption "en0" "Wi-Fi (en0)";
     mkOption "en0,utun3" "Wi-Fi + VPN tunnels (1)";
     mkOption "utun3" "VPN tunnel (utun3)";
     mkOption "lo0" "Loopback (localhost)"].
Proof. reflexivity. Qed.

End InterfaceProperties.

(** ** The dots of the activity mode *)

Section ActivityProperties.

Local Open Scope R_scope.

Lemma rem1_range (x : R) : 0 <= x → 0 <= rem1 x < 1.
Proof.
  intros Hx. unfold rem1. destruct (Rle_dec 0 x); [|lra].
  destruct (base_fp x) as [H0 H1]. lra.
Qed.

(** Half a turn further, the remainder is half a unit away. *)
Lemma rem1_half (x : R) :
  0 <= x → rem1 (x + 0.5) = rem1 x + 0.5 ∨ rem1 (x + 0.5) = rem1 x - 0.5.
Proof.
  intros Hx. unfold rem1.
  destruct (Rle_dec 0 x); [|lra]. destruct (Rle_dec 0 (x + 0.5)); [|lra].
  destruct (base_fp x) as [H0 H1]. destruct (base_fp (x + 0.5)) as [H2 H3].
  unfold frac_part in *.
  set (k1 := Int_part x) in *. set (k2 := Int_part (x + 0.5)) in *.
  assert (-1 < k2 - k1 < 2)%Z as Hk.
  { split; apply lt_IZR; rewrite minus_IZR; lra. }
  assert (k2 = k1 ∨ k2 = (k1 + 1)%Z) as [->| ->] by lia.
  - left. lra.
  - right. rewrite plus_IZR. lra.
Qed.

Lemma calcOpacity_range (t : R) :
  0 <= t <= 1 → 0 <= GlobeControls.calcOpacity t <= 1.
Proof.
  intros Ht. unfold GlobeControls.calcOpacity.
  destruct (Rlt_dec t 0.1); [lra|]. destruct (Rlt_dec 0.9 t); lra.
Qed.

(** X26.  In activity mode every arc carries two dots.  At any time that is
    not negative, both curve parameters are between 0 and 1, the opacities
    on the globe are between 0 and 1, and the two dots are mirror images of
    each other: their parameters add up to a half or to one and a half, so
    they cross at a quarter and at three quarters of the arc. *)
Theorem activity_dots_mirror (now : R) (idx : nat) :
  0 <= now →
  (0 <= (globeActivity now idx).1.1 < 1
   ∧ 0 < (globeActivity now idx).2.1 <= 1
   ∧ 0 <= (globeActivity now idx).1.2 <= 1
   ∧ 0 <= (globeActivity now idx).2.2 <= 1
   ∧ ((globeActivity now idx).1.1 + (globeActivity now idx).2.1 = 0.5
      ∨ (globeActivity now idx).1.1 + (globeActivity now idx).2.1 = 1.5))
  ∧ (0 <= (mapActivity now idx).1 < 1
     ∧ 0 < (mapActivity now idx).2 <= 1
     ∧ ((mapActivity now idx).1 + (mapActivity now idx).2 = 0.5
        ∨ (mapActivity now idx).1 + (mapActivity now idx).2 = 1.5)).
Proof.
  intros Hnow. pose proof (pos_INR idx) as Hidx.
  assert (∀ x, 0 <= x →
            0 <= rem1 x < 1 ∧ 0 < 1 - rem1 (x + 0.5) <= 1
            ∧ (rem1 x + (1 - rem1 (x + 0.5)) = 0.5
               ∨ rem1 x + (1 - rem1 (x + 0.5)) = 1.5)) as Hpair.
  { intros x Hx. pose proof (rem1_range x Hx) as H1.
    assert (0 <= x + 0.5) as Hx' by lra. pose proof (rem1_range (x + 0.5) Hx') as H2.
    split; [done|]. split; [lra|].
    destruct (rem1_half x Hx) as [E|E]; rewrite E; [left|right]; lra. }
  split.
  - unfold globeActivity; cbn [fst snd].
    assert (0 <= now / 2500 + rem1 (INR idx * 0.17)) as Hx.
    { pose proof (rem1_range (INR idx * 0.17)). lra. }
    destruct (Hpair _ Hx) as (H1 & H2 & H3).
    pose proof (rem1_range (now / 2500 + rem1 (INR idx * 0.17) + 0.5)) as H4.
    split; [done|]. split; [done|].
    split; [apply calcOpacity_range; lra|].
    split; [apply calcOpacity_range; lra|done].
  - unfold mapActivity; cbn [fst snd].
    assert (0 <= now * 0.3 + rem1 (INR idx * 0.3)) as Hx.
    { pose proof (rem1_range (INR idx * 0.3)). lra. }
    by destruct (Hpair _ Hx) as (H1 & H2 & H3).
Qed.

Lemma activity_dots_mirror_witness :
  0 <= (globeActivity 1250 0).1.1 < 1.
Proof.
  apply (activity_dots_mirror 1250 0). lra.
Defined.

End ActivityProperties.

(** ** The unit of a byte count *)

Section FormattingProperties.

Local Open Scope R_scope.

Variable showFixed1 : R → string.








End FormattingProperties.


(** ** The pointer parked off the canvas *)

Section ParkedPointer.

Local Open Scope R_scope.

Lemma distTo_right (mouseX mouseY : R) (q : Point) :
  px q - mouseX <= distTo mouseX mouseY q.
Proof.
  unfold distTo.
  destruct (Rle_dec (px q - mouseX) 0) as [Hn|Hp].
  - pose proof (sqrt_pos ((mouseX - px q) ^ 2 + (mouseY - py q) ^ 2)). lra.
  - rewrite <- (sqrt_Rsqr (px q - mouseX)) at 1 by lra.
    apply sqrt_le_1_alt. rewrite <- !Rsqr_pow2.
    pose proof (Rle_0_sqr (mouseY - py q)).
    replace (Rsqr (mouseX - px q)) with (Rsqr (px q - mouseX))
      by (unfold Rsqr; ring).
    lra.
Qed.

(** The sampled points of an arc are not to the left of both of its ends. *)
Lemma arcSamples_right_of (s d q : Point) :
  q ∈ arcSamples s d → Rmin (px s) (px d) <= px q.
Proof.
  unfold arcSamples. intros Hq. apply list_elem_of_In, in_map_iff in Hq as (t & <- & Ht).
  apply list_elem_of_In, loopParams_range in Ht; [|lra|].
  - unfold arcPoint. cbn [px].
    pose proof (Rmin_l (px s) (px d)). pose proof (Rmin_r (px s) (px d)).
    set (m := Rmin (px s) (px d)) in *.
    assert (0 <= (1 - t) * (1 - t) * (px s - m)) by (apply Rmult_le_pos; nra).
    assert (0 <= 2 * (1 - t) * t * ((px s + px d) / 2 - m)) by (apply Rmult_le_pos; nra).
    assert (0 <= t * t * (px d - m)) by (apply Rmult_le_pos; nra).
    assert ((1 - t) * (1 - t) * px s + 2 * (1 - t) * t * ((px s + px d) / 2)
            + t * t * px d - m
            = (1 - t) * (1 - t) * (px s - m) + 2 * (1 - t) * t * ((px s + px d) / 2 - m)
              + t * t * (px d - m)) by ring.
    lra.
  - pose proof (numSamples_bounds
                  (sqrt ((px d - px s) ^ 2 + (py d - py s) ^ 2))) as [Hlo _].
    apply le_INR in Hlo. replace (INR 20) with 20 in Hlo by (simpl; lra).
    unfold Rdiv. rewrite Rmult_1_l. left. apply Rinv_0_lt_compat. lra.
Qed.

Lemma toXYgeo_left_edge (geo : GeoPoint) (w h : R) (v : Viewport) (lo : R) (q : Point) :
  0 < w → 1 <= zoom v → withinPan w h v →
  lon geo = Some lo → -180 <= lo →
  toXYgeo geo w h (zoom v) (pan v) = Some q →
  - (w * (zoom v - 1)) <= px q.
Proof.
  intros Hw Hz [Hpx _] Hlon Hlo. unfold toXYgeo. rewrite Hlon.
  destruct (lat geo) as [la|]; [|done]. intros [= <-]. unfold toXY. cbn [px].
  assert (- ((w * zoom v - w) / 2) <= px (pan v)) as Hp.
  { revert Hpx. unfold Rabs. destruct (Rcase_abs (px (pan v))); lra. }
  assert (0 <= (lo + 180) / 360 * w) as Hb.
  { apply Rmult_le_pos; lra. }
  nra.
Qed.

(** X28.  When the pointer leaves the map it is parked at
    (-1000, -1000) and the hover is cleared.  On a canvas of width [w], at a
    zoom and a pan within bounds with
    [w * (zoom - 1) + 24 * max(1, zoom / 2) <= 1000], in particular at
    zoom 1, the next frames hover nothing, whatever the groups, as long as
    their longitudes are not below -180: no node and no sampled point of an
    arc is within reach of the parked pointer. *)
Theorem parked_pointer_hovers_nothing (w h : R) (v : Viewport)
    (groups : list ArcGroup) (hv : Hover) :
  0 < w → 1 <= zoom v → withinPan w h v →
  w * (zoom v - 1) + nodeHitRadius (zoom v) <= 1000 →
  (∀ g geo lo, g ∈ groups → srcGeo g = Some geo ∨ dstGeo g = Some geo →
               lon geo = Some lo → -180 <= lo) →
  hitTest (-1000) (-1000) w h (zoom v) (pan v) groups = None
  ∧ hoveredArcGroup (hoverUpdate w h (zoom v) (pan v) groups (handleMouseLeave hv)) = None.
Proof.
  intros Hw Hz Hpan Hroom Hlon.
  assert (hitRadius (zoom v) <= nodeHitRadius (zoom v)) as Hrad.
  { unfold hitRadius, nodeHitRadius, baseHitRadius.
    pose proof (Rmax_l 1 (zoom v * 0.5)). nra. }
  assert (∀ g geo q, g ∈ groups → srcGeo g = Some geo ∨ dstGeo g = Some geo →
                     toXYgeo geo w h (zoom v) (pan v) = Some q →
                     - (w * (zoom v - 1)) <= px q) as Hedge.
  { intros g geo q Hg Hend Hq.
    destruct (lon geo) as [lo|] eqn:El.
    - apply (toXYgeo_left_edge geo w h v lo q); try done. by apply (Hlon g geo lo).
    - unfold toXYgeo in Hq. rewrite El in Hq. by destruct (lat geo). }
  assert (hitTest (-1000) (-1000) w h (zoom v) (pan v) groups = None) as Hmiss.
  { unfold hitTest. apply find_all_false. intros g Hg.
    apply groupHit_out_of_reach.
    - intros sg dg q Hs Hd Hq.
      assert (- (w * (zoom v - 1)) <= px q) as Hq'.
      { destruct Hq as [Hq|Hq]; [apply (Hedge g sg)|apply (Hedge g dg)]; auto. }
      pose proof (distTo_right (-1000) (-1000) q). lra.
    - intros sg dg s d q Hs Hd Hsq Hdq Hq.
      pose proof (Hedge g sg s Hg (or_introl Hs) Hsq) as H1.
      pose proof (Hedge g dg d Hg (or_intror Hd) Hdq) as H2.
      pose proof (arcSamples_right_of s d q Hq) as H3.
      assert (- (w * (zoom v - 1)) <= Rmin (px s) (px d)) as H4
        by (unfold Rmin; destruct (Rle_dec _ _); lra).
      pose proof (distTo_right (-1000) (-1000) q). lra. }
  split; [done|].
  unfold hoverUpdate, handleMouseLeave. cbn [mousePos px py hoveredArcGroup].
  rewrite Hmiss. done.
Qed.

Lemma parked_pointer_hovers_nothing_witness :
  hitTest (-1000) (-1000) 360 180 1 origin [firstGroup; secondGroup] = None.
Proof.
  apply (parked_pointer_hovers_nothing 360 180 initialViewport
           [firstGroup; secondGroup] (mkHover origin None)).
  - lra.
  - simpl. lra.
  - unfold withinPan. simpl. rewrite Rabs_R0. lra.
  - unfold nodeHitRadius. simpl. rewrite Rmax_left by lra. lra.
  - intros g geo lo Hg Hend Hlo.
    apply elem_of_cons in Hg as [->|Hg];
      [|apply list_elem_of_singleton in Hg as ->];
      destruct Hend as [[= <-]|[= <-]]; injection Hlo as <-; lra.
Defined.

(** Zoomed in on a wide canvas the precondition fails, and a node can sit
    under the parked pointer: at zoom 8 on a canvas of 2000 by 1000, the
    node at latitude 33.75 and longitude -45 is drawn at (-1000, -1000). *)
Example parked_pointer_can_hover :
  ∃ g, hoveredArcGroup
         (hoverUpdate 2000 1000 8 origin
            [mkArcGroup "a" (Some (geoAt 33.75 (-45))) (Some (geoAt 0 0)) None [] 0 0]
            (handleMouseLeave (mkHover origin None)))
       = Some g.
Proof.
  assert (groupHit (-1000) (-1000) 2000 1000 8 origin
            (mkArcGroup "a" (Some (geoAt 33.75 (-45))) (Some (geoAt 0 0)) None [] 0 0)
          = true) as Hhit.
  { apply (groupHit_on_node 2000 1000 8 origin _ (geoAt 33.75 (-45)) (geoAt 0 0)
             (mkPoint (-1000) (-1000))); [done|done|].
    left. unfold toXYgeo, toXY, geoAt, origin; simpl. f_equal. f_equal; lra. }
  unfold hoverUpdate, handleMouseLeave, hitTest. cbn [mousePos px py hoveredArcGroup find].
  rewrite Hhit. cbn. by eexists.
Qed.

End ParkedPointer.

(** ** What a message leaves alone *)

Lemma patchProcess_identity src dst p i c :
  identityOf (patchProcess src dst p i c) = identityOf c.
Proof. by destruct (patchProcess_cases src dst p i c) as [-> | ->]. Qed.

(** X29.  Between two flushes the picture changes by enrichment only.  A
    message that the handler accepts leaves the window of packet events,
    the counters, both selections, the home location and the grouping mode
    as they are, and keeps the records of the store in their places with
    their ids, addresses, ports, protocol, counts and times: only the geo and
    the process of a record can change ([geo_update], [process_update]).  A
    packet changes nothing but the buffers, and a message that is not a
    packet leaves the buffers alone. *)
Theorem message_leaves_the_picture (now : Z) (rnd : string) (p : Payload)
    (s s' : State) :
  onmessage now rnd p s = Returned s' →
  packetEvents s' = packetEvents s
  ∧ stats s' = stats s
  ∧ selectedConnectionId s' = selectedConnectionId s
  ∧ selectedArcGroupKey s' = selectedArcGroupKey s
  ∧ homeLocation s' = homeLocation s
  ∧ groupMode s' = groupMode s
  ∧ map identityOf (connections s') = map identityOf (connections s)
  ∧ ((∃ data, p = JSONData (MsgPacket data))
     → connections s' = connections s
       ∧ capturing s' = capturing s ∧ isRecording s' = isRecording s)
  ∧ ((∀ data, p ≠ JSONData (MsgPacket data)) → pendingOf s' = pendingOf s).
Proof.
  assert (∀ f : Connection → Connection,
            (∀ c, identityOf (f c) = identityOf c) →
            ∀ l, map identityOf (map f l) = map identityOf l) as Hmap.
  { intros f Hf l. induction l as [|c l IH]; simpl; [done|]. by rewrite Hf, IH. }
  destruct p as [| |m]; [done|done|].
  destruct m as [| |status has_error|ip geo|src dst pr i|data|]; simpl.
  - intros [= <-]. split_and!; try done; by intros [data [=]].
  - intros [= <-]. split_and!; try done; by intros [data [=]].
  - destruct status; [| |destruct has_error]; intros [= <-];
      split_and!; try done; by intros [data [=]].
  - destruct geo as [geo|]; [|done]. intros [= <-]. simpl.
    split_and!; try done; try (by intros [data [=]]).
    apply Hmap. intros c. apply patchGeo_identity.
  - intros [= <-]. simpl.
    split_and!; try done; try (by intros [data [=]]).
    apply Hmap. intros c. apply patchProcess_identity.
  - intros [= <-]. unfold onPacket.
    destruct (d_new_flow data && hasGeo data); [|destruct (hasGeo data)];
      simpl; split_and!; try done; intros H; by destruct (H data).
  - intros [= <-]. split_and!; try done; by intros [data [=]].
Qed.

Lemma message_leaves_the_picture_witness :
  stats (onPacket 1000 "0.5" (examplePacket 60 true (Some exampleGeo)) exampleState)
  = stats exampleState.
Proof.
  apply (message_leaves_the_picture 1000 "0.5"
           (JSONData (MsgPacket (examplePacket 60 true (Some exampleGeo))))
           exampleState
           (onPacket 1000 "0.5" (examplePacket 60 true (Some exampleGeo)) exampleState)).
  reflexivity.
Defined.

(** ** The choices of the filters *)

Section FilterChoices.

Import ConnectionsTable.

Variable toLowerCase : string → string.
Variable includes : string → string → bool.
Variable localeCompare : string → string → Z.

Lemma setOf_fold (values acc : list string) :
  let result :=
    fold_left (λ acc x, if bool_decide (x ∈ acc) then acc else acc ++ [x]) values acc in
  (∀ x, x ∈ result ↔ x ∈ acc ∨ x ∈ values) ∧ (NoDup acc → NoDup result).
Proof.
  revert acc. induction values as [|v values IH]; intros acc; cbv zeta; simpl.
  - split; [|done]. intros x. rewrite elem_of_nil. tauto.
  - destruct (IH (if bool_decide (v ∈ acc) then acc else acc ++ [v])) as [Hin Hnd].
    cbv zeta in Hin, Hnd. split.
    + intros x. rewrite Hin, elem_of_cons.
      destruct (bool_decide (v ∈ acc)) eqn:E.
      * apply bool_decide_eq_true_1 in E. split; [tauto|].
        intros [H|[->|H]]; tauto.
      * rewrite elem_of_app, list_elem_of_singleton. tauto.
    + intros Hacc. apply Hnd. destruct (bool_decide (v ∈ acc)) eqn:E; [done|].
      apply bool_decide_eq_false_1 in E. apply NoDup_app. split; [done|].
      split; [|apply NoDup_singleton].
      intros x Hx Hx'. apply list_elem_of_singleton in Hx'. by subst.
Qed.

Lemma setOf_elem (values : list string) (x : string) : x ∈ setOf values ↔ x ∈ values.
Proof.
  destruct (setOf_fold values []) as [H _]. unfold setOf. rewrite H, elem_of_nil. tauto.
Qed.

Lemma setOf_NoDup (values : list string) : NoDup (setOf values).
Proof. destruct (setOf_fold values []) as [_ H]. apply H. constructor. Qed.

Lemma placeString_perm (x : string) (l : list string) : placeString x l ≡ₚ x :: l.
Proof.
  induction l as [|d l IH]; simpl; [done|].
  destruct (String.ltb d x); [|done]. rewrite IH. apply Permutation_swap.
Qed.

Lemma sortStrings_perm (l : list string) : sortStrings l ≡ₚ l.
Proof.
  induction l as [|x l IH]; simpl; [done|]. by rewrite placeString_perm, IH.
Qed.

Lemma truthyStrings_elem (l : list (option string)) (x : string) :
  x ∈ truthyStrings l ↔ x ≠ "" ∧ Some x ∈ l.
Proof.
  unfold truthyStrings. rewrite list_elem_of_omap. split.
  - intros ([v|] & Hv & Hx); simpl in Hx; [|done].
    unfold nonEmpty in Hx. destruct (decide (v = "")); [done|].
    injection Hx as <-. done.
  - intros [Hx Hin]. exists (Some x). split; [done|]. simpl.
    unfold nonEmpty. by rewrite decide_False.
Qed.

Lemma field_elem (f : Connection → option string) (connections : list Connection)
    (x : string) :
  Some x ∈ map f connections ↔ ∃ c, c ∈ connections ∧ f c = Some x.
Proof.
  split.
  - intros H. apply list_elem_of_In, in_map_iff in H as (c & Hc & Hin).
    exists c. split; [by apply list_elem_of_In|done].
  - intros (c & Hin & Hc). rewrite <- Hc.
    apply list_elem_of_In, in_map. by apply list_elem_of_In.
Qed.

Lemma apps_elem (connections : list Connection) (a : string) :
  a ∈ apps connections
  ↔ a = "all" ∨ (a ≠ "" ∧ a ≠ "-" ∧ ∃ c, c ∈ connections ∧ process c = Some a).
Proof.
  unfold apps. rewrite elem_of_cons. split.
  - intros [->|H]; [by left|right].
    rewrite sortStrings_perm in H. apply (proj1 (setOf_elem _ _)) in H.
    apply list_elem_of_In, filter_In in H as [H Hd].
    apply list_elem_of_In, truthyStrings_elem in H as [Hne H].
    apply field_elem in H. apply negb_true_iff, bool_decide_eq_false_1 in Hd. done.
  - intros [->|(Hne & Hd & Hc)]; [by left|right].
    rewrite sortStrings_perm. apply setOf_elem. apply list_elem_of_In, filter_In. split.
    + apply list_elem_of_In, truthyStrings_elem. split; [done|]. by apply field_elem.
    + apply negb_true_iff, bool_decide_eq_false_2. done.
Qed.

Lemma protocols_elem (connections : list Connection) (p : string) :
  p ∈ protocols connections
  ↔ p = "all" ∨ (p ≠ "" ∧ ∃ c, c ∈ connections ∧ protocol c = Some p).
Proof.
  unfold protocols. rewrite elem_of_cons. split.
  - intros [->|H]; [by left|right].
    rewrite sortStrings_perm in H. apply (proj1 (setOf_elem _ _)) in H.
    apply truthyStrings_elem in H as [Hne H]. by apply field_elem in H.
  - intros [->|(Hne & Hc)]; [by left|right].
    rewrite sortStrings_perm. apply setOf_elem, truthyStrings_elem.
    split; [done|]. by apply field_elem.
Qed.

(** X30.  The choices of the two filters of the table.  Besides "all", the
    applications offered are the process names of the connections that are
    neither empty nor "-", and the protocols offered are the protocols of
    the connections that are not empty, each once.  Every choice other than
    "all" selects at least one row when nothing else filters. *)
Theorem filter_choices_select_rows (connections : list Connection)
    (sortField : string) (sortDirection : SortDirection) :
  (∀ a, a ∈ apps connections
        ↔ a = "all" ∨ (a ≠ "" ∧ a ≠ "-" ∧ ∃ c, c ∈ connections ∧ process c = Some a))
  ∧ (∀ p, p ∈ protocols connections
          ↔ p = "all" ∨ (p ≠ "" ∧ ∃ c, c ∈ connections ∧ protocol c = Some p))
  ∧ NoDup (tail (apps connections))
  ∧ NoDup (tail (protocols connections))
  ∧ (∀ a, a ∈ apps connections → a ≠ "all" →
          filteredConnections toLowerCase includes localeCompare connections
            "" "all" a sortField sortDirection ≠ [])
  ∧ (∀ p, p ∈ protocols connections → p ≠ "all" →
          filteredConnections toLowerCase includes localeCompare connections
            "" p "all" sortField sortDirection ≠ []).
Proof.
  split; [apply apps_elem|]. split; [apply protocols_elem|].
  split; [unfold apps; simpl; rewrite sortStrings_perm; apply setOf_NoDup|].
  split; [unfold protocols; simpl; rewrite sortStrings_perm; apply setOf_NoDup|].
  split.
  - intros a Ha Hall. apply apps_elem in Ha as [Ha|(_ & _ & c & Hc & Hp)]; [done|].
    unfold filteredConnections. simpl. rewrite decide_False by done.
    intros Hnil.
    assert (c ∈ sortRows (compareRows localeCompare sortField sortDirection)
                  (List.filter (λ conn, bool_decide (process conn = Some a)) connections))
      as Hin.
    { rewrite sortRows_perm. apply list_elem_of_In, filter_In.
      split; [by apply list_elem_of_In|by apply bool_decide_eq_true_2]. }
    rewrite Hnil in Hin. by apply elem_of_nil in Hin.
  - intros p Hp Hall. apply protocols_elem in Hp as [Hp|(_ & c & Hc & Hp)]; [done|].
    unfold filteredConnections. simpl. rewrite decide_False by done.
    intros Hnil.
    assert (c ∈ sortRows (compareRows localeCompare sortField sortDirection)
                  (List.filter (λ conn, bool_decide (protocol conn = Some p)) connections))
      as Hin.
    { rewrite sortRows_perm. apply list_elem_of_In, filter_In.
      split; [by apply list_elem_of_In|by apply bool_decide_eq_true_2]. }
    rewrite Hnil in Hin. by apply elem_of_nil in Hin.
Qed.

End FilterChoices.

Example filter_choices_example :
  apps [exampleConnection 5 1 1000; resolvedConnection; resolvedConnection] = ["all"; "dig"]
  ∧ protocols [exampleConnection 5 1 1000; resolvedConnection] = ["all"; "TCP"; "UDP"].
Proof. split; reflexivity. Qed.
